(** * titletool: the composition pipeline, embedded and verified

    The development follows [titletool.cpp] (the gradient variant) and
    the older variant of the same tool that has no gradient support.
    C++ [int] is a 32-bit two's complement integer carried by [Z];
    C++ [float] is IEEE 754 binary32 and [double] is binary64, both
    carried by the Standard Library's executable [spec_float] with
    round-to-nearest-even, one rounding per operation, as the source
    is written.  OpenImageIO (text measurement, text drawing, the image
    writer) is outside the repository and enters as a class of
    functions.

    The model comes first, then the definitions that the properties
    use, then the properties.  The numeric properties rest on a proof
    that [binary_round_aux] rounds to nearest, from which the
    operations on [float] get their real-number meaning. *)

From Stdlib Require Import ZArith Bool List String Ascii Lia Reals Lra.
From Stdlib Require Import SpecFloat Sorted.
From stdpp Require Import base option list gmap strings pretty.

Local Open Scope Z_scope.

(** ** C++ [int] *)

Module Int.

Definition INT_MIN : Z := - 2 ^ 31.
Definition INT_MAX : Z := 2 ^ 31 - 1.

(** Two's complement reduction to 32 bits.  Signed overflow is undefined
    in C++; the model takes the value the hardware leaves behind. *)
Definition wrap (z : Z) : Z := (z + 2 ^ 31) mod 2 ^ 32 - 2 ^ 31.

Definition in_range (z : Z) : Prop := INT_MIN <= z <= INT_MAX.

Definition add (a b : Z) : Z := wrap (a + b).
Definition sub (a b : Z) : Z := wrap (a - b).
(** [/] on [int] truncates toward zero. *)
Definition div (a b : Z) : Z := wrap (Z.quot a b).
(** [%] on [int] takes the sign of the dividend. *)
Definition rem (a b : Z) : Z := Z.rem a b.

End Int.

(** ** IEEE 754 binary formats *)

Section Format.
Variables prec emax : Z.

(** Conversion of an [int] (round to nearest even when it does not fit). *)
Definition SFof_int (z : Z) : spec_float := binary_normalize prec emax z 0 false.

(** Conversion from another binary format. *)
Definition SFof_float (x : spec_float) : spec_float :=
  match x with
  | S754_finite s m e => binary_round prec emax s m e
  | _ => x
  end.

(** The largest integer not above a finite [x]. *)
Definition Zfloor (s : bool) (m : positive) (e : Z) : Z :=
  Z.shiftl (cond_Zopp s (Zpos m)) e.

(** [std::floor]. *)
Definition SFfloor (x : spec_float) : spec_float :=
  match x with
  | S754_finite s m e => binary_normalize prec emax (Zfloor s m e) 0 s
  | _ => x
  end.

(** [static_cast<int>]: truncation toward zero.  On NaN, an infinity or
    a value outside [int] the conversion is undefined in C++; the model
    returns [INT_MIN], which is what the x86 conversion instruction
    leaves. *)
Definition SFto_int (x : spec_float) : Z :=
  match x with
  | S754_zero _ => 0
  | S754_finite s m e =>
      let t := cond_Zopp s (Z.shiftl (Zpos m) e) in
      if (Int.INT_MIN <=? t) && (t <=? Int.INT_MAX) then t else Int.INT_MIN
  | _ => Int.INT_MIN
  end.

End Format.

(** [float] *)
Module F32.

Definition prec : Z := 24.
Definition emax : Z := 128.

Definition add : spec_float -> spec_float -> spec_float := SFadd prec emax.
Definition sub : spec_float -> spec_float -> spec_float := SFsub prec emax.
Definition mul : spec_float -> spec_float -> spec_float := SFmul prec emax.
Definition div : spec_float -> spec_float -> spec_float := SFdiv prec emax.

(** [x < y] and [x >= y]; both are false when an operand is NaN. *)
Definition lt (x y : spec_float) : bool := SFltb x y.
Definition ge (x y : spec_float) : bool := SFleb y x.

Definition of_int : Z -> spec_float := SFof_int prec emax.
Definition of_float : spec_float -> spec_float := SFof_float prec emax.
Definition floor : spec_float -> spec_float := SFfloor prec emax.
Definition to_int : spec_float -> Z := SFto_int.

End F32.

(** [double] *)
Module F64.

Definition prec : Z := 53.
Definition emax : Z := 1024.

Definition mul : spec_float -> spec_float -> spec_float := SFmul prec emax.
Definition div : spec_float -> spec_float -> spec_float := SFdiv prec emax.
Definition of_int : Z -> spec_float := SFof_int prec emax.
Definition to_int : spec_float -> Z := SFto_int.

End F64.

(** A decimal literal [n/d] of type [double]: the division of two exactly
    represented integers is correctly rounded, as the compiler's
    conversion of the literal is. *)
Definition double_lit (n d : Z) : spec_float := F64.div (F64.of_int n) (F64.of_int d).

(** A [float] whose value is the integer [z] ([0.0f], [1.0f], [60.0f]...). *)
Definition flit (z : Z) : spec_float := F32.of_int z.

(** [std::numeric_limits<float>::epsilon()], 2^-23. *)
Definition FLT_EPSILON : spec_float := S754_finite false 8388608 (-46).

(** ** Imath vectors *)

Record Vec3 := mkVec3 { vx : spec_float; vy : spec_float; vz : spec_float }.
Record Vec2i := mkVec2i { ix : Z; iy : Z }.

(** ** utils - drawing *)

Definition rgb_from_hsv (hsv : Vec3) : Vec3 :=
  let hue := vx hsv in
  let saturation := vy hsv in
  let value := vz hsv in
  (* Normalize the hue to be within [0, 360) *)
  let hue := if F32.ge hue (flit 360) then flit 0 else hue in
  (* Return black when value is 0 *)
  if F32.lt value FLT_EPSILON then mkVec3 (flit 0) (flit 0) (flit 0)
  (* Return gray when saturation is 0 *)
  else if F32.lt saturation FLT_EPSILON then mkVec3 value value value
  else
    let hi := Int.rem (F32.to_int (F32.floor (F32.div hue (flit 60)))) 6 in
    let f := F32.sub (F32.div hue (flit 60)) (F32.of_int hi) in
    let p := F32.mul value (F32.sub (flit 1) saturation) in
    let q := F32.mul value (F32.sub (flit 1) (F32.mul f saturation)) in
    let t := F32.mul value (F32.sub (flit 1) (F32.mul (F32.sub (flit 1) f) saturation)) in
    match hi with
    | 0 => mkVec3 value t p
    | 1 => mkVec3 q value p
    | 2 => mkVec3 p value t
    | 3 => mkVec3 p q value
    | 4 => mkVec3 t p value
    | 5 => mkVec3 value p q
    | _ => mkVec3 (flit 0) (flit 0) (flit 0)
    end.

(** ** OpenImageIO: regions and image buffers *)

Record ROI := mkROI { xbegin : Z; xend : Z; ybegin : Z; yend : Z }.

Definition width (roi : ROI) : Z := Int.sub (xend roi) (xbegin roi).
Definition height (roi : ROI) : Z := Int.sub (yend roi) (ybegin roi).

(** A pixel is the list of its channel values. *)
Abbreviation pixel := (list spec_float).

(** [ImageBuf]: the image dimensions, the channel count and the pixel
    store.  A buffer built from an [ImageSpec] starts zero-filled, so a
    coordinate absent from the store reads as zeros. *)
Record ImageBuf := mkImageBuf {
  ib_width : Z;
  ib_height : Z;
  ib_nchannels : nat;
  ib_pixels : gmap (Z * Z) pixel
}.

Definition ImageBuf_of_spec (w h : Z) (nch : nat) : ImageBuf :=
  mkImageBuf w h nch ∅.

Definition pixel_exists (ib : ImageBuf) (x y : Z) : bool :=
  (0 <=? x) && (x <? ib_width ib) && (0 <=? y) && (y <? ib_height ib).

Definition getpixel (ib : ImageBuf) (x y : Z) : pixel :=
  default (replicate (ib_nchannels ib) (S754_zero false)) (ib_pixels ib !! (x, y)).

(** [ImageBuf::setpixel]: writes the leading channels of an existing
    pixel, and does nothing at a coordinate outside the image. *)
Definition setpixel (ib : ImageBuf) (x y : Z) (p : pixel) : ImageBuf :=
  if pixel_exists ib x y then
    mkImageBuf (ib_width ib) (ib_height ib) (ib_nchannels ib)
      (<[(x, y) := take (ib_nchannels ib) (p ++ drop (length p) (getpixel ib x y))]>
         (ib_pixels ib))
  else ib.

(** [ImageBufAlgo::fill]: every pixel of the region gets the values. *)
Definition fill (ib : ImageBuf) (values : pixel) (roi : ROI) : ImageBuf :=
  foldl (fun ib y =>
           foldl (fun ib x => setpixel ib x y values) ib
                 (seqZ (xbegin roi) (xend roi - xbegin roi)))
        ib (seqZ (ybegin roi) (yend roi - ybegin roi)).

(** The [blend] factor of row [y]. *)
Definition blend_of (roi : ROI) (y : Z) : spec_float :=
  F32.div (F32.of_int (Int.sub y (ybegin roi))) (F32.of_int (Int.sub (height roi) 1)).

Definition lerp (blend a b : spec_float) : spec_float :=
  F32.add (F32.mul (F32.sub (flit 1) blend) a) (F32.mul blend b).

(** The pixel value [{r, g, b, 1.0f}] written across row [y]. *)
Definition gradient_pixel (roi : ROI) (startcolor endcolor : Vec3) (y : Z) : pixel :=
  let blend := blend_of roi y in
  let r := lerp blend (vx startcolor) (vx endcolor) in
  let g := lerp blend (vy startcolor) (vy endcolor) in
  let b := lerp blend (vz startcolor) (vz endcolor) in
  [r; g; b; flit 1].

Definition draw_gradient (imagebuf : ImageBuf) (roi : ROI) (startcolor endcolor : Vec3)
  : ImageBuf :=
  foldl (fun ib y =>
           let px := gradient_pixel roi startcolor endcolor y in
           foldl (fun ib x => setpixel ib x y px) ib
                 (seqZ (xbegin roi) (xend roi - xbegin roi)))
        imagebuf (seqZ (ybegin roi) (yend roi - ybegin roi)).

(** ** [std::map<std::string, float>]

    An ordered map: the entries are kept sorted by key, and iteration
    visits them in that order. *)

Module StdMap.

Definition t := list (string * spec_float).

Definition empty : t := [].

(** [m[k] = v] *)
Fixpoint set (k : string) (v : spec_float) (m : t) : t :=
  match m with
  | [] => [(k, v)]
  | (k', v') :: m' =>
      match String.compare k k' with
      | Lt => (k, v) :: m
      | Eq => (k, v) :: m'
      | Gt => (k', v') :: set k v m'
      end
  end.

(** [m.find(k)], [None] standing for [m.end()]. *)
Fixpoint find (k : string) (m : t) : option spec_float :=
  match m with
  | [] => None
  | (k', v') :: m' => if String.eqb k k' then Some v' else find k m'
  end.

End StdMap.

(** ** prints *)

(** The two output streams, a list of lines each. *)
Record Streams := mkStreams { cout : list string; cerr : list string }.

Definition print_info (io : Streams) (param value : string) : Streams :=
  mkStreams (cout io ++ ["info: " +:+ param +:+ value]) (cerr io).

Definition print_warning (io : Streams) (param value : string) : Streams :=
  mkStreams (cout io ++ ["warning: " +:+ param +:+ value]) (cerr io).

Definition print_error (io : Streams) (param value : string) : Streams :=
  mkStreams (cout io) (cerr io ++ ["error: " +:+ param +:+ value]).

Definition print_cout (io : Streams) (line : string) : Streams :=
  mkStreams (cout io ++ [line]) (cerr io).

Definition print_cerr (io : Streams) (line : string) : Streams :=
  mkStreams (cout io) (cerr io ++ [line]).

(** ** title tool *)

Record TitleTool := mkTitleTool {
  help : bool;
  verbose : bool;
  title : string;
  subtitle : string;
  outputfile : string;
  gradient : string;
  background : Vec3;
  color : Vec3;
  size : Vec2i;
  debug : bool;
  code : Z
}.

Definition EXIT_SUCCESS : Z := 0.
Definition EXIT_FAILURE : Z := 1.

(** The argument callbacks: each stores its argument in the tool. *)
Definition set_title (tool : TitleTool) (arg : string) : TitleTool :=
  mkTitleTool (help tool) (verbose tool) arg (subtitle tool) (outputfile tool)
    (gradient tool) (background tool) (color tool) (size tool) (debug tool) (code tool).

Definition set_subtitle (tool : TitleTool) (arg : string) : TitleTool :=
  mkTitleTool (help tool) (verbose tool) (title tool) arg (outputfile tool)
    (gradient tool) (background tool) (color tool) (size tool) (debug tool) (code tool).


Definition set_outputfile (tool : TitleTool) (arg : string) : TitleTool :=
  mkTitleTool (help tool) (verbose tool) (title tool) (subtitle tool) arg
    (gradient tool) (background tool) (color tool) (size tool) (debug tool) (code tool).

(** ** [std::istringstream]

    The characters not yet read and the two state bits that [set_size]
    can observe.  [good()] is no bit set; [fail()] is [failbit]. *)
Record istringstream := mkIss { iss_buf : string; eofbit : bool; failbit : bool }.

Definition iss_of (s : string) : istringstream := mkIss s false false.

Definition good (iss : istringstream) : bool := negb (eofbit iss) && negb (failbit iss).

Definition fail (iss : istringstream) : bool := failbit iss.

(** Leading white space, as [std::isspace] sees it in the C locale. *)
Fixpoint skipws (s : string) : string :=
  match s with
  | String c s' => if Ascii.is_space c then skipws s' else s
  | EmptyString => s
  end.

(** The sentry of an input operation.  On a stream that is not good it
    sets [failbit] and the operation does nothing; a formatted operation
    first skips white space, and running out of characters there sets
    [eofbit] and [failbit]. *)
Definition sentry (noskipws : bool) (iss : istringstream) : istringstream * bool :=
  if good iss then
    if noskipws then (iss, true)
    else
      match skipws (iss_buf iss) with
      | EmptyString => (mkIss EmptyString true true, false)
      | rest => (mkIss rest false false, true)
      end
  else (mkIss (iss_buf iss) (eofbit iss) true, false).

(** The run of decimal digits at the front of [s], accumulated on
    [acc], and what follows it. *)
Fixpoint digits (acc : Z) (s : string) : Z * string :=
  match s with
  | String c s' =>
      match Ascii.is_nat c with
      | Some d => digits (10 * acc + Z.of_nat d) s'
      | None => (acc, s)
      end
  | EmptyString => (acc, s)
  end.

Definition starts_with_digit (s : string) : bool :=
  match s with
  | String c _ => bool_decide (is_Some (Ascii.is_nat c))
  | EmptyString => false
  end.

(** [iss >> n] for an [int n]: an optional sign, then decimal digits.
    Without a digit the extraction fails and stores 0; a number outside
    [int] fails and stores the nearest limit; reaching the end of the
    characters sets [eofbit].  When the sentry refuses, [n] keeps its
    value [old]. *)
Definition extract_int (iss : istringstream) (old : Z) : istringstream * Z :=
  let '(iss, ok) := sentry false iss in
  if ok then
    let '(negative, s1) :=
      match iss_buf iss with
      | String "-" s => (true, s)
      | String "+" s => (false, s)
      | s => (false, s)
      end in
    let '(n, s2) := digits 0 s1 in
    let eof := bool_decide (s2 = EmptyString) in
    if starts_with_digit s1 then
      let z := if negative then - n else n in
      if z <? Int.INT_MIN then (mkIss s2 eof true, Int.INT_MIN)
      else if Int.INT_MAX <? z then (mkIss s2 eof true, Int.INT_MAX)
      else (mkIss s2 eof false, z)
    else (mkIss s2 eof true, 0)
  else (iss, old).

(** [iss.ignore()]: one character is extracted and dropped. *)
Definition ignore (iss : istringstream) : istringstream :=
  let '(iss, ok) := sentry true iss in
  if ok then
    match iss_buf iss with
    | String _ s => mkIss s (eofbit iss) (failbit iss)
    | EmptyString => mkIss EmptyString true (failbit iss)
    end
  else iss.

(** The tool after [tool.size.x] and [tool.size.y] were assigned. *)
Definition with_size (tool : TitleTool) (x y : Z) : TitleTool :=
  mkTitleTool (help tool) (verbose tool) (title tool) (subtitle tool) (outputfile tool)
    (gradient tool) (background tool) (color tool) (mkVec2i x y) (debug tool) (code tool).

(** --size: the callback's effect on the tool and on the streams, and
    its return value. *)
Definition set_size (tool : TitleTool) (io : Streams) (arg : string)
  : TitleTool * Streams * Z :=
  let iss := iss_of arg in
  let '(iss, x) := extract_int iss (ix (size tool)) in
  let iss := ignore iss in (* Ignore the comma *)
  let '(iss, y) := extract_int iss (iy (size tool)) in
  let tool := with_size tool x y in
  if fail iss then (tool, print_error io "could not parse size from string: " arg, 1)
  else (tool, io, 0).

(** ** The OpenImageIO interface *)

Inductive TextAlignX := AlignX_Left | AlignX_Right | AlignX_Center.
Inductive TextAlignY := AlignY_Baseline | AlignY_Top | AlignY_Bottom | AlignY_Center.

Class OIIO := {
  (** [ImageBufAlgo::text_size(text, fontsize, font)] *)
  text_size : string -> Z -> string -> ROI;
  (** [ImageBufAlgo::render_text(buf, x, y, text, fontsize, font, color, alignx, aligny)] *)
  render_text : ImageBuf -> Z -> Z -> string -> Z -> string -> pixel ->
                TextAlignX -> TextAlignY -> ImageBuf;
  (** [ImageBuf::write(file)]: [None] when the file was written, and the
      text of [geterror()] when it was not. *)
  write : ImageBuf -> string -> option string;
  (** [Filesystem::parent_path(Sysutil::this_program_path())] *)
  program_dir : string;
  (** What [ArgParse::print_help] and [ArgParse::briefusage] print. *)
  help_lines : list string;
  briefusage_lines : list string
}.

(** What a run leaves behind: the two streams, the image buffer as it
    stood when the run ended ([None] when none was built), the file
    the writer produced, and the exit status. *)
Record Run := mkRun {
  streams : Streams;
  canvas : option ImageBuf;
  written : option (string * ImageBuf);
  status : Z
}.

Definition nl : string := String "010"%char "".

(** The [double] literals of the source. *)
Definition d1_0 : spec_float := double_lit 1 1.
Definition d0_9 : spec_float := double_lit 9 10.
Definition d0_8 : spec_float := double_lit 8 10.
Definition d0_5 : spec_float := double_lit 5 10.
Definition d0_2 : spec_float := double_lit 2 10.
Definition d0_1 : spec_float := double_lit 1 10.
Definition d0_08 : spec_float := double_lit 8 100.
Definition d0_04 : spec_float := double_lit 4 100.
Definition d0_02 : spec_float := double_lit 2 100.

(** [int n = height * ratio]: the product is taken in [double] and
    truncated. *)
Definition scaled (height : Z) (ratio : spec_float) : Z :=
  F64.to_int (F64.mul (F64.of_int height) ratio).

(** The block under [// center], as a function of the two measured
    heights: [(titley, subtitley)]. *)
Definition center_text (titleheight subtitleheight spacing center : Z) : Z * Z :=
  let textheight := Int.add (Int.add titleheight spacing) subtitleheight in
  let titley := Int.sub center (Int.div textheight 2) in
  let subtitley := Int.add (Int.add titley titleheight) spacing in
  (titley, subtitley).

(** The table built under [// background]. *)
Definition hues : StdMap.t :=
  StdMap.set "rose" (flit 330)
  (StdMap.set "magenta" (flit 300)
  (StdMap.set "violet" (flit 270)
  (StdMap.set "blue" (flit 240)
  (StdMap.set "azure" (flit 210)
  (StdMap.set "cyan" (flit 180)
  (StdMap.set "green" (flit 120)
  (StdMap.set "yellow" (flit 60)
  (StdMap.set "orange" (flit 30)
  (StdMap.set "red" (flit 360) StdMap.empty))))))))).

(** The loop that joins the keys of the table with [", "]. *)
Definition join_options (m : StdMap.t) : string :=
  foldl (fun options pair =>
           (if (0 <? String.length options)%nat then options +:+ ", " else options)
           +:+ pair.1)
        "" m.

(** The first gradient endpoint, [Vec3<float>(hue, 1.0, 0.5)], and the
    second, [Vec3<float>(hue, 0.5, 0.8)]. *)
Definition start_hsv (hue : spec_float) : Vec3 :=
  mkVec3 hue (F32.of_float d1_0) (F32.of_float d0_5).
Definition end_hsv (hue : spec_float) : Vec3 :=
  mkVec3 hue (F32.of_float d0_5) (F32.of_float d0_8).

(** The pixel [{ v.x, v.y, v.z, 1.0f }]. *)
Definition opaque (v : Vec3) : pixel := [vx v; vy v; vz v; flit 1].

Module TitleTool.
Section Main.
Context `{E : OIIO}.

(** utils - filesystem *)
Definition font_path (font : string) : string :=
  program_dir +:+ "/fonts/" +:+ font.

Definition font : string := "Roboto.ttf".

(** The block under [// background], followed by the flat fill.  The
    local [a] is computed and never used, as in the source. *)
Definition draw_background (tool : TitleTool) (roi : ROI) (io : Streams) (imagebuf : ImageBuf)
  : Streams * ImageBuf :=
  let '(found, io, imagebuf) :=
    if (0 <? String.length (gradient tool))%nat then
      let io := print_info io "tool.gradient: " (gradient tool) in
      match StdMap.find (gradient tool) hues with
      | Some hue =>
          let a := rgb_from_hsv (mkVec3 hue (F32.of_float d0_9) (F32.of_float d0_5)) in
          (true, io,
           draw_gradient imagebuf roi
             (rgb_from_hsv (start_hsv hue)) (rgb_from_hsv (end_hsv hue)))
      | None =>
          let io := print_warning io "could not find hue for gradient: " (gradient tool) in
          let io := print_warning io "available options are: " (join_options hues) in
          (false, io, imagebuf)
      end
    else (false, io, imagebuf) in
  if negb found then (io, fill imagebuf (opaque (background tool)) roi)
  else (io, imagebuf).

(** The block under [// center]. *)
Definition measure_and_center (tool : TitleTool) (titlesize subtitlesize spacing center : Z)
  : Z * Z :=
  let titleroi := text_size (title tool) titlesize (font_path font) in
  let subtitleroi := text_size (title tool) subtitlesize (font_path font) in
  center_text (height titleroi) (height subtitleroi) spacing center.

(** The part of [main] under [// titletool program]. *)
Definition titletool_program (tool : TitleTool) (io : Streams) : Run :=
  let io := print_info io "titletool -- a utility for creating title images" "" in
  let io := print_info io "Writing title file: " (outputfile tool) in
  let imagebuf := ImageBuf_of_spec (ix (size tool)) (iy (size tool)) 4 in
  (* title *)
  let roi := mkROI 0 (ix (size tool)) 0 (iy (size tool)) in
  let height := height roi in
  let titlesize := scaled height d0_2 in
  let subtitlesize := scaled height d0_1 in
  let center := Int.add (ybegin roi) (Int.div height 2) in
  let spacing := scaled height d0_08 in
  (* background *)
  let '(io, imagebuf) := draw_background tool roi io imagebuf in
  (* center *)
  let '(titley, subtitley) :=
    measure_and_center tool titlesize subtitlesize spacing center in
  (* title *)
  let imagebuf :=
    render_text imagebuf (Int.add (xbegin roi) (Int.div (width roi) 2)) titley
      (title tool) titlesize (font_path font) (opaque (color tool))
      AlignX_Center AlignY_Top in
  (* subtitle *)
  let imagebuf :=
    render_text imagebuf (Int.add (xbegin roi) (Int.div (width roi) 2)) subtitley
      (subtitle tool) subtitlesize (font_path font) (opaque (color tool))
      AlignX_Center AlignY_Top in
  match write imagebuf (outputfile tool) with
  | Some e =>
      mkRun (print_error io "could not write output file" e) (Some imagebuf) None 0
  | None =>
      mkRun io (Some imagebuf) (Some (outputfile tool, imagebuf)) 0
  end.

(** [main], from the return of [ArgParse::parse_args] on: [parse_error]
    is the parser's message when it failed, and [tool] is the global as
    the argument callbacks left it. *)
Definition main (argc : Z) (parse_error : option string) (tool : TitleTool) : Run :=
  let io := mkStreams [] [] in
  match parse_error with
  | Some e =>
      let io := print_error io e "" in
      mkRun (mkStreams (cout io ++ help_lines) (cerr io)) None None EXIT_FAILURE
  | None =>
  if help tool then
    mkRun (mkStreams (cout io ++ help_lines) (cerr io)) None None EXIT_SUCCESS
  else if (String.length (outputfile tool) =? 0)%nat then
    let io := print_error io "must have output file parameter" "" in
    mkRun (mkStreams (cout io ++ briefusage_lines) (cerr io)) None None EXIT_FAILURE
  else if argc <=? 1 then
    let io := mkStreams (cout io ++ briefusage_lines) (cerr io) in
    let io := print_error io (nl +:+ "For detailed help: titletool --help" +:+ nl) "" in
    mkRun io None None EXIT_FAILURE
  else titletool_program tool io
  end.

End Main.
End TitleTool.

(** The variant of the tool without gradients.  Its struct has no
    [gradient] member; the model shares the record and never reads the
    field. *)
Module PlainTool.
Section Main.
Context `{E : OIIO}.

Definition font : string := "../Roboto.ttf".

(** The block under [// center]. *)
Definition measure_and_center (tool : TitleTool) (titlesize subtitlesize spacing center : Z)
  : Z * Z :=
  let titleroi := text_size (title tool) titlesize font in
  let subtitleroi := text_size (title tool) titlesize font in
  center_text (height titleroi) (height subtitleroi) spacing center.

(** The part of [main] under [// titletool program]. *)
Definition titletool_program (tool : TitleTool) (io : Streams) : Run :=
  let io := print_cout io "titletool -- a utility for creating title images" in
  let io := print_info io "Writing title file: " (outputfile tool) in
  let imagebuf := ImageBuf_of_spec (ix (size tool)) (iy (size tool)) 4 in
  (* title *)
  let roi := mkROI 0 (ix (size tool)) 0 (iy (size tool)) in
  let height := height roi in
  let titlesize := scaled height d0_08 in
  let subtitlesize := scaled height d0_04 in
  let center := Int.add (ybegin roi) (Int.div height 2) in
  let spacing := scaled height d0_02 in
  (* background *)
  let imagebuf := fill imagebuf (opaque (background tool)) roi in
  (* center *)
  let '(titley, subtitley) :=
    measure_and_center tool titlesize subtitlesize spacing center in
  (* title *)
  let imagebuf :=
    render_text imagebuf (Int.add (xbegin roi) (Int.div (width roi) 2)) titley
      (title tool) titlesize font (opaque (color tool))
      AlignX_Center AlignY_Top in
  (* subtitle *)
  let imagebuf :=
    render_text imagebuf (Int.add (xbegin roi) (Int.div (width roi) 2)) subtitley
      (subtitle tool) subtitlesize font (opaque (color tool))
      AlignX_Center AlignY_Top in
  match write imagebuf (outputfile tool) with
  | Some e =>
      mkRun (print_error io "could not write output file" e) (Some imagebuf) None 0
  | None =>
      mkRun io (Some imagebuf) (Some (outputfile tool, imagebuf)) 0
  end.

Definition main (argc : Z) (parse_error : option string) (tool : TitleTool) : Run :=
  let io := mkStreams [] [] in
  match parse_error with
  | Some e =>
      let io := print_cerr io ("error: " +:+ e) in
      mkRun (mkStreams (cout io ++ help_lines) (cerr io)) None None EXIT_FAILURE
  | None =>
  if help tool then
    mkRun (mkStreams (cout io ++ help_lines) (cerr io)) None None EXIT_SUCCESS
  else if (String.length (outputfile tool) =? 0)%nat then
    let io := print_cerr io "error: must have output file parameter" in
    mkRun (mkStreams (cout io ++ briefusage_lines) (cerr io)) None None EXIT_FAILURE
  else if argc <=? 1 then
    let io := mkStreams (cout io ++ briefusage_lines) (cerr io) in
    let io := print_cout io (nl +:+ "For detailed help: titletool --help") in
    mkRun io None None EXIT_FAILURE
  else titletool_program tool io
  end.

End Main.
End PlainTool.

(** ** A stand-in for OpenImageIO, for running the model

    A monospaced font whose glyphs are as tall as the font size, a
    renderer that marks the anchor pixel, and a writer that fails on
    paths under [/nonexistent/]. *)

Module Fixture.

Definition fx_text_size (text : string) (fontsize : Z) (font : string) : ROI :=
  mkROI 0 (fontsize * Z.of_nat (String.length text))
        0 (if (String.length text =? 0)%nat then 0 else fontsize).

Definition fx_render_text (ib : ImageBuf) (x y : Z) (text : string) (fontsize : Z)
    (font : string) (color : pixel) (ax : TextAlignX) (ay : TextAlignY) : ImageBuf :=
  if (String.length text =? 0)%nat then ib else setpixel ib x y color.

Definition fx_write (ib : ImageBuf) (file : string) : option string :=
  if String.prefix "/nonexistent/" file
  then Some (": could not open " +:+ file) else None.

#[export] Instance oiio : OIIO := {|
  text_size := fx_text_size;
  render_text := fx_render_text;
  write := fx_write;
  program_dir := "/usr/local/bin";
  help_lines := ["titletool -- a utility for creating title images"];
  briefusage_lines := ["Usage: titletool [options] ..."]
|}.

Definition black : Vec3 := mkVec3 (flit 0) (flit 0) (flit 0).
Definition white : Vec3 := mkVec3 (flit 1) (flit 1) (flit 1).

Definition tool (title subtitle outputfile gradient : string) (w h : Z) : TitleTool :=
  mkTitleTool false false title subtitle outputfile gradient black white
              (mkVec2i w h) false EXIT_SUCCESS.

End Fixture.

(** * Definitions for the properties *)

(** ** Reference values and tables *)

(** The [float] values of the literals [1.0], [0.5] and [0.8]; the last
    is the binary32 number nearest to eight tenths. *)
Definition f1_0 : spec_float := S754_finite false 8388608 (-23).
Definition f0_5 : spec_float := S754_finite false 8388608 (-24).
Definition f0_8 : spec_float := S754_finite false 13421773 (-24).

(** The table as the specification lists it: ten names with their
    degrees, matched exactly. *)
Definition hue_table : list (string * Z) :=
  [("red", 360); ("orange", 30); ("yellow", 60); ("green", 120); ("cyan", 180);
   ("azure", 210); ("blue", 240); ("violet", 270); ("magenta", 300); ("rose", 330)].

Definition hue_lookup (name : string) : option Z :=
  snd <$> List.find (fun entry => String.eqb name (fst entry)) hue_table.

(** Painting a region row by row, the value of row [y] being [g y]:
    the shape shared by [fill] and [draw_gradient]. *)
Definition paint (ib : ImageBuf) (roi : ROI) (g : Z -> pixel) : ImageBuf :=
  foldl (fun ib y =>
           foldl (fun ib x => setpixel ib x y (g y)) ib
                 (seqZ (xbegin roi) (xend roi - xbegin roi)))
        ib (seqZ (ybegin roi) (yend roi - ybegin roi)).

(** The image buffer that the program block of the gradient variant
    hands to the writer. *)
Definition composed `{E : OIIO} (tool : TitleTool) : ImageBuf :=
  let roi := mkROI 0 (ix (size tool)) 0 (iy (size tool)) in
  let layout :=
    TitleTool.measure_and_center tool (scaled (height roi) d0_2) (scaled (height roi) d0_1)
      (scaled (height roi) d0_08) (Int.add (ybegin roi) (Int.div (height roi) 2)) in
  render_text
    (render_text
       (snd (TitleTool.draw_background tool roi (mkStreams [] [])
               (ImageBuf_of_spec (ix (size tool)) (iy (size tool)) 4)))
       (Int.add (xbegin roi) (Int.div (width roi) 2)) (fst layout)
       (title tool) (scaled (height roi) d0_2) (TitleTool.font_path TitleTool.font)
       (opaque (color tool)) AlignX_Center AlignY_Top)
    (Int.add (xbegin roi) (Int.div (width roi) 2)) (snd layout)
    (subtitle tool) (scaled (height roi) d0_1) (TitleTool.font_path TitleTool.font)
    (opaque (color tool)) AlignX_Center AlignY_Top.

(** The same for the plain variant. *)
Definition composed_plain `{E : OIIO} (tool : TitleTool) : ImageBuf :=
  let roi := mkROI 0 (ix (size tool)) 0 (iy (size tool)) in
  let layout :=
    PlainTool.measure_and_center tool (scaled (height roi) d0_08) (scaled (height roi) d0_04)
      (scaled (height roi) d0_02) (Int.add (ybegin roi) (Int.div (height roi) 2)) in
  render_text
    (render_text
       (fill (ImageBuf_of_spec (ix (size tool)) (iy (size tool)) 4)
             (opaque (background tool)) roi)
       (Int.add (xbegin roi) (Int.div (width roi) 2)) (fst layout)
       (title tool) (scaled (height roi) d0_08) PlainTool.font
       (opaque (color tool)) AlignX_Center AlignY_Top)
    (Int.add (xbegin roi) (Int.div (width roi) 2)) (snd layout)
    (subtitle tool) (scaled (height roi) d0_04) PlainTool.font
    (opaque (color tool)) AlignX_Center AlignY_Top.

(** ** The intermediate values of [rgb_from_hsv] *)

Definition hsv_hue (hue : spec_float) : spec_float :=
  if F32.ge hue (flit 360) then flit 0 else hue.

Definition hsv_hi (hue : spec_float) : Z :=
  Int.rem (F32.to_int (F32.floor (F32.div hue (flit 60)))) 6.

Definition hsv_f (hue : spec_float) : spec_float :=
  F32.sub (F32.div hue (flit 60)) (F32.of_int (hsv_hi hue)).

Definition hsv_p (saturation value : spec_float) : spec_float :=
  F32.mul value (F32.sub (flit 1) saturation).

Definition hsv_q (hue saturation value : spec_float) : spec_float :=
  F32.mul value (F32.sub (flit 1) (F32.mul (hsv_f hue) saturation)).

Definition hsv_t (hue saturation value : spec_float) : spec_float :=
  F32.mul value (F32.sub (flit 1) (F32.mul (F32.sub (flit 1) (hsv_f hue)) saturation)).

(** The integer part of a float, as a mathematical integer. *)
Definition floorZ (x : spec_float) : Z :=
  match x with
  | S754_finite s m e => Zfloor s m e
  | _ => 0
  end.

(** The conversion as the specification defines it: the sector is the
    integer part of [hue/60] modulo 6, and the result is the entry of
    the six-sector table at that index. *)
Definition hsv_reference (hsv : Vec3) : Vec3 :=
  let hue := if F32.ge (vx hsv) (flit 360) then flit 0 else vx hsv in
  let saturation := vy hsv in
  let value := vz hsv in
  if F32.lt value FLT_EPSILON then mkVec3 (flit 0) (flit 0) (flit 0)
  else if F32.lt saturation FLT_EPSILON then mkVec3 value value value
  else
    let hi := floorZ (F32.div hue (flit 60)) mod 6 in
    let f := F32.sub (F32.div hue (flit 60)) (F32.of_int hi) in
    let p := F32.mul value (F32.sub (flit 1) saturation) in
    let q := F32.mul value (F32.sub (flit 1) (F32.mul f saturation)) in
    let t := F32.mul value (F32.sub (flit 1) (F32.mul (F32.sub (flit 1) f) saturation)) in
    nth (Z.to_nat hi)
        [mkVec3 value t p; mkVec3 q value p; mkVec3 p value t;
         mkVec3 p q value; mkVec3 t p value; mkVec3 value p q]
        (mkVec3 (flit 0) (flit 0) (flit 0)).

(** ** Ranges and comparisons of [float] values *)

(** [x] lies between zero and [hi]. *)
Definition within (hi x : spec_float) : Prop :=
  F32.ge x (flit 0) = true /\ F32.ge hi x = true.

Definition unit_interval (x : spec_float) : Prop := within (flit 1) x.

(** [==] on [float]. *)
Definition feq (a b : spec_float) : Prop := SFeqb a b = true.

Definition pixel_eq (p q : pixel) : Prop := Forall2 feq p q.

(** ** The real numbers behind the floats *)

Definition bpow (e : Z) : R := powerRZ 2 e.

(** How the two bits of a record describe the discarded fraction. *)
Definition loc_ok (frac : R) (r s : bool) : Prop :=
  match r, s with
  | false, false => frac = 0%R
  | false, true => (0 < frac < / 2)%R
  | true, false => frac = (/ 2)%R
  | true, true => (/ 2 < frac < 1)%R
  end.

(** The record [mrs] stands for the real [x]: its mantissa is the integer
    part, and its two bits locate the rest. *)
Definition approx (x : R) (mrs : shr_record) : Prop :=
  0 <= shr_m mrs /\ loc_ok (x - IZR (shr_m mrs)) (shr_r mrs) (shr_s mrs).

(** The magnitude of a float. *)
Definition Fmag (f : spec_float) : R :=
  match f with
  | S754_finite _ m e => (IZR (Zpos m) * bpow e)%R
  | _ => 0%R
  end.

Definition is_finite (f : spec_float) : bool :=
  match f with
  | S754_zero _ | S754_finite _ _ _ => true
  | _ => false
  end.

(** A zero of either sign or a positive finite number. *)
Definition is_nonneg (f : spec_float) : bool :=
  match f with
  | S754_zero _ => true
  | S754_finite s _ _ => negb s
  | _ => false
  end.

(** The notions that depend on the format: [prec] bits of mantissa and
    exponents below [emax]. *)
Module Fmt.
Section Defs.
Variables prec emax : Z.

(** The non-negative reals of the format: an integer below [2^prec]
    scaled by a power of two not below [emin]. *)
Definition Rep (y : R) : Prop :=
  exists my ey : Z, y = (IZR my * bpow ey)%R /\ 0 <= my < 2 ^ prec /\ SpecFloat.emin prec emax <= ey.

(** [r] is a nearest element of the format to [x]. *)
Definition Rnd (x r : R) : Prop :=
  Rep r /\ forall y, Rep y -> (Rabs (r - x) <= Rabs (y - x))%R.

(** How a float stands for the magnitude [r] under the sign [s]. *)
Definition Encodes (s : bool) (r : R) (f : spec_float) : Prop :=
  match f with
  | S754_zero s' => s' = s /\ r = 0%R
  | S754_finite s' m e =>
      s' = s /\ bounded prec emax m e = true /\ r = (IZR (Zpos m) * bpow e)%R
  | S754_infinity s' => s' = s /\ (bpow emax <= r)%R
  | S754_nan => False
  end.

(** A valid float that is a zero or a positive finite number. *)
Definition Good (f : spec_float) : Prop :=
  valid_binary prec emax f = true /\ is_nonneg f = true.

(** [f] is what rounding the non-negative real [x] gives: a good float
    whose magnitude is nearest to [x], or the positive infinity when
    the nearest element of the format is out of range. *)
Definition Rounds (x : R) (f : spec_float) : Prop :=
  exists r, Rnd x r /\
    match f with
    | S754_zero _ => r = 0%R
    | S754_finite false m e => bounded prec emax m e = true /\ r = (IZR (Zpos m) * bpow e)%R
    | S754_infinity false => (bpow emax <= r)%R
    | _ => False
    end.

End Defs.
End Fmt.

Abbreviation Good32 := (Fmt.Good F32.prec F32.emax).
Abbreviation Rep32 := (Fmt.Rep F32.prec F32.emax).
Abbreviation Rnd32 := (Fmt.Rnd F32.prec F32.emax).
Abbreviation Rounds32 := (Fmt.Rounds F32.prec F32.emax).

(** Values between zero and one. *)
Definition U01 (x : spec_float) : Prop := Good32 x /\ (Fmag x <= 1)%R.

(** A valid float that is neither a NaN nor an infinity. *)
Definition finite_valid (x : spec_float) : Prop :=
  valid_binary F32.prec F32.emax x = true /\ is_finite x = true.

Definition finite_color (c : Vec3) : Prop :=
  finite_valid (vx c) /\ finite_valid (vy c) /\ finite_valid (vz c).

(** ** Runs, maps, strings and the binary64 format *)

(** A run that ended before an image was built. *)
Definition early_exit (run : Run) (code : Z) : Prop :=
  status run = code /\ canvas run = None /\ written run = None.

(** The keys of a map are strictly increasing. *)
Definition keys_sorted (m : StdMap.t) : Prop :=
  Sorted (fun a b => String.compare a b = Lt) (map fst m).

(** A string of white space only. *)
Fixpoint all_space (s : string) : bool :=
  match s with
  | String c s' => Ascii.is_space c && all_space s'
  | EmptyString => true
  end.

Abbreviation Good64 := (Fmt.Good F64.prec F64.emax).
Abbreviation Rep64 := (Fmt.Rep F64.prec F64.emax).

(** * Properties *)

(** ** Integer arithmetic without overflow *)

Ltac int_range :=
  unfold Int.in_range, Int.INT_MIN, Int.INT_MAX in *;
  change (2 ^ 31) with 2147483648 in *; lia.

(** Range conditions on closed terms. *)
Ltac closed_range := vm_compute; split; discriminate.

Lemma wrap_in_range (z : Z) : Int.in_range z -> Int.wrap z = z.
Proof.
  unfold Int.in_range, Int.wrap, Int.INT_MIN, Int.INT_MAX. intros Hz.
  rewrite Z.mod_small; lia.
Qed.

Lemma quot_2_floor (z : Z) : 0 <= z -> Z.quot z 2 = z / 2.
Proof. intros Hz. apply Z.quot_div_nonneg; lia. Qed.

(** ** Text layout *)

Section Layout.
Variables ht hs spacing centerY : Z.
Hypothesis ht_nonneg : 0 <= ht.
Hypothesis hs_nonneg : 0 <= hs.
Hypothesis spacing_nonneg : 0 <= spacing.
(** No [int] operation of the block overflows. *)
Hypothesis total_range : Int.in_range (ht + spacing + hs).
Hypothesis titley_range : Int.in_range (centerY - (ht + spacing + hs) / 2).
Hypothesis subtitley_range :
  Int.in_range (centerY - (ht + spacing + hs) / 2 + ht + spacing).

(** C1: the title's top edge is the center minus half of the block
    height, the half taken by flooring division, and the subtitle's top
    edge lies one title height and one spacing below it.  The heights
    and the spacing are those of a run (non-negative), and no [int]
    operation overflows. *)
Theorem center_text_spec :
  center_text ht hs spacing centerY
  = (centerY - (ht + spacing + hs) / 2,
     centerY - (ht + spacing + hs) / 2 + ht + spacing).
Proof.
  unfold Int.in_range, Int.INT_MIN, Int.INT_MAX in *.
  assert (0 <= (ht + spacing + hs) / 2 <= ht + spacing + hs).
  { split; [apply Z.div_pos; lia|]. apply Z.div_le_upper_bound; lia. }
  unfold center_text, Int.add, Int.sub, Int.div.
  rewrite (wrap_in_range (ht + spacing)) by (unfold Int.in_range, Int.INT_MIN, Int.INT_MAX; lia).
  rewrite (wrap_in_range (ht + spacing + hs)) by (unfold Int.in_range, Int.INT_MIN, Int.INT_MAX; lia).
  rewrite quot_2_floor by lia.
  rewrite (wrap_in_range ((ht + spacing + hs) / 2)) by (unfold Int.in_range, Int.INT_MIN, Int.INT_MAX; lia).
  rewrite (wrap_in_range (centerY - _)) by (unfold Int.in_range, Int.INT_MIN, Int.INT_MAX; lia).
  rewrite (wrap_in_range (centerY - _ + ht)) by (unfold Int.in_range, Int.INT_MIN, Int.INT_MAX; lia).
  rewrite (wrap_in_range (centerY - _ + ht + spacing)) by (unfold Int.in_range, Int.INT_MIN, Int.INT_MAX; lia).
  reflexivity.
Qed.

End Layout.

(** The layout example of the specification: heights 100 and 50,
    spacing 20, center 500. *)
Lemma center_text_spec_witness :
  center_text 100 50 20 500 = (415, 535).
Proof.
  rewrite (center_text_spec 100 50 20 500);
    [reflexivity | try lia; closed_range ..].
Defined.

(** ** Pixel stores *)

Lemma setpixel_dims (ib : ImageBuf) (x y : Z) (p : pixel) :
  ib_width (setpixel ib x y p) = ib_width ib
  /\ ib_height (setpixel ib x y p) = ib_height ib
  /\ ib_nchannels (setpixel ib x y p) = ib_nchannels ib.
Proof. unfold setpixel. destruct (pixel_exists ib x y); auto. Qed.

Lemma pixel_exists_setpixel (ib : ImageBuf) (x y x' y' : Z) (p : pixel) :
  pixel_exists (setpixel ib x y p) x' y' = pixel_exists ib x' y'.
Proof.
  unfold pixel_exists. destruct (setpixel_dims ib x y p) as (-> & -> & _). reflexivity.
Qed.

Lemma getpixel_setpixel_other (ib : ImageBuf) (x y x' y' : Z) (p : pixel) :
  (x, y) <> (x', y') -> getpixel (setpixel ib x y p) x' y' = getpixel ib x' y'.
Proof.
  intros Hne. unfold setpixel. destruct (pixel_exists ib x y); [|reflexivity].
  unfold getpixel; simpl. rewrite lookup_insert_ne by exact Hne. reflexivity.
Qed.

Lemma getpixel_setpixel_same (ib : ImageBuf) (x y : Z) (p : pixel) :
  pixel_exists ib x y = true -> length p = ib_nchannels ib ->
  getpixel (setpixel ib x y p) x y = p.
Proof.
  intros Hex Hlen. unfold setpixel. rewrite Hex.
  unfold getpixel at 1; simpl. rewrite lookup_insert_eq; simpl.
  rewrite <- Hlen. apply take_app_length.
Qed.

Lemma fill_paint ib values roi : fill ib values roi = paint ib roi (fun _ => values).
Proof. reflexivity. Qed.

Lemma draw_gradient_paint ib roi s e :
  draw_gradient ib roi s e = paint ib roi (gradient_pixel roi s e).
Proof. reflexivity. Qed.

Lemma row_exists (xs : list Z) (y : Z) (p : pixel) (ib : ImageBuf) (x' y' : Z) :
  pixel_exists (foldl (fun ib x => setpixel ib x y p) ib xs) x' y' = pixel_exists ib x' y'.
Proof.
  revert ib. induction xs as [|x xs IH]; intros ib; simpl; [reflexivity|].
  rewrite IH. apply pixel_exists_setpixel.
Qed.

Lemma row_nchannels (xs : list Z) (y : Z) (p : pixel) (ib : ImageBuf) :
  ib_nchannels (foldl (fun ib x => setpixel ib x y p) ib xs) = ib_nchannels ib.
Proof.
  revert ib. induction xs as [|x xs IH]; intros ib; simpl; [reflexivity|].
  rewrite IH. apply setpixel_dims.
Qed.

Lemma row_other (xs : list Z) (y : Z) (p : pixel) (ib : ImageBuf) (x' y' : Z) :
  y <> y' \/ x' ∉ xs ->
  getpixel (foldl (fun ib x => setpixel ib x y p) ib xs) x' y' = getpixel ib x' y'.
Proof.
  revert ib. induction xs as [|x xs IH]; intros ib Hout; simpl; [reflexivity|].
  rewrite IH.
  - apply getpixel_setpixel_other. intros [= -> ->].
    destruct Hout as [Hy|Hx]; [congruence|]. apply Hx. left.
  - destruct Hout as [Hy|Hx]; [left; exact Hy|right]. intros Hin. apply Hx. now right.
Qed.

Lemma row_painted (xs : list Z) (y : Z) (p : pixel) (ib : ImageBuf) (x' : Z) :
  x' ∈ xs -> pixel_exists ib x' y = true -> length p = ib_nchannels ib ->
  getpixel (foldl (fun ib x => setpixel ib x y p) ib xs) x' y = p.
Proof.
  revert ib. induction xs as [|x xs IH]; intros ib Hin Hex Hlen; simpl.
  - inversion Hin.
  - destruct (decide (x' ∈ xs)) as [Hin'|Hnin].
    + apply IH; [exact Hin'| |].
      * rewrite pixel_exists_setpixel. exact Hex.
      * destruct (setpixel_dims ib x y p) as (_ & _ & ->). exact Hlen.
    + rewrite row_other by (right; exact Hnin).
      apply elem_of_cons in Hin as [->|Hin]; [|contradiction].
      apply getpixel_setpixel_same; assumption.
Qed.

(** Every pixel of the region that lies in the image reads back the
    value of its row. *)
Lemma paint_inside (ib : ImageBuf) (roi : ROI) (g : Z -> pixel) (x y : Z) :
  xbegin roi <= x < xend roi -> ybegin roi <= y < yend roi ->
  pixel_exists ib x y = true -> length (g y) = ib_nchannels ib ->
  getpixel (paint ib roi g) x y = g y.
Proof.
  intros Hx Hy. unfold paint.
  assert (Hyin : y ∈ seqZ (ybegin roi) (yend roi - ybegin roi)) by (apply elem_of_seqZ; lia).
  assert (Hxin : x ∈ seqZ (xbegin roi) (xend roi - xbegin roi)) by (apply elem_of_seqZ; lia).
  revert Hyin Hxin. generalize (seqZ (ybegin roi) (yend roi - ybegin roi)) as ys.
  generalize (seqZ (xbegin roi) (xend roi - xbegin roi)) as xs. intros xs ys.
  revert ib. induction ys as [|y0 ys IH]; intros ib Hyin Hxin Hex Hlen; simpl.
  - inversion Hyin.
  - destruct (decide (y ∈ ys)) as [Hin'|Hnin].
    + apply IH; [exact Hin'|exact Hxin| |].
      * rewrite row_exists. exact Hex.
      * rewrite row_nchannels. exact Hlen.
    + apply elem_of_cons in Hyin as [->|Hyin]; [|contradiction].
      assert (Hrest : forall ib', getpixel
                (foldl (fun ib y => foldl (fun ib x => setpixel ib x y (g y)) ib xs) ib' ys) x y0
              = getpixel ib' x y0).
      { clear IH Hex Hlen. induction ys as [|y1 ys IH']; intros ib'; simpl; [reflexivity|].
        rewrite IH' by (intros Hin; apply Hnin; now right).
        apply row_other. left. intros ->. apply Hnin. left. }
      rewrite Hrest. apply row_painted; assumption.
Qed.

(** Outside the region nothing changes. *)
Lemma paint_outside (ib : ImageBuf) (roi : ROI) (g : Z -> pixel) (x y : Z) :
  ~ (xbegin roi <= x < xend roi /\ ybegin roi <= y < yend roi) ->
  getpixel (paint ib roi g) x y = getpixel ib x y.
Proof.
  intros Hout. unfold paint.
  assert (Hnin : y ∉ seqZ (ybegin roi) (yend roi - ybegin roi)
                 \/ x ∉ seqZ (xbegin roi) (xend roi - xbegin roi)).
  { destruct (decide (ybegin roi <= y < yend roi)) as [Hy|Hy].
    - right. rewrite elem_of_seqZ. lia.
    - left. rewrite elem_of_seqZ. lia. }
  revert Hnin. generalize (seqZ (ybegin roi) (yend roi - ybegin roi)) as ys.
  generalize (seqZ (xbegin roi) (xend roi - xbegin roi)) as xs. intros xs ys.
  revert ib. induction ys as [|y0 ys IH]; intros ib Hnin; simpl; [reflexivity|].
  rewrite IH.
  - apply row_other. destruct Hnin as [Hy|Hx]; [left|right; exact Hx].
    intros ->. apply Hy. left.
  - destruct Hnin as [Hy|Hx]; [left|right; exact Hx]. intros Hin. apply Hy. now right.
Qed.

(** ** The writer's failure *)


(** Whatever the writer answers, the program block ends with status 0. *)
Lemma program_status `{E : OIIO} (tool : TitleTool) (io : Streams) :
  status (TitleTool.titletool_program tool io) = 0
  /\ status (PlainTool.titletool_program tool io) = 0.
Proof.
  unfold TitleTool.titletool_program, PlainTool.titletool_program. split.
  - destruct (TitleTool.draw_background _ _ _ _) as [io' ib].
    destruct (TitleTool.measure_and_center _ _ _ _ _) as [ty sy].
    destruct (write _ _); reflexivity.
  - destruct (PlainTool.measure_and_center _ _ _ _ _) as [ty sy].
    destruct (write _ _); reflexivity.
Qed.

(** C4: a run whose output path cannot be written.  The writer's message
    goes to the error stream, no file is produced, and both variants of
    the tool still end with [EXIT_SUCCESS]. *)
Theorem failed_write_exits_with_success :
  let tool := Fixture.tool "Hello, world!" "An image" "/nonexistent/title.png" "blue" 8 4 in
  let run := TitleTool.main (E := Fixture.oiio) 9 None tool in
  let run' := PlainTool.main (E := Fixture.oiio) 7 None tool in
  Fixture.fx_write (default (ImageBuf_of_spec 0 0 0) (canvas run)) (outputfile tool)
    = Some ": could not open /nonexistent/title.png"
  /\ cerr (streams run)
     = ["error: could not write output file: could not open /nonexistent/title.png"]
  /\ written run = None
  /\ status run = EXIT_SUCCESS
  /\ cerr (streams run') = cerr (streams run)
  /\ written run' = None
  /\ status run' = EXIT_SUCCESS.
Proof. vm_compute. repeat split; reflexivity. Qed.

(** ** What the layout measures *)

(** The subtitle string never reaches the measurement. *)
Lemma measure_ignores_subtitle `{E : OIIO} (tool tool' : TitleTool) (ts ss sp c : Z) :
  title tool = title tool' ->
  TitleTool.measure_and_center tool ts ss sp c = TitleTool.measure_and_center tool' ts ss sp c
  /\ PlainTool.measure_and_center tool ts ss sp c = PlainTool.measure_and_center tool' ts ss sp c.
Proof.
  intros Ht. unfold TitleTool.measure_and_center, PlainTool.measure_and_center.
  rewrite Ht. split; reflexivity.
Qed.

(** C3: a title of five characters over an empty subtitle, measured by
    the stand-in font at sizes 200 and 100.  The claimed layout uses the
    subtitle's own height (0); the gradient variant uses the height of
    the title at the subtitle size (100), and the plain variant the
    height of the title at the title size (200). *)
Theorem subtitle_height_measured_from_title :
  let tool := Fixture.tool "Hello" "" "title.png" "" 1024 1000 in
  let ht := height (Fixture.fx_text_size (title tool) 200 "Roboto.ttf") in
  let hs := height (Fixture.fx_text_size (subtitle tool) 100 "Roboto.ttf") in
  (ht, hs) = (200, 0)
  /\ center_text ht hs 80 500 = (360, 640)
  /\ TitleTool.measure_and_center (E := Fixture.oiio) tool 200 100 80 500
     = center_text 200 100 80 500
  /\ TitleTool.measure_and_center (E := Fixture.oiio) tool 200 100 80 500 = (310, 590)
  /\ PlainTool.measure_and_center (E := Fixture.oiio) tool 200 100 80 500
     = center_text 200 200 80 500
  /\ PlainTool.measure_and_center (E := Fixture.oiio) tool 200 100 80 500 = (260, 540).
Proof. vm_compute. repeat split; reflexivity. Qed.

(** ** The gradient of a region one row high *)

Lemma lerp_nan (a b : spec_float) : lerp S754_nan a b = S754_nan.
Proof. reflexivity. Qed.

(** C5: in a region of height 1 the blend factor of the only row is the
    quotient of zero by zero, a NaN, and so is every color channel
    written to that row. *)
Theorem gradient_height_one_is_nan (roi : ROI) (startcolor endcolor : Vec3) :
  height roi = 1 ->
  blend_of roi (ybegin roi) = F32.div (flit 0) (flit 0)
  /\ blend_of roi (ybegin roi) = S754_nan
  /\ gradient_pixel roi startcolor endcolor (ybegin roi)
     = [S754_nan; S754_nan; S754_nan; flit 1].
Proof.
  intros Hh.
  assert (Hb : blend_of roi (ybegin roi) = S754_nan).
  { unfold blend_of. rewrite Hh. unfold Int.sub at 1. rewrite Z.sub_diag. reflexivity. }
  repeat split; [rewrite Hb; reflexivity | exact Hb |].
  unfold gradient_pixel. rewrite Hb, !lerp_nan. reflexivity.
Qed.

Lemma gradient_height_one_is_nan_witness :
  let roi := mkROI 0 2 0 1 in
  let startcolor := rgb_from_hsv (start_hsv (flit 240)) in
  let endcolor := rgb_from_hsv (end_hsv (flit 240)) in
  gradient_pixel roi startcolor endcolor 0 = [S754_nan; S754_nan; S754_nan; flit 1]
  /\ getpixel (draw_gradient (ImageBuf_of_spec 2 1 4) roi startcolor endcolor) 0 0
     = [S754_nan; S754_nan; S754_nan; flit 1]
  /\ startcolor = mkVec3 (flit 0) (flit 0) (S754_finite false 8388608 (-24)).
Proof.
  intros roi startcolor endcolor. split; [|split; reflexivity].
  apply (gradient_height_one_is_nan roi startcolor endcolor). reflexivity.
Defined.

(** ** Background selection *)

Lemma endpoints_literals (hue : spec_float) :
  start_hsv hue = mkVec3 hue f1_0 f0_5 /\ end_hsv hue = mkVec3 hue f0_5 f0_8.
Proof. split; reflexivity. Qed.

Lemma find_empty_name : StdMap.find "" hues = None.
Proof. reflexivity. Qed.

Lemma nonempty_length (s : string) : s <> "" -> (0 <? String.length s)%nat = true.
Proof. destruct s; [congruence|reflexivity]. Qed.

Section Background.
Variables (tool : TitleTool) (io : Streams) (w h : Z).

Let roi := mkROI 0 w 0 h.
Let ib := ImageBuf_of_spec w h 4.

Lemma background_found (hue : spec_float) :
  StdMap.find (gradient tool) hues = Some hue ->
  TitleTool.draw_background tool roi io ib
  = (print_info io "tool.gradient: " (gradient tool),
     draw_gradient ib roi (rgb_from_hsv (start_hsv hue)) (rgb_from_hsv (end_hsv hue))).
Proof.
  intros Hfind. unfold TitleTool.draw_background.
  rewrite nonempty_length, Hfind; [reflexivity|].
  intros Hempty. rewrite Hempty, find_empty_name in Hfind. discriminate.
Qed.




End Background.

(** ** The hue table *)

Lemma hues_find_table (name : string) :
  StdMap.find name hues = flit <$> hue_lookup name.
Proof.
  unfold hue_lookup, hue_table.
  let h := eval vm_compute in hues in change hues with h.
  cbn [StdMap.find List.find fst snd].
  repeat match goal with
         | |- context [String.eqb name ?k] =>
             destruct (String.eqb_spec name k) as [->|?]
         end; reflexivity.
Qed.

Lemma join_options_hues :
  join_options hues
  = "azure, blue, cyan, green, magenta, orange, red, rose, violet, yellow".
Proof. reflexivity. Qed.




(** ** The canvas of a run *)

(** The diagnostics never reach the pixels. *)
Lemma draw_background_streams (tool : TitleTool) (roi : ROI) (io io' : Streams)
    (ib : ImageBuf) :
  snd (TitleTool.draw_background tool roi io ib)
  = snd (TitleTool.draw_background tool roi io' ib).
Proof.
  unfold TitleTool.draw_background.
  destruct (0 <? String.length (gradient tool))%nat; [|reflexivity].
  destruct (StdMap.find (gradient tool) hues); reflexivity.
Qed.

Lemma program_canvas `{E : OIIO} (tool : TitleTool) (io : Streams) :
  canvas (TitleTool.titletool_program tool io) = Some (composed tool)
  /\ canvas (PlainTool.titletool_program tool io) = Some (composed_plain tool).
Proof.
  unfold TitleTool.titletool_program, PlainTool.titletool_program, composed, composed_plain.
  split.
  - rewrite (draw_background_streams tool _ (mkStreams [] [])
               (print_info (print_info io "titletool -- a utility for creating title images" "")
                           "Writing title file: " (outputfile tool))).
    destruct (TitleTool.draw_background _ _ _ _) as [io' ib].
    destruct (TitleTool.measure_and_center _ _ _ _ _) as [ty sy].
    cbn [fst snd]. destruct (write _ _); reflexivity.
  - destruct (PlainTool.measure_and_center _ _ _ _ _) as [ty sy].
    cbn [fst snd]. destruct (write _ _); reflexivity.
Qed.

(** * Floating-point arithmetic *)

(** ** Powers of two *)

Lemma bpow_gt_0 (e : Z) : (0 < bpow e)%R.
Proof. apply powerRZ_lt. lra. Qed.

Lemma bpow_add (a b : Z) : bpow (a + b) = (bpow a * bpow b)%R.
Proof. apply powerRZ_add. lra. Qed.

Lemma bpow_0 : bpow 0 = 1%R.
Proof. reflexivity. Qed.

Lemma bpow_1 : bpow 1 = 2%R.
Proof. unfold bpow. simpl. lra. Qed.

Lemma bpow_opp (a : Z) : bpow (- a) = (/ bpow a)%R.
Proof. apply powerRZ_neg'. Qed.

Lemma bpow_IZR (n : Z) : 0 <= n -> bpow n = IZR (2 ^ n).
Proof.
  intros Hn. destruct n as [|p|p]; [reflexivity| |lia].
  unfold bpow. rewrite <- Zpower_pos_powerRZ. reflexivity.
Qed.

Lemma bpow_ge_1 (n : Z) : 0 <= n -> (1 <= bpow n)%R.
Proof.
  intros Hn. rewrite bpow_IZR by exact Hn. apply IZR_le.
  pose proof (Z.pow_pos_nonneg 2 n). lia.
Qed.

Lemma bpow_le (a b : Z) : a <= b -> (bpow a <= bpow b)%R.
Proof.
  intros H. replace b with (a + (b - a)) by ring. rewrite bpow_add.
  assert (1 <= bpow (b - a))%R by (apply bpow_ge_1; lia).
  pose proof (bpow_gt_0 a). nra.
Qed.

Lemma bpow_lt (a b : Z) : a < b -> (bpow a < bpow b)%R.
Proof.
  intros H. replace b with (a + (b - a)) by ring. rewrite bpow_add.
  assert (2 <= bpow (b - a))%R by (rewrite <- bpow_1; apply bpow_le; lia).
  pose proof (bpow_gt_0 a). nra.
Qed.

(** ** The number of binary digits *)

Lemma digits2_pos_bounds (m : positive) :
  2 ^ (Zpos (digits2_pos m) - 1) <= Zpos m < 2 ^ Zpos (digits2_pos m).
Proof.
  induction m as [p IH|p IH|]; simpl digits2_pos.
  - rewrite Pos2Z.inj_succ.
    replace (Z.succ (Zpos (digits2_pos p)) - 1) with (Z.succ (Zpos (digits2_pos p) - 1)) by lia.
    rewrite !Z.pow_succ_r by lia. lia.
  - rewrite Pos2Z.inj_succ.
    replace (Z.succ (Zpos (digits2_pos p)) - 1) with (Z.succ (Zpos (digits2_pos p) - 1)) by lia.
    rewrite !Z.pow_succ_r by lia. lia.
  - simpl. lia.
Qed.

Lemma Zdigits2_bounds (m : Z) :
  0 < m -> 2 ^ (Zdigits2 m - 1) <= m < 2 ^ Zdigits2 m.
Proof. destruct m as [|p|p]; try lia. intros _. apply digits2_pos_bounds. Qed.

Lemma Zdigits2_nonneg (m : Z) : 0 <= Zdigits2 m.
Proof. destruct m; simpl; lia. Qed.

(** The digit count is determined by the bounds. *)
Lemma Zdigits2_unique (m d : Z) :
  0 < m -> 2 ^ (d - 1) <= m < 2 ^ d -> Zdigits2 m = d.
Proof.
  intros Hm [Hlo Hhi]. pose proof (Zdigits2_bounds m Hm) as [Hlo' Hhi'].
  pose proof (Zdigits2_nonneg m) as Hd.
  assert (0 < d).
  { destruct (Z_lt_ge_dec 0 d); [assumption|].
    assert (2 ^ d <= 2 ^ 0) by (apply Z.pow_le_mono_r; lia). simpl in *. lia. }
  destruct (Z.lt_trichotomy (Zdigits2 m) d) as [Hlt|[Heq|Hgt]]; [|exact Heq|].
  - assert (2 ^ Zdigits2 m <= 2 ^ (d - 1)) by (apply Z.pow_le_mono_r; lia). lia.
  - assert (2 ^ d <= 2 ^ (Zdigits2 m - 1)) by (apply Z.pow_le_mono_r; lia). lia.
Qed.

(** ** Shifting right with a rounding bit and a sticky bit *)

Lemma approx_bounds (x : R) (mrs : shr_record) :
  approx x mrs -> (IZR (shr_m mrs) <= x < IZR (shr_m mrs) + 1)%R.
Proof.
  intros [_ H]. destruct (shr_r mrs), (shr_s mrs); simpl in H; lra.
Qed.

Lemma IZR_xO (p : positive) : IZR (Zpos p~0) = (2 * IZR (Zpos p))%R.
Proof. rewrite Pos2Z.inj_xO, mult_IZR. reflexivity. Qed.

Lemma IZR_xI (p : positive) : IZR (Zpos p~1) = (2 * IZR (Zpos p) + 1)%R.
Proof. rewrite Pos2Z.inj_xI, plus_IZR, mult_IZR. reflexivity. Qed.

Lemma shr_1_approx (x : R) (mrs : shr_record) :
  approx x mrs -> approx (x / 2) (shr_1 mrs).
Proof.
  destruct mrs as [m r s]. unfold approx. cbn [shr_m shr_r shr_s]. intros [Hm H].
  destruct m as [|[p|p|]|p]; [| | | |exfalso; apply Hm; reflexivity];
    cbn [shr_1 shr_m shr_r shr_s]; (split; [apply Pos2Z.is_nonneg || apply Z.le_refl|]);
    [|rewrite (IZR_xI p) in H|rewrite (IZR_xO p) in H|];
    destruct r, s; cbn [loc_ok orb] in *; lra.
Qed.

Lemma shr_iter_approx (n : positive) (x : R) (mrs : shr_record) :
  approx x mrs -> approx (x / bpow (Zpos n)) (SpecFloat.iter_pos shr_1 n mrs).
Proof.
  revert x mrs. induction n as [n IH|n IH|]; intros x mrs H; cbn [SpecFloat.iter_pos].
  - replace (x / bpow (Zpos n~1))%R with (x / 2 / bpow (Zpos n) / bpow (Zpos n))%R.
    + apply IH, IH, shr_1_approx, H.
    + rewrite Pos2Z.inj_xI. replace (2 * Zpos n + 1) with (1 + (Zpos n + Zpos n)) by lia.
      rewrite !bpow_add, bpow_1. pose proof (bpow_gt_0 (Zpos n)). field. lra.
  - replace (x / bpow (Zpos n~0))%R with (x / bpow (Zpos n) / bpow (Zpos n))%R.
    + apply IH, IH, H.
    + rewrite Pos2Z.inj_xO. replace (2 * Zpos n) with (Zpos n + Zpos n) by lia.
      rewrite !bpow_add. pose proof (bpow_gt_0 (Zpos n)). field. lra.
  - replace (x / bpow 1)%R with (x / 2)%R by (rewrite bpow_1; reflexivity).
    apply shr_1_approx, H.
Qed.

(** [shr] by a non-negative amount: the value is kept. *)
Lemma shr_approx (x : R) (mrs : shr_record) (e n : Z) :
  0 <= n -> approx x mrs ->
  snd (shr mrs e n) = e + n /\ approx (x / bpow n) (fst (shr mrs e n)).
Proof.
  intros Hn H. destruct n as [|p|p]; [| |lia]; cbn [shr fst snd].
  - split; [lia|]. rewrite bpow_0. replace (x / 1)%R with x by field. exact H.
  - split; [reflexivity|]. apply shr_iter_approx, H.
Qed.

Lemma IZR_floor_unique (a b : Z) (x : R) :
  (IZR a <= x < IZR a + 1)%R -> (IZR b <= x < IZR b + 1)%R -> a = b.
Proof.
  intros [Ha1 Ha2] [Hb1 Hb2].
  assert (a < b + 1) by (apply lt_IZR; rewrite plus_IZR; lra).
  assert (b < a + 1) by (apply lt_IZR; rewrite plus_IZR; lra).
  lia.
Qed.

Lemma approx_record_of_loc_exact (m : Z) :
  0 <= m -> approx (IZR m) (shr_record_of_loc m loc_Exact).
Proof.
  intros Hm. split; [exact Hm|]. cbn [shr_record_of_loc shr_m shr_r shr_s loc_ok]. lra.
Qed.

Lemma shr_m_record_of_loc (m : Z) (l : location) : shr_m (shr_record_of_loc m l) = m.
Proof. destruct l as [|[| |]]; reflexivity. Qed.

Lemma shr_zero (e n : Z) :
  fst (shr (Build_shr_record 0 false false) e n) = Build_shr_record 0 false false.
Proof.
  destruct n as [|p|p]; try reflexivity. cbn [shr fst].
  induction p as [p IH|p IH|]; cbn [SpecFloat.iter_pos shr_1 orb];
    rewrite ?IH; reflexivity.
Qed.

(** ** Rounding to nearest *)

Section Rounding.
Variables prec emax : Z.
Hypothesis prec_gt_0 : 0 < prec.
Hypothesis prec_lt_emax : prec < emax.

Local Abbreviation emin := (SpecFloat.emin prec emax).
Local Abbreviation fexp := (SpecFloat.fexp prec emax).
Local Abbreviation Rep := (Fmt.Rep prec emax).
Local Abbreviation Rnd := (Fmt.Rnd prec emax).
Local Abbreviation Encodes := (Fmt.Encodes prec emax).
Local Abbreviation Good := (Fmt.Good prec emax).
Local Abbreviation Rounds := (Fmt.Rounds prec emax).

Lemma fexp_mono (a b : Z) : a <= b -> fexp a <= fexp b.
Proof. unfold SpecFloat.fexp. lia. Qed.

Lemma fexp_ge_emin (a : Z) : emin <= fexp a.
Proof. unfold SpecFloat.fexp. lia. Qed.

Lemma fexp_cases (a : Z) :
  (fexp a = emin /\ a - prec <= emin) \/ (fexp a = a - prec /\ emin < a - prec).
Proof. unfold SpecFloat.fexp. lia. Qed.

Lemma emin_le_0 : emin <= 0.
Proof. unfold SpecFloat.emin. lia. Qed.

Lemma Rep_0 : Rep 0.
Proof.
  exists 0, emin. split; [lra|]. split; [|lia].
  pose proof (Z.pow_pos_nonneg 2 prec). lia.
Qed.

Lemma Rep_nonneg (y : R) : Rep y -> (0 <= y)%R.
Proof.
  intros (my & ey & -> & [Hmy _] & _). apply IZR_le in Hmy.
  pose proof (bpow_gt_0 ey). nra.
Qed.

(** Between two neighbours on the grid of exponent [e1] there is no
    element of the format, provided the grid is the finest one or the
    lower neighbour has a full mantissa. *)
Lemma Rep_gap (m1 e1 : Z) (y : R) :
  0 <= m1 -> emin <= e1 -> e1 = emin \/ 2 ^ (prec - 1) <= m1 ->
  Rep y ->
  (y <= IZR m1 * bpow e1)%R \/ (IZR (m1 + 1) * bpow e1 <= y)%R.
Proof.
  intros Hm1 He1 Hfull (my & ey & -> & [Hmy1 Hmy2] & Hey).
  pose proof (bpow_gt_0 e1) as Hb1.
  destruct (Z_le_gt_dec e1 ey) as [Hle|Hgt].
  - replace ey with ((ey - e1) + e1) by ring. rewrite bpow_add, bpow_IZR by lia.
    rewrite <- Rmult_assoc, <- mult_IZR.
    set (k := my * 2 ^ (ey - e1)).
    destruct (Z_le_gt_dec k m1) as [Hk|Hk].
    + left. apply IZR_le in Hk. nra.
    + right. assert (Hk' : m1 + 1 <= k) by lia. apply IZR_le in Hk'. nra.
  - left. destruct Hfull as [->|Hfull]; [lia|].
    assert (H1 : (IZR my * bpow ey <= bpow prec * bpow ey)%R).
    { rewrite (bpow_IZR prec) by lia. apply IZR_le in Hmy1.
      assert (IZR my <= IZR (2 ^ prec))%R by (apply IZR_le; lia).
      pose proof (bpow_gt_0 ey). nra. }
    assert (H2 : (bpow prec * bpow ey <= bpow (prec - 1) * bpow e1)%R).
    { rewrite <- !bpow_add. apply bpow_le. lia. }
    assert (H3 : (bpow (prec - 1) <= IZR m1)%R).
    { rewrite bpow_IZR by lia. apply IZR_le. exact Hfull. }
    nra.
Qed.

(** The first shift of [binary_round_aux] brings the mantissa to the
    exponent of the format and keeps the value. *)
Lemma shr_fexp_approx (m e : Z) (l : location) (x : R) :
  approx x (shr_record_of_loc m l) -> e <= fexp (Zdigits2 m + e) ->
  snd (shr_fexp prec emax m e l) = fexp (Zdigits2 m + e)
  /\ approx (x * bpow (e - fexp (Zdigits2 m + e))) (fst (shr_fexp prec emax m e l)).
Proof.
  intros Hx He. unfold shr_fexp.
  destruct (shr_approx x (shr_record_of_loc m l) e (fexp (Zdigits2 m + e) - e)) as [H1 H2];
    [lia | exact Hx |].
  split; [rewrite H1; ring|].
  replace (x * bpow (e - fexp (Zdigits2 m + e)))%R
    with (x / bpow (fexp (Zdigits2 m + e) - e))%R; [exact H2|].
  replace (e - fexp (Zdigits2 m + e)) with (- (fexp (Zdigits2 m + e) - e)) by ring.
  rewrite bpow_opp. reflexivity.
Qed.

(** [round_nearest_even] picks a nearest of the two neighbours. *)
Lemma round_nearest_even_approx (x : R) (mrs : shr_record) :
  approx x mrs ->
  let m1 := shr_m mrs in
  let m2 := round_nearest_even m1 (loc_of_shr_record mrs) in
  (m2 = m1 \/ m2 = m1 + 1)
  /\ (Rabs (IZR m2 - x) <= Rabs (IZR m1 - x))%R
  /\ (Rabs (IZR m2 - x) <= Rabs (IZR (m1 + 1) - x))%R.
Proof.
  destruct mrs as [m1 r s]. unfold approx. cbn [shr_m shr_r shr_s]. intros [Hm1 H].
  cbn zeta. rewrite plus_IZR.
  destruct r, s; cbn [loc_of_shr_record round_nearest_even loc_ok] in *;
    try destruct (Z.even m1); rewrite ?plus_IZR;
    (split; [auto|]); split; unfold Rabs;
    repeat destruct Rcase_abs; lra.
Qed.

(** The second shift: nothing moves unless the rounding carried into a
    new binade, and then one exact shift restores the mantissa. *)
Lemma shr_fexp_exact (m2 e1 : Z) :
  emin <= e1 ->
  m2 = 0 \/ (0 < m2 /\ fexp (Zdigits2 m2 + e1) = e1) \/ m2 = 2 ^ prec ->
  let m3 := shr_m (fst (shr_fexp prec emax m2 e1 loc_Exact)) in
  let e3 := snd (shr_fexp prec emax m2 e1 loc_Exact) in
  (IZR m3 * bpow e3 = IZR m2 * bpow e1)%R
  /\ 0 <= m3
  /\ (m3 = 0 \/ (0 < m3 /\ e3 = fexp (Zdigits2 m3 + e3))).
Proof.
  intros He1 [->|[[Hpos Hcan]| ->]]; cbn zeta.
  - unfold shr_fexp. cbn [Zdigits2 shr_record_of_loc]. rewrite shr_zero.
    cbn [fst shr_m]. split; [lra|]. split; [lia|]. left. reflexivity.
  - unfold shr_fexp. rewrite Hcan, Z.sub_diag. cbn [shr fst snd].
    rewrite shr_m_record_of_loc. split; [reflexivity|]. split; [lia|]. right.
    split; [exact Hpos|]. symmetry. exact Hcan.
  - assert (Hd : Zdigits2 (2 ^ prec) = prec + 1).
    { apply Zdigits2_unique.
      - apply Z.pow_pos_nonneg; lia.
      - replace (prec + 1 - 1) with prec by ring. split; [lia|].
        apply Z.pow_lt_mono_r; lia. }
    unfold shr_fexp. rewrite Hd.
    assert (Hn : fexp (prec + 1 + e1) - e1 = 1) by (unfold SpecFloat.fexp; lia).
    rewrite Hn.
    destruct (shr_approx (IZR (2 ^ prec)) (shr_record_of_loc (2 ^ prec) loc_Exact) e1 1)
      as [H1 H2]; [lia | apply approx_record_of_loc_exact; apply Z.pow_nonneg; lia |].
    rewrite H1. apply approx_bounds in H2 as H3. destruct H2 as [H2 _].
    assert (Hhalf : (IZR (2 ^ prec) / bpow 1 = IZR (2 ^ (prec - 1)))%R).
    { rewrite bpow_1. replace prec with (Z.succ (prec - 1)) at 1 by lia.
      rewrite Z.pow_succ_r by lia. rewrite mult_IZR. field. }
    rewrite Hhalf in H3.
    assert (Hm3 : shr_m (fst (shr (shr_record_of_loc (2 ^ prec) loc_Exact) e1 1)) = 2 ^ (prec - 1)).
    { apply (IZR_floor_unique _ _ _ H3). lra. }
    rewrite Hm3.
    assert (Hpow : 0 < 2 ^ (prec - 1)) by (apply Z.pow_pos_nonneg; lia).
    split; [|split; [lia|right; split; [exact Hpow|]]].
    + rewrite bpow_add, bpow_1.
      replace (2 ^ prec) with (2 * 2 ^ (prec - 1)).
      * rewrite mult_IZR. ring.
      * rewrite <- Z.pow_succ_r by lia. f_equal. lia.
    + assert (Hd' : Zdigits2 (2 ^ (prec - 1)) = prec).
      { apply Zdigits2_unique; [exact Hpow|]. split; [lia|].
        apply Z.pow_lt_mono_r; lia. }
      rewrite Hd'. unfold SpecFloat.fexp. lia.
Qed.

Lemma Rabs_scale (a b c : R) : (0 < c)%R -> Rabs (a * c - b * c) = (Rabs (a - b) * c)%R.
Proof.
  intros Hc. rewrite <- Rmult_minus_distr_r, Rabs_mult, (Rabs_pos_eq c); lra.
Qed.

(** [binary_round_aux] rounds to nearest: applied to a mantissa whose
    exponent is not above the exponent of the format, it returns a float
    encoding a nearest element of the format (or an infinity when that
    element is out of range). *)
Theorem binary_round_aux_correct (s : bool) (m e : Z) (l : location) (x : R) :
  approx x (shr_record_of_loc m l) -> e <= fexp (Zdigits2 m + e) ->
  exists r, Rnd (x * bpow e) r /\ Encodes s r (binary_round_aux prec emax s m e l).
Proof.
  intros Hx He.
  assert (Hm : 0 <= m).
  { destruct Hx as [Hx _]. rewrite shr_m_record_of_loc in Hx. exact Hx. }
  destruct (shr_fexp_approx m e l x Hx He) as [Hs1 Ha1].
  unfold binary_round_aux.
  destruct (shr_fexp prec emax m e l) as [mrs1 e1'] eqn:Hsf. cbn [fst snd] in Hs1, Ha1.
  subst e1'.
  set (E := Zdigits2 m + e) in *. set (e1 := fexp E) in *.
  set (x1 := (x * bpow (e - e1))%R) in *.
  pose proof (round_nearest_even_approx x1 mrs1 Ha1) as (Hm2 & Hn1 & Hn2). cbn zeta in *.
  set (m1 := shr_m mrs1) in *.
  set (m2 := round_nearest_even m1 (loc_of_shr_record mrs1)) in *.
  pose proof (approx_bounds _ _ Ha1) as Hb1. fold m1 in Hb1.
  assert (Hm1 : 0 <= m1) by apply Ha1.
  assert (HX : (x * bpow e = x1 * bpow e1)%R).
  { unfold x1. rewrite Rmult_assoc, <- bpow_add. f_equal. f_equal. ring. }
  pose proof (approx_bounds _ _ Hx) as Hbx. rewrite shr_m_record_of_loc in Hbx.
  assert (Hxhi : (x < bpow (Zdigits2 m))%R).
  { destruct (Z.eq_dec m 0) as [->|Hne].
    - cbn [Zdigits2]. rewrite bpow_0. lra.
    - pose proof (Zdigits2_bounds m ltac:(lia)) as [_ Hhi].
      rewrite bpow_IZR by apply Zdigits2_nonneg.
      assert (Hs : m + 1 <= 2 ^ Zdigits2 m) by lia.
      apply IZR_le in Hs. rewrite plus_IZR in Hs. lra. }
  assert (Hx1hi : (x1 < bpow (E - e1))%R).
  { unfold x1. replace (E - e1) with (Zdigits2 m + (e - e1)) by (unfold E; ring).
    rewrite bpow_add. pose proof (bpow_gt_0 (e - e1)). nra. }
  assert (Hx1lo : 0 < m -> (bpow (E - 1 - e1) <= x1)%R).
  { intros Hpos. pose proof (Zdigits2_bounds m Hpos) as [Hlo _]. unfold x1.
    assert (0 < Zdigits2 m) by (destruct m; cbn [Zdigits2]; lia).
    replace (E - 1 - e1) with ((Zdigits2 m - 1) + (e - e1)) by (unfold E; ring).
    rewrite bpow_add, (bpow_IZR (Zdigits2 m - 1)) by lia.
    apply IZR_le in Hlo. pose proof (bpow_gt_0 (e - e1)). nra. }
  assert (He1min : emin <= e1) by apply fexp_ge_emin.
  assert (Hfull : e1 = emin \/ 2 ^ (prec - 1) <= m1).
  { destruct (fexp_cases E) as [[Hf _]|[Hf Hlt]]; [left; exact Hf|]. right.
    destruct (Z.eq_dec m 0) as [Hz|Hnz].
    - exfalso. unfold e1, E in He, Hf. rewrite Hz in He, Hf. cbn [Zdigits2] in He, Hf. lia.
    - specialize (Hx1lo ltac:(lia)).
      replace (E - 1 - e1) with (prec - 1) in Hx1lo by (unfold e1; lia).
      rewrite bpow_IZR in Hx1lo by lia.
      assert (Hlt' : 2 ^ (prec - 1) < m1 + 1) by (apply lt_IZR; rewrite plus_IZR; lra).
      lia. }
  assert (Hm2nn : 0 <= m2) by lia.
  assert (Hcls : m2 = 0 \/ (0 < m2 /\ fexp (Zdigits2 m2 + e1) = e1) \/ m2 = 2 ^ prec).
  { destruct (Z.eq_dec m2 0) as [Hz|Hnz]; [left; exact Hz|right].
    assert (Hpos : 0 < m2) by lia.
    destruct (Z_lt_ge_dec (E - e1) 0) as [Hneg|Hnn].
    - left. split; [exact Hpos|].
      assert (bpow (E - e1) < bpow 0)%R by (apply bpow_lt; lia). rewrite bpow_0 in *.
      assert (m1 < 1) by (apply lt_IZR; lra).
      assert (Hm2_1 : m2 = 1) by lia. rewrite Hm2_1. cbn [Zdigits2 digits2_pos].
      destruct (fexp_cases E) as [[Hf _]|[Hf Hlt]]; fold e1 in Hf; [|lia].
      rewrite Hf. unfold SpecFloat.fexp. lia.
    - assert (Hm1lt : m1 < 2 ^ (E - e1)).
      { apply lt_IZR. rewrite <- bpow_IZR by lia. lra. }
      destruct (Z.eq_dec m2 (2 ^ (E - e1))) as [Heq|Hne].
      + destruct (Z_lt_ge_dec (E - prec) emin) as [Hsub|Hnorm].
        * assert (Hf : e1 = emin) by (unfold e1, SpecFloat.fexp; lia).
          left. split; [exact Hpos|].
          assert (Hd : Zdigits2 m2 = E - e1 + 1).
          { apply Zdigits2_unique; [exact Hpos|]. rewrite Heq.
            replace (E - e1 + 1 - 1) with (E - e1) by ring. split; [lia|].
            apply Z.pow_lt_mono_r; lia. }
          rewrite Hd, Hf. unfold SpecFloat.fexp. lia.
        * assert (Hf : e1 = E - prec) by (unfold e1, SpecFloat.fexp; lia).
          right. rewrite Heq. f_equal. lia.
      + left. split; [exact Hpos|].
        assert (Hlt : m2 < 2 ^ (E - e1)) by lia.
        pose proof (Zdigits2_bounds m2 Hpos) as [Hlo Hhi].
        assert (Hd : Zdigits2 m2 - 1 < E - e1).
        { apply (Z.pow_lt_mono_r_iff 2); lia. }
        assert (Hup : fexp (Zdigits2 m2 + e1) <= e1).
        { unfold e1 at 2. apply fexp_mono. lia. }
        assert (Hdn : e1 <= fexp (Zdigits2 m2 + e1)).
        { destruct Hfull as [Hmin|Hbig].
          - rewrite Hmin. apply fexp_ge_emin.
          - pose proof (Zdigits2_nonneg m2).
            assert (prec - 1 < Zdigits2 m2) by (apply (Z.pow_lt_mono_r_iff 2); lia).
            unfold SpecFloat.fexp. lia. }
        lia. }
  pose proof (shr_fexp_exact m2 e1 He1min Hcls) as (Hval & Hm3 & Hcan). cbn zeta in *.
  destruct (shr_fexp prec emax m2 e1 loc_Exact) as [mrs3 e3] eqn:Hsf2. cbn [fst snd] in *.
  set (m3 := shr_m mrs3) in *.
  pose proof (bpow_gt_0 e1) as Hbe1.
  exists (IZR m2 * bpow e1)%R. split; [split|].
  - rewrite <- Hval. destruct Hcan as [Hz|[Hpos Hcan]].
    + rewrite Hz, Rmult_0_l. apply Rep_0.
    + exists m3, e3. split; [reflexivity|]. split.
      * pose proof (Zdigits2_bounds m3 Hpos) as [_ Hhi].
        assert (Zdigits2 m3 <= prec) by (unfold SpecFloat.fexp in Hcan; lia).
        assert (2 ^ Zdigits2 m3 <= 2 ^ prec) by (apply Z.pow_le_mono_r; lia). lia.
      * rewrite Hcan. apply fexp_ge_emin.
  - intros y Hy. rewrite HX, Rabs_scale by exact Hbe1.
    pose proof (Rabs_pos (IZR m2 - x1)) as Hp.
    destruct (Rep_gap m1 e1 y Hm1 He1min Hfull Hy) as [Hle|Hge].
    + assert (Hd : (Rabs (IZR m1 - x1) * bpow e1 <= Rabs (y - x1 * bpow e1))%R).
      { rewrite (Rabs_left1 (IZR m1 - x1)) by lra. rewrite (Rabs_left1 (y - _)) by nra. nra. }
      nra.
    + rewrite plus_IZR in Hge, Hn2.
      assert (Hd : (Rabs (IZR m1 + 1 - x1) * bpow e1 <= Rabs (y - x1 * bpow e1))%R).
      { rewrite (Rabs_pos_eq (IZR m1 + 1 - x1)) by lra. rewrite (Rabs_pos_eq (y - _)) by nra. nra. }
      nra.
  - destruct m3 as [|p|p] eqn:Hm3e; [| |lia]; cbn [Fmt.Encodes].
    + split; [reflexivity|]. rewrite <- Hval. lra.
    + destruct Hcan as [Hz|[Hpos Hcan]]; [discriminate|].
      destruct (Z.leb e3 (emax - prec)) eqn:Hle; cbn [Fmt.Encodes].
      * split; [reflexivity|]. split; [|symmetry; exact Hval].
        unfold bounded, canonical_mantissa. rewrite Hle, andb_true_r.
        apply Z.eqb_eq. symmetry. exact Hcan.
      * split; [reflexivity|]. apply Z.leb_gt in Hle. rewrite <- Hval.
        cbn [Zdigits2] in Hcan.
        assert (Hdig : Zpos (digits2_pos p) = prec).
        { unfold SpecFloat.fexp, SpecFloat.emin in Hcan. lia. }
        pose proof (digits2_pos_bounds p) as [Hlo _]. rewrite Hdig in Hlo.
        apply IZR_le in Hlo. rewrite <- bpow_IZR in Hlo by lia.
        assert (Hb : (bpow (emax - (prec - 1)) <= bpow e3)%R) by (apply bpow_le; lia).
        replace emax with ((prec - 1) + (emax - (prec - 1))) at 1 by ring.
        rewrite bpow_add. pose proof (bpow_gt_0 (prec - 1)).
        pose proof (bpow_gt_0 (emax - (prec - 1))). nra.
Qed.

(** *** Consequences of being nearest *)

Lemma Rnd_0 : Rnd 0 0.
Proof.
  split; [apply Rep_0|]. intros y Hy. rewrite Rminus_diag, Rabs_R0. apply Rabs_pos.
Qed.

Lemma Rnd_le (x r y : R) : Rnd x r -> Rep y -> (x <= y)%R -> (r <= y)%R.
Proof.
  intros [_ H] Hy Hxy. specialize (H y Hy). rewrite (Rabs_pos_eq (y - x)) in H by lra.
  unfold Rabs in H. destruct Rcase_abs; lra.
Qed.

Lemma Rnd_ge (x r y : R) : Rnd x r -> Rep y -> (y <= x)%R -> (y <= r)%R.
Proof.
  intros [_ H] Hy Hxy. specialize (H y Hy). rewrite (Rabs_left1 (y - x)) in H by lra.
  unfold Rabs in H. destruct Rcase_abs; lra.
Qed.

Lemma Rnd_exact (x r : R) : Rep x -> Rnd x r -> r = x.
Proof.
  intros Hx [_ H]. specialize (H x Hx). rewrite Rminus_diag, Rabs_R0 in H.
  unfold Rabs in H. destruct Rcase_abs; lra.
Qed.

(** Rounding is monotone. *)
Lemma Rnd_mono (x1 r1 x2 r2 : R) :
  Rnd x1 r1 -> Rnd x2 r2 -> (x1 < x2)%R -> (r1 <= r2)%R.
Proof.
  intros [Hr1 H1] [Hr2 H2] Hlt. specialize (H1 r2 Hr2). specialize (H2 r1 Hr1).
  unfold Rabs in H1, H2. repeat destruct Rcase_abs; lra.
Qed.

(** *** Valid floats *)

Lemma canonical_fexp (m : positive) (e : Z) :
  canonical_mantissa prec emax m e = true <-> fexp (Zpos (digits2_pos m) + e) = e.
Proof. unfold canonical_mantissa. apply Z.eqb_eq. Qed.

Lemma bounded_canonical (m : positive) (e : Z) :
  bounded prec emax m e = true ->
  fexp (Zpos (digits2_pos m) + e) = e /\ e <= emax - prec.
Proof.
  unfold bounded. intros H. apply andb_prop in H as [H1 H2].
  split; [apply canonical_fexp, H1 | apply Z.leb_le, H2].
Qed.

Lemma canonical_bounds (m : positive) (e : Z) :
  fexp (Zpos (digits2_pos m) + e) = e ->
  (bpow (Zpos (digits2_pos m) + e - 1) <= IZR (Zpos m) * bpow e
   < bpow (Zpos (digits2_pos m) + e))%R
  /\ Zpos m < 2 ^ prec /\ emin <= e.
Proof.
  intros Hc. pose proof (digits2_pos_bounds m) as [Hlo Hhi].
  apply IZR_le in Hlo. apply IZR_lt in Hhi.
  rewrite <- bpow_IZR in Hlo, Hhi by lia.
  pose proof (bpow_gt_0 e) as He.
  replace (Zpos (digits2_pos m) + e - 1) with ((Zpos (digits2_pos m) - 1) + e) by ring.
  rewrite !bpow_add. split; [nra|]. split.
  - pose proof (digits2_pos_bounds m) as [_ Hhi'].
    assert (Zpos (digits2_pos m) <= prec) by (unfold SpecFloat.fexp in Hc; lia).
    assert (2 ^ Zpos (digits2_pos m) <= 2 ^ prec) by (apply Z.pow_le_mono_r; lia). lia.
  - rewrite <- Hc. apply fexp_ge_emin.
Qed.

Lemma bounded_Rep (m : positive) (e : Z) :
  bounded prec emax m e = true ->
  Rep (IZR (Zpos m) * bpow e) /\ (0 < IZR (Zpos m) * bpow e < bpow emax)%R.
Proof.
  intros Hb. apply bounded_canonical in Hb as [Hc He].
  pose proof (canonical_bounds m e Hc) as ([Hlo Hhi] & Hm & Hmin).
  split; [exists (Zpos m), e; repeat split; lia|].
  pose proof (bpow_gt_0 (Zpos (digits2_pos m) + e - 1)). split; [lra|].
  assert (bpow (Zpos (digits2_pos m) + e) <= bpow emax)%R.
  { apply bpow_le. unfold SpecFloat.fexp in Hc. lia. }
  lra.
Qed.

(** Canonical mantissas are ordered like their exponents. *)
Lemma canonical_exponent_lt (m1 m2 : positive) (e1 e2 : Z) :
  fexp (Zpos (digits2_pos m1) + e1) = e1 -> fexp (Zpos (digits2_pos m2) + e2) = e2 ->
  e1 < e2 -> (IZR (Zpos m1) * bpow e1 < IZR (Zpos m2) * bpow e2)%R.
Proof.
  intros H1 H2 Hlt.
  pose proof (canonical_bounds m1 e1 H1) as ([_ Hhi] & _).
  pose proof (canonical_bounds m2 e2 H2) as ([Hlo _] & _).
  assert (Hd : Zpos (digits2_pos m1) + e1 < Zpos (digits2_pos m2) + e2).
  { destruct (Z_lt_ge_dec (Zpos (digits2_pos m1) + e1) (Zpos (digits2_pos m2) + e2))
      as [H|H]; [exact H|].
    assert (fexp (Zpos (digits2_pos m2) + e2) <= fexp (Zpos (digits2_pos m1) + e1))
      by (apply fexp_mono; lia). lia. }
  assert (bpow (Zpos (digits2_pos m1) + e1) <= bpow (Zpos (digits2_pos m2) + e2 - 1))%R
    by (apply bpow_le; lia).
  lra.
Qed.

Lemma canonical_unique (m1 m2 : positive) (e1 e2 : Z) :
  fexp (Zpos (digits2_pos m1) + e1) = e1 -> fexp (Zpos (digits2_pos m2) + e2) = e2 ->
  (IZR (Zpos m1) * bpow e1 = IZR (Zpos m2) * bpow e2)%R -> m1 = m2 /\ e1 = e2.
Proof.
  intros H1 H2 Heq.
  assert (He : e1 = e2).
  { destruct (Z.lt_trichotomy e1 e2) as [Hlt|[He|Hgt]]; [|exact He|].
    - pose proof (canonical_exponent_lt m1 m2 e1 e2 H1 H2 Hlt). lra.
    - pose proof (canonical_exponent_lt m2 m1 e2 e1 H2 H1 ltac:(lia)). lra. }
  split; [|exact He]. subst e2. pose proof (bpow_gt_0 e1).
  assert (IZR (Zpos m1) = IZR (Zpos m2)) by nra.
  apply eq_IZR in H0. congruence.
Qed.

(** The comparison of two positive canonical floats. *)
Lemma SFcompare_canonical (m1 m2 : positive) (e1 e2 : Z) :
  fexp (Zpos (digits2_pos m1) + e1) = e1 -> fexp (Zpos (digits2_pos m2) + e2) = e2 ->
  match SFcompare (S754_finite false m1 e1) (S754_finite false m2 e2) with
  | Some Lt => (IZR (Zpos m1) * bpow e1 < IZR (Zpos m2) * bpow e2)%R
  | Some Eq => (IZR (Zpos m1) * bpow e1 = IZR (Zpos m2) * bpow e2)%R
  | Some Gt => (IZR (Zpos m2) * bpow e2 < IZR (Zpos m1) * bpow e1)%R
  | None => False
  end.
Proof.
  intros H1 H2. cbn [SFcompare].
  destruct (Z.compare_spec e1 e2) as [He|He|He].
  - subst e2. rewrite Pos.compare_cont_spec. cbn [Pos.switch_Eq].
    pose proof (bpow_gt_0 e1).
    destruct (Pos.compare_spec m1 m2) as [Hm|Hm|Hm]; cbn [Pos.switch_Eq].
    + subst. reflexivity.
    + assert (IZR (Zpos m1) < IZR (Zpos m2))%R by (apply IZR_lt, Pos2Z.pos_lt_pos, Hm). nra.
    + assert (IZR (Zpos m2) < IZR (Zpos m1))%R by (apply IZR_lt, Pos2Z.pos_lt_pos, Hm). nra.
  - apply canonical_exponent_lt; assumption.
  - apply canonical_exponent_lt; assumption.
Qed.

(** *** Aligning and rounding a mantissa *)

Lemma iter_xO (m d : positive) :
  Zpos (Pos.iter xO m d) = Zpos m * 2 ^ Zpos d
  /\ Zpos (digits2_pos (Pos.iter xO m d)) = Zpos (digits2_pos m) + Zpos d.
Proof.
  induction d as [|d [IH1 IH2]] using Pos.peano_ind.
  - cbn [Pos.iter digits2_pos]. rewrite Pos2Z.inj_succ. lia.
  - rewrite Pos.iter_succ. cbn [digits2_pos].
    rewrite Pos2Z.inj_xO, IH1, !Pos2Z.inj_succ, IH2, Z.pow_succ_r by lia. lia.
Qed.

Lemma shl_align_spec (m : positive) (e e' : Z) :
  let m' := fst (shl_align m e e') in
  let e'' := snd (shl_align m e e') in
  (IZR (Zpos m') * bpow e'' = IZR (Zpos m) * bpow e)%R
  /\ e'' = Z.min e e'
  /\ Zpos (digits2_pos m') + e'' = Zpos (digits2_pos m) + e.
Proof.
  unfold shl_align. destruct (e' - e) as [|d|d] eqn:Hd; cbn [fst snd].
  - repeat split; lia.
  - repeat split; lia.
  - destruct (iter_xO m d) as [H1 H2]. rewrite H1, H2, mult_IZR.
    split; [|split; lia].
    replace e with (Zpos d + e') by lia. rewrite bpow_add, (bpow_IZR (Zpos d)) by lia.
    ring.
Qed.

(** [binary_round] rounds the real [m * 2^e] to nearest. *)
Lemma binary_round_correct (s : bool) (m : positive) (e : Z) :
  exists r, Rnd (IZR (Zpos m) * bpow e) r /\ Encodes s r (binary_round prec emax s m e).
Proof.
  unfold binary_round.
  pose proof (shl_align_spec m e (fexp (Zpos (digits2_pos m) + e))) as (Hv & He & Hd).
  cbn zeta in *.
  destruct (shl_align m e (fexp (Zpos (digits2_pos m) + e))) as [mz ez]. cbn [fst snd] in *.
  rewrite <- Hv. apply binary_round_aux_correct.
  - apply approx_record_of_loc_exact. lia.
  - cbn [Zdigits2]. rewrite Hd. lia.
Qed.

Lemma binary_normalize_correct (z e : Z) (szero : bool) :
  0 <= z ->
  exists r, Rnd (IZR z * bpow e) r /\ Encodes (if Z.eqb z 0 then szero else false) r
                                         (binary_normalize prec emax z e szero).
Proof.
  intros Hz. destruct z as [|p|p]; [| |lia]; cbn [binary_normalize Z.eqb].
  - exists 0%R. rewrite Rmult_0_l. split; [apply Rnd_0|]. cbn [Fmt.Encodes]. auto.
  - apply binary_round_correct.
Qed.

(** *** The operations on non-negative floats *)

Lemma Encodes_Rounds (x r : R) (f : spec_float) :
  Rnd x r -> Encodes false r f -> Rounds x f.
Proof.
  intros Hr He. exists r. split; [exact Hr|].
  destruct f as [s|s| |s m e]; cbn [Fmt.Encodes] in He.
  - apply He.
  - destruct He as [-> He]. exact He.
  - exact He.
  - destruct He as (-> & Hb & Hv). auto.
Qed.

Lemma Good_Rounds (f : spec_float) : Good f -> Rounds (Fmag f) f.
Proof.
  intros [Hv Hn]. destruct f as [s|s| |s m e]; try discriminate.
  - exists 0%R. split; [apply Rnd_0|reflexivity].
  - destruct s; [discriminate|]. cbn [valid_binary] in Hv.
    exists (Fmag (S754_finite false m e)). cbn [Fmag]. split; [|auto].
    split; [apply bounded_Rep, Hv|]. intros y _.
    rewrite Rminus_diag, Rabs_R0. apply Rabs_pos.
Qed.

(** A rounded real that some element of the format in range dominates
    is a good float, with a nearest magnitude. *)
Lemma Rounds_Good (x y : R) (f : spec_float) :
  Rounds x f -> Rep y -> (x <= y)%R -> (y < bpow emax)%R ->
  Good f /\ Rnd x (Fmag f).
Proof.
  intros (r & Hr & Hf) Hy Hxy Hmax. pose proof (Rnd_le x r y Hr Hy Hxy) as Hle.
  destruct f as [s|[|]| |[|] m e]; try contradiction; try lra.
  - subst r. split; [split; reflexivity|exact Hr].
  - destruct Hf as [Hb ->]. split; [split; [exact Hb|reflexivity]|exact Hr].
Qed.

Lemma Good_Rep (f : spec_float) : Good f -> Rep (Fmag f) /\ (Fmag f < bpow emax)%R.
Proof.
  intros [Hv Hn]. destruct f as [s|s| |s m e]; try discriminate; cbn [Fmag].
  - split; [apply Rep_0|apply bpow_gt_0].
  - destruct (bounded_Rep m e Hv) as [H1 H2]. split; [exact H1|lra].
Qed.

Lemma Good_finite (s : bool) (m : positive) (e : Z) :
  Good (S754_finite s m e) -> s = false /\ bounded prec emax m e = true.
Proof. intros [Hv Hn]. destruct s; [discriminate|]. split; [reflexivity|exact Hv]. Qed.

Lemma SFmul_rounds (a b : spec_float) :
  Good a -> Good b -> Rounds (Fmag a * Fmag b) (SFmul prec emax a b).
Proof.
  intros Ha Hb.
  destruct a as [sa|sa| |sa ma ea]; try (destruct Ha as [_ Ha]; discriminate);
  destruct b as [sb|sb| |sb mb eb]; try (destruct Hb as [_ Hb]; discriminate);
    cbn [SFmul Fmag]; rewrite ?Rmult_0_l, ?Rmult_0_r;
    try (exists 0%R; split; [apply Rnd_0|reflexivity]).
  apply Good_finite in Ha as [-> Ha], Hb as [-> Hb]. cbn [xorb].
  apply bounded_canonical in Ha as [Ha _], Hb as [Hb _].
  destruct (binary_round_aux_correct false (Zpos (ma * mb)) (ea + eb) loc_Exact
              (IZR (Zpos (ma * mb)))) as (r & Hr & He).
  - apply approx_record_of_loc_exact. lia.
  - cbn [Zdigits2].
    pose proof (digits2_pos_bounds ma) as [Hla Hha].
    pose proof (digits2_pos_bounds mb) as [Hlb Hhb].
    pose proof (digits2_pos_bounds (ma * mb)) as [_ Hhab].
    assert (Hd : Zpos (digits2_pos ma) + Zpos (digits2_pos mb) - 2
                 < Zpos (digits2_pos (ma * mb))).
    { apply (Z.pow_lt_mono_r_iff 2); [lia|lia|].
      replace (Zpos (digits2_pos ma) + Zpos (digits2_pos mb) - 2)
        with ((Zpos (digits2_pos ma) - 1) + (Zpos (digits2_pos mb) - 1)) by ring.
      rewrite Z.pow_add_r by lia. rewrite Pos2Z.inj_mul in Hhab. nia. }
    pose proof emin_le_0. unfold SpecFloat.fexp in *. lia.
  - apply (Encodes_Rounds _ r); [|exact He].
    rewrite Pos2Z.inj_mul, mult_IZR, bpow_add in Hr.
    replace (IZR (Zpos ma) * bpow ea * (IZR (Zpos mb) * bpow eb))%R
      with (IZR (Zpos ma) * IZR (Zpos mb) * (bpow ea * bpow eb))%R by ring.
    exact Hr.
Qed.

Lemma shl_align_fst (m : positive) (e ez : Z) :
  ez <= e -> (IZR (Zpos (fst (shl_align m e ez))) * bpow ez = IZR (Zpos m) * bpow e)%R.
Proof.
  intros Hle. pose proof (shl_align_spec m e ez) as (Hv & He & _). cbn zeta in *.
  rewrite <- Hv, He. f_equal. f_equal. lia.
Qed.

Lemma SFadd_rounds (a b : spec_float) :
  Good a -> Good b -> Rounds (Fmag a + Fmag b) (SFadd prec emax a b).
Proof.
  intros Ha Hb.
  destruct a as [sa|sa| |sa ma ea]; try (destruct Ha as [_ Ha]; discriminate);
  destruct b as [sb|sb| |sb mb eb]; try (destruct Hb as [_ Hb]; discriminate);
    cbn [SFadd Fmag]; rewrite ?Rplus_0_l, ?Rplus_0_r.
  - destruct sa, sb; exists 0%R; (split; [apply Rnd_0|reflexivity]).
  - apply (Good_Rounds _ Hb).
  - apply (Good_Rounds _ Ha).
  - apply Good_finite in Ha as [-> Ha], Hb as [-> Hb]. cbn [cond_Zopp].
    set (ez := Z.min ea eb).
    destruct (binary_normalize_correct
                (Zpos (fst (shl_align ma ea ez)) + Zpos (fst (shl_align mb eb ez))) ez false)
      as (r & Hr & He); [lia|].
    apply (Encodes_Rounds _ r).
    + rewrite plus_IZR, Rmult_plus_distr_r, !shl_align_fst in Hr by (unfold ez; lia).
      exact Hr.
    + destruct (Z.eqb _ 0); exact He.
Qed.

Lemma SFsub_rounds (a b : spec_float) :
  Good a -> Good b -> (Fmag b <= Fmag a)%R ->
  Rounds (Fmag a - Fmag b) (SFsub prec emax a b).
Proof.
  intros Ha Hb Hle.
  destruct a as [sa|sa| |sa ma ea]; try (destruct Ha as [_ Ha]; discriminate);
  destruct b as [sb|sb| |sb mb eb]; try (destruct Hb as [_ Hb]; discriminate);
    cbn [SFsub Fmag] in *; rewrite ?Rminus_0_r.
  - destruct sa, sb; exists 0%R; (split; [apply Rnd_0|reflexivity]).
  - exfalso. apply Good_finite in Hb as [_ Hb].
    destruct (bounded_Rep mb eb Hb) as [_ [Hpos _]]. lra.
  - apply (Good_Rounds _ Ha).
  - apply Good_finite in Ha as [-> Ha], Hb as [-> Hb]. cbn [cond_Zopp].
    set (ez := Z.min ea eb).
    pose proof (shl_align_fst ma ea ez ltac:(unfold ez; lia)) as Hva.
    pose proof (shl_align_fst mb eb ez ltac:(unfold ez; lia)) as Hvb.
    pose proof (bpow_gt_0 ez) as Hez.
    assert (Hnn : 0 <= Zpos (fst (shl_align ma ea ez)) - Zpos (fst (shl_align mb eb ez))).
    { assert (IZR (Zpos (fst (shl_align mb eb ez))) <= IZR (Zpos (fst (shl_align ma ea ez))))%R
        by nra.
      apply le_IZR in H. lia. }
    destruct (binary_normalize_correct
                (Zpos (fst (shl_align ma ea ez)) - Zpos (fst (shl_align mb eb ez))) ez false Hnn)
      as (r & Hr & He).
    apply (Encodes_Rounds _ r).
    + rewrite minus_IZR, Rmult_minus_distr_r, Hva, Hvb in Hr. exact Hr.
    + destruct (Z.eqb _ 0); exact He.
Qed.

Lemma SFof_int_rounds (z : Z) : 0 <= z -> Rounds (IZR z) (SFof_int prec emax z).
Proof.
  intros Hz. unfold SFof_int.
  destruct (binary_normalize_correct z 0 false Hz) as (r & Hr & He).
  rewrite bpow_0, Rmult_1_r in Hr.
  apply (Encodes_Rounds _ r _ Hr). destruct (Z.eqb z 0); exact He.
Qed.

(** The location that the division computes from the remainder. *)
Lemma new_location_approx (nb k q : Z) :
  0 < nb -> 0 <= k < nb -> 0 <= q ->
  approx (IZR q + IZR k / IZR nb) (shr_record_of_loc q (new_location nb k)).
Proof.
  intros Hnb [Hk0 Hk1] Hq. split; [rewrite shr_m_record_of_loc; exact Hq|].
  rewrite shr_m_record_of_loc.
  replace (IZR q + IZR k / IZR nb - IZR q)%R with (IZR k / IZR nb)%R by ring.
  assert (HN : (0 < IZR nb)%R) by (apply IZR_lt; lia).
  assert (Hi : (0 < / IZR nb)%R) by (apply Rinv_0_lt_compat, HN).
  assert (HNi : (IZR nb * / IZR nb = 1)%R) by (apply Rinv_r; lra).
  assert (HK0 : (0 <= IZR k)%R) by (apply IZR_le; lia).
  assert (HK1 : (IZR k < IZR nb)%R) by (apply IZR_lt; lia).
  unfold new_location, new_location_even, new_location_odd, Rdiv.
  destruct (Z.even nb) eqn:Hev; cbv beta;
    (destruct (Z.eqb_spec k 0) as [Hk|Hne];
     [subst k; cbn [shr_record_of_loc shr_r shr_s loc_ok]; lra|]).
  - assert (HKpos : (0 < IZR k)%R) by (apply IZR_lt; lia).
    destruct (Z.compare_spec (2 * k) nb) as [Hc|Hc|Hc];
      cbn [shr_record_of_loc shr_r shr_s loc_ok].
    + rewrite <- Hc, mult_IZR. field. lra.
    + apply IZR_lt in Hc. rewrite mult_IZR in Hc. nra.
    + apply IZR_lt in Hc. rewrite mult_IZR in Hc. nra.
  - assert (HKpos : (0 < IZR k)%R) by (apply IZR_lt; lia).
    assert (Hodd : Z.odd nb = true) by (rewrite <- Z.negb_even, Hev; reflexivity).
    apply Z.odd_spec in Hodd as [j Hj].
    destruct (Z.compare_spec (2 * k + 1) nb) as [Hc|Hc|Hc];
      cbn [shr_record_of_loc shr_r shr_s loc_ok].
    + assert (Hc' : 2 * k < nb) by lia. apply IZR_lt in Hc'. rewrite mult_IZR in Hc'. nra.
    + assert (Hc' : 2 * k < nb) by lia. apply IZR_lt in Hc'. rewrite mult_IZR in Hc'. nra.
    + assert (Hc' : nb < 2 * k) by lia. apply IZR_lt in Hc'. rewrite mult_IZR in Hc'. nra.
Qed.

(** The core of the division: an integer quotient with the location of
    the exact quotient, at an exponent not above that of the format. *)
Lemma SFdiv_core_correct (ma mb : positive) (ea eb : Z) :
  let q := fst (fst (SFdiv_core_binary prec emax (Zpos ma) ea (Zpos mb) eb)) in
  let e' := snd (fst (SFdiv_core_binary prec emax (Zpos ma) ea (Zpos mb) eb)) in
  let l := snd (SFdiv_core_binary prec emax (Zpos ma) ea (Zpos mb) eb) in
  exists x : R,
    approx x (shr_record_of_loc q l)
    /\ (x * bpow e' = (IZR (Zpos ma) * bpow ea) / (IZR (Zpos mb) * bpow eb))%R
    /\ e' <= fexp (Zdigits2 q + e').
Proof.
  unfold SFdiv_core_binary. cbn [Zdigits2].
  set (d1 := Zpos (digits2_pos ma)). set (d2 := Zpos (digits2_pos mb)).
  set (e' := Z.min (fexp (d1 + ea - (d2 + eb))) (ea - eb)).
  set (s := ea - eb - e').
  assert (Hs : 0 <= s) by (unfold s, e'; lia).
  set (m' := match s with Zpos _ => Z.shiftl (Zpos ma) s | 0 => Zpos ma | Zneg _ => 0 end).
  assert (Hm' : m' = Zpos ma * 2 ^ s).
  { unfold m'. destruct s as [|p|p]; [simpl; lia | apply Z.shiftl_mul_pow2; lia | lia]. }
  pose proof (Z_div_mod m' (Zpos mb) ltac:(lia)) as Hdiv.
  destruct (Z.div_eucl m' (Zpos mb)) as [q r]. destruct Hdiv as [Hdiv Hr].
  cbn [fst snd].
  assert (Hpow : 0 < 2 ^ s) by (apply Z.pow_pos_nonneg; lia).
  assert (Hq : 0 <= q) by nia.
  exists (IZR q + IZR r / IZR (Zpos mb))%R. split; [|split].
  - apply new_location_approx; lia.
  - assert (HB : (0 < IZR (Zpos mb))%R) by (apply IZR_lt; lia).
    pose proof (bpow_gt_0 e') as He'. pose proof (bpow_gt_0 eb) as Heb.
    replace ea with (s + (e' + eb)) by (unfold s; ring).
    rewrite !bpow_add, (bpow_IZR s) by lia.
    assert (Hm : (IZR (Zpos ma) * IZR (2 ^ s) = IZR (Zpos mb) * IZR q + IZR r)%R).
    { rewrite <- !mult_IZR, <- plus_IZR. f_equal. lia. }
    replace (IZR (Zpos ma) * (IZR (2 ^ s) * (bpow e' * bpow eb)))%R
      with ((IZR (Zpos mb) * IZR q + IZR r) * (bpow e' * bpow eb))%R
      by (rewrite <- Hm; ring).
    field. lra.
  - pose proof (digits2_pos_bounds ma) as [Hla _]. fold d1 in Hla.
    pose proof (digits2_pos_bounds mb) as [_ Hhb]. fold d2 in Hhb.
    assert (Hd1 : 0 < d1) by (unfold d1; lia).
    assert (Hd2 : 0 < d2) by (unfold d2; lia).
    destruct (Z_lt_ge_dec (d1 - 1 + s - d2) 0) as [Hneg|Hnn].
    + pose proof (fexp_ge_emin (Zdigits2 q + e')).
      unfold s, e', SpecFloat.fexp in *. lia.
    + set (k := d1 - 1 + s - d2) in *.
      assert (Hk : 2 ^ k <= q).
      { destruct (Z_le_gt_dec (2 ^ k) q) as [H|H]; [exact H|exfalso].
        assert (Hpk : 0 < 2 ^ k) by (apply Z.pow_pos_nonneg; lia).
        assert (Heq : 2 ^ d2 * 2 ^ k = 2 ^ (d1 - 1) * 2 ^ s).
        { rewrite <- !Z.pow_add_r by lia. f_equal. unfold k. ring. }
        assert (H1 : Zpos mb * q + r < Zpos mb * 2 ^ k) by nia.
        assert (H2 : Zpos mb * 2 ^ k < 2 ^ d2 * 2 ^ k) by nia.
        assert (H3 : 2 ^ (d1 - 1) * 2 ^ s <= Zpos ma * 2 ^ s) by nia.
        lia. }
      assert (Hqpos : 0 < q).
      { assert (0 < 2 ^ k) by (apply Z.pow_pos_nonneg; lia). lia. }
      pose proof (Zdigits2_bounds q Hqpos) as [_ Hhq].
      pose proof (Zdigits2_nonneg q).
      assert (Hdq : k < Zdigits2 q) by (apply (Z.pow_lt_mono_r_iff 2); lia).
      assert (Hmono : fexp (d1 + ea - (d2 + eb)) <= fexp (Zdigits2 q + e')).
      { apply fexp_mono. unfold k, s in Hdq. lia. }
      unfold e' at 1. lia.
Qed.

Lemma SFdiv_rounds (a b : spec_float) :
  Good a -> Good b -> (0 < Fmag b)%R ->
  Rounds (Fmag a / Fmag b) (SFdiv prec emax a b).
Proof.
  intros Ha Hb Hpos.
  destruct b as [sb|sb| |sb mb eb]; try (destruct Hb as [_ Hb]; discriminate);
    [cbn [Fmag] in Hpos; lra|].
  destruct a as [sa|sa| |sa ma ea]; try (destruct Ha as [_ Ha]; discriminate).
  - cbn [SFdiv Fmag]. unfold Rdiv. rewrite Rmult_0_l.
    exists 0%R. split; [apply Rnd_0|reflexivity].
  - apply Good_finite in Ha as [-> Ha], Hb as [-> Hb]. cbn [SFdiv Fmag xorb].
    pose proof (SFdiv_core_correct ma mb ea eb) as (x & Hx & Hv & He). cbn zeta in *.
    destruct (SFdiv_core_binary prec emax (Zpos ma) ea (Zpos mb) eb) as [[q e'] l].
    cbn [fst snd] in *.
    destruct (binary_round_aux_correct false q e' l x Hx He) as (r & Hr & Henc).
    rewrite Hv in Hr. apply (Encodes_Rounds _ r _ Hr Henc).
Qed.

(** *** Comparisons *)

Lemma SFcompare_Good (a b : spec_float) :
  Good a -> Good b ->
  match SFcompare a b with
  | Some Lt => (Fmag a < Fmag b)%R
  | Some Eq => Fmag a = Fmag b
  | Some Gt => (Fmag b < Fmag a)%R
  | None => False
  end.
Proof.
  intros Ha Hb.
  destruct a as [sa|sa| |sa ma ea]; try (destruct Ha as [_ Ha]; discriminate);
  destruct b as [sb|sb| |sb mb eb]; try (destruct Hb as [_ Hb]; discriminate).
  - reflexivity.
  - apply Good_finite in Hb as [-> Hb]. cbn [SFcompare Fmag].
    apply bounded_Rep in Hb as [_ [Hb _]]. exact Hb.
  - apply Good_finite in Ha as [-> Ha]. cbn [SFcompare Fmag].
    apply bounded_Rep in Ha as [_ [Ha _]]. exact Ha.
  - apply Good_finite in Ha as [-> Ha], Hb as [-> Hb].
    apply bounded_canonical in Ha as [Ha _], Hb as [Hb _].
    apply SFcompare_canonical; assumption.
Qed.

Lemma SFleb_Good (a b : spec_float) :
  Good a -> Good b -> (SFleb a b = true <-> (Fmag a <= Fmag b)%R).
Proof.
  intros Ha Hb. pose proof (SFcompare_Good a b Ha Hb) as H. unfold SFleb.
  destruct (SFcompare a b) as [[| |]|]; [| | |contradiction];
    split; intros H'; try reflexivity; try discriminate; lra.
Qed.

Lemma SFltb_Good (a b : spec_float) :
  Good a -> Good b -> (SFltb a b = true <-> (Fmag a < Fmag b)%R).
Proof.
  intros Ha Hb. pose proof (SFcompare_Good a b Ha Hb) as H. unfold SFltb.
  destruct (SFcompare a b) as [[| |]|]; [| | |contradiction];
    split; intros H'; try reflexivity; try discriminate; lra.
Qed.

(** A valid float between a zero and a finite float is good. *)
Lemma between_Good (z : bool) (x hi : spec_float) :
  valid_binary prec emax x = true -> is_finite hi = true ->
  SFleb (S754_zero z) x = true -> SFleb x hi = true -> Good x.
Proof.
  intros Hv Hhi H0 H1. split; [exact Hv|].
  destruct x as [s|[|]| |[|] m e]; try reflexivity; try discriminate.
  destruct hi as [s|s| |s m e]; try discriminate.
Qed.

(** *** The integer part *)

Lemma Zfloor_spec (m : positive) (e : Z) :
  let k := Zfloor false m e in
  0 <= k /\ (IZR k <= IZR (Zpos m) * bpow e < IZR k + 1)%R.
Proof.
  unfold Zfloor. cbn [cond_Zopp]. destruct (Z_le_gt_dec 0 e) as [He|He].
  - rewrite Z.shiftl_mul_pow2 by lia. rewrite mult_IZR, <- bpow_IZR by lia.
    split; [|lra]. pose proof (Z.pow_pos_nonneg 2 e). nia.
  - rewrite Z.shiftl_div_pow2 by lia.
    assert (Hp : 0 < 2 ^ (- e)) by (apply Z.pow_pos_nonneg; lia).
    pose proof (Z.div_mod (Zpos m) (2 ^ (- e)) ltac:(lia)) as Hdm.
    pose proof (Z.mod_pos_bound (Zpos m) (2 ^ (- e)) Hp) as Hr.
    set (k := Zpos m / 2 ^ (- e)) in *. set (r := Zpos m mod 2 ^ (- e)) in *.
    split; [apply Z.div_pos; lia|].
    assert (Hbe : bpow e = (/ IZR (2 ^ (- e)))%R).
    { rewrite <- bpow_IZR, <- bpow_opp by lia. f_equal. ring. }
    rewrite Hbe.
    assert (HP : (0 < IZR (2 ^ (- e)))%R) by (apply IZR_lt, Hp).
    assert (Hm : (IZR (Zpos m) = IZR (2 ^ (- e)) * IZR k + IZR r)%R).
    { rewrite <- mult_IZR, <- plus_IZR. f_equal. exact Hdm. }
    assert (Hr0 : (0 <= IZR r)%R) by (apply IZR_le; lia).
    assert (Hr1 : (IZR r < IZR (2 ^ (- e)))%R) by (apply IZR_lt; lia).
    assert (Hi : (0 < / IZR (2 ^ (- e)))%R) by (apply Rinv_0_lt_compat, HP).
    assert (HPi : (IZR (2 ^ (- e)) * / IZR (2 ^ (- e)) = 1)%R) by (apply Rinv_r; lra).
    rewrite Hm.
    replace ((IZR (2 ^ (- e)) * IZR k + IZR r) * / IZR (2 ^ (- e)))%R
      with (IZR k + IZR r * / IZR (2 ^ (- e)))%R by (field; lra).
    assert (0 <= IZR r * / IZR (2 ^ (- e)) < 1)%R by (split; nra). lra.
Qed.

(** Integers below [2^prec] convert exactly. *)
Lemma SFof_int_exact (k : Z) :
  0 <= k < 2 ^ prec ->
  Good (SFof_int prec emax k) /\ Fmag (SFof_int prec emax k) = IZR k.
Proof.
  intros [Hk0 Hprec].
  assert (Hrepk : Rep (IZR k)).
  { exists k, 0. rewrite bpow_0, Rmult_1_r. pose proof emin_le_0. repeat split; lia. }
  destruct (Rounds_Good (IZR k) (IZR k) (SFof_int prec emax k)) as [Hg Hr].
  - apply SFof_int_rounds, Hk0.
  - exact Hrepk.
  - lra.
  - apply Rlt_le_trans with (bpow prec); [|apply bpow_le; lia].
    rewrite bpow_IZR by lia. apply IZR_lt, Hprec.
  - split; [exact Hg|]. apply Rnd_exact; assumption.
Qed.

Lemma Good_floor_exists (q : spec_float) :
  Good q -> exists k, 0 <= k /\ (IZR k <= Fmag q < IZR k + 1)%R.
Proof.
  intros Hq. destruct q as [s|s| |s m e]; try (destruct Hq as [_ Hq]; discriminate).
  - exists 0. cbn [Fmag]. split; [lia|lra].
  - apply Good_finite in Hq as [-> Hq]. exists (Zfloor false m e). apply Zfloor_spec.
Qed.

(** The integer part of a good float below [2^prec], as [std::floor]
    followed by the conversion to [int] computes it. *)
Lemma SFto_int_floor (q : spec_float) (k : Z) :
  Good q -> (IZR k <= Fmag q < IZR k + 1)%R -> k < 2 ^ prec -> k <= Int.INT_MAX ->
  SFto_int (SFfloor prec emax q) = k
  /\ Good (SFof_int prec emax k) /\ Fmag (SFof_int prec emax k) = IZR k.
Proof.
  intros Hq Hk Hprec Hmax.
  assert (Hk0 : 0 <= k).
  { destruct (Good_Rep q Hq) as [Hrep _]. apply Rep_nonneg in Hrep.
    assert (0 < k + 1) by (apply lt_IZR; rewrite plus_IZR; lra). lia. }
  pose proof (SFof_int_exact k ltac:(lia)) as Hof.
  split; [|exact Hof].
  assert (Hint : forall f, Good f -> Fmag f = IZR k -> SFto_int f = k).
  { intros f Hf Hv. destruct f as [s|s| |s m e]; try (destruct Hf as [_ Hf]; discriminate).
    - cbn [SFto_int Fmag] in *. apply eq_IZR. lra.
    - apply Good_finite in Hf as [-> Hf]. cbn [SFto_int cond_Zopp Fmag] in *.
      pose proof (Zfloor_spec m e) as [_ Hfl]. unfold Zfloor in Hfl. cbn [cond_Zopp] in Hfl.
      assert (Heq : Z.shiftl (Zpos m) e = k).
      { apply (IZR_floor_unique _ _ _ Hfl). lra. }
      rewrite Heq.
      assert (Hin : (Int.INT_MIN <=? k) && (k <=? Int.INT_MAX) = true).
      { apply andb_true_intro. split; apply Z.leb_le; [|exact Hmax].
        unfold Int.INT_MIN. pose proof (Z.pow_pos_nonneg 2 31). lia. }
      rewrite Hin. reflexivity. }
  destruct q as [s|s| |s m e]; try (destruct Hq as [_ Hq]; discriminate).
  - cbn [SFfloor SFto_int Fmag] in *.
    assert (k < 1) by (apply lt_IZR; lra). lia.
  - apply Good_finite in Hq as [-> Hq]. cbn [SFfloor Fmag] in *.
    pose proof (Zfloor_spec m e) as [_ Hfl].
    assert (Heq : Zfloor false m e = k) by (apply (IZR_floor_unique _ _ _ Hfl Hk)).
    rewrite Heq. apply Hint; apply Hof.
Qed.

(** *** Exact results *)

(** A float that encodes the magnitude of a valid mantissa is that
    mantissa. *)
Lemma Encodes_bounded (s : bool) (r : R) (f : spec_float) (m : positive) (e : Z) :
  Encodes s r f -> bounded prec emax m e = true -> r = (IZR (Zpos m) * bpow e)%R ->
  f = S754_finite s m e.
Proof.
  intros He Hb Hr. destruct (bounded_Rep m e Hb) as [_ [Hpos Hmax]].
  destruct f as [s'|s'| |s' m' e']; cbn [Fmt.Encodes] in He.
  - destruct He as [_ He]. lra.
  - destruct He as [_ He]. lra.
  - contradiction.
  - destruct He as (-> & Hb' & Hv).
    apply bounded_canonical in Hb as [Hc _], Hb' as [Hc' _].
    destruct (canonical_unique m' m e' e Hc' Hc) as [-> ->]; [lra|reflexivity].
Qed.

Lemma SFmul_finite_correct (sa sb : bool) (ma mb : positive) (ea eb : Z) :
  bounded prec emax ma ea = true -> bounded prec emax mb eb = true ->
  exists r, Rnd (IZR (Zpos ma) * bpow ea * (IZR (Zpos mb) * bpow eb)) r
            /\ Encodes (xorb sa sb) r
                 (SFmul prec emax (S754_finite sa ma ea) (S754_finite sb mb eb)).
Proof.
  intros Ha Hb. cbn [SFmul].
  apply bounded_canonical in Ha as [Ha _], Hb as [Hb _].
  destruct (binary_round_aux_correct (xorb sa sb) (Zpos (ma * mb)) (ea + eb) loc_Exact
              (IZR (Zpos (ma * mb)))) as (r & Hr & He).
  - apply approx_record_of_loc_exact. lia.
  - cbn [Zdigits2].
    pose proof (digits2_pos_bounds ma) as [Hla Hha].
    pose proof (digits2_pos_bounds mb) as [Hlb Hhb].
    pose proof (digits2_pos_bounds (ma * mb)) as [_ Hhab].
    assert (Hd : Zpos (digits2_pos ma) + Zpos (digits2_pos mb) - 2
                 < Zpos (digits2_pos (ma * mb))).
    { apply (Z.pow_lt_mono_r_iff 2); [lia|lia|].
      replace (Zpos (digits2_pos ma) + Zpos (digits2_pos mb) - 2)
        with ((Zpos (digits2_pos ma) - 1) + (Zpos (digits2_pos mb) - 1)) by ring.
      rewrite Z.pow_add_r by lia. rewrite Pos2Z.inj_mul in Hhab. nia. }
    pose proof emin_le_0. unfold SpecFloat.fexp in *. lia.
  - exists r. split; [|exact He].
    rewrite Pos2Z.inj_mul, mult_IZR, bpow_add in Hr.
    replace (IZR (Zpos ma) * bpow ea * (IZR (Zpos mb) * bpow eb))%R
      with (IZR (Zpos ma) * IZR (Zpos mb) * (bpow ea * bpow eb))%R by ring.
    exact Hr.
Qed.

(** Multiplying by a float of magnitude one changes at most the sign. *)
Lemma SFmul_unit (sa s : bool) (ma m : positive) (ea e : Z) :
  bounded prec emax ma ea = true -> (IZR (Zpos ma) * bpow ea = 1)%R ->
  bounded prec emax m e = true ->
  SFmul prec emax (S754_finite sa ma ea) (S754_finite s m e) = S754_finite (xorb sa s) m e.
Proof.
  intros Ha H1 Hb. destruct (SFmul_finite_correct sa s ma m ea e Ha Hb) as (r & Hr & He).
  rewrite H1, Rmult_1_l in Hr.
  apply (Encodes_bounded _ r _ _ _ He Hb).
  apply Rnd_exact; [apply bounded_Rep, Hb|exact Hr].
Qed.

(** Two good floats of the same magnitude differ at most in the sign of
    a zero. *)
Lemma Good_same_magnitude (a b : spec_float) :
  Good a -> Good b -> Fmag a = Fmag b -> (0 < Fmag a)%R -> a = b.
Proof.
  intros Ha Hb Heq Hpos.
  destruct a as [sa|sa| |sa ma ea]; try (destruct Ha as [_ Ha]; discriminate);
    [cbn [Fmag] in Hpos; lra|].
  destruct b as [sb|sb| |sb mb eb]; try (destruct Hb as [_ Hb]; discriminate);
    [cbn [Fmag] in *; lra|].
  apply Good_finite in Ha as [-> Ha], Hb as [-> Hb]. cbn [Fmag] in Heq.
  apply bounded_canonical in Ha as [Ha _], Hb as [Hb _].
  destruct (canonical_unique ma mb ea eb Ha Hb Heq) as [-> ->]. reflexivity.
Qed.

Lemma SFeqb_Good (a b : spec_float) :
  Good a -> Good b -> (SFeqb a b = true <-> Fmag a = Fmag b).
Proof.
  intros Ha Hb. pose proof (SFcompare_Good a b Ha Hb) as H. unfold SFeqb.
  destruct (SFcompare a b) as [[| |]|]; [| | |contradiction];
    split; intros H'; try reflexivity; try discriminate; lra.
Qed.

End Rounding.

(** ** binary32 *)

Lemma prec32_gt_0 : 0 < F32.prec.
Proof. reflexivity. Qed.

Lemma prec32_lt_emax : F32.prec < F32.emax.
Proof. reflexivity. Qed.

Create HintDb f32.
#[local] Hint Resolve prec32_gt_0 prec32_lt_emax : f32.

Ltac f32 lemma := eapply lemma; eauto with f32.

Lemma Good32_Rep (x : spec_float) :
  Good32 x -> Rep32 (Fmag x) /\ (Fmag x < bpow F32.emax)%R.
Proof. f32 Good_Rep. Qed.

Lemma Good32_nonneg (x : spec_float) : Good32 x -> (0 <= Fmag x)%R.
Proof. intros Hx. apply (Rep_nonneg F32.prec F32.emax), Good32_Rep, Hx. Qed.

Lemma Rounds32_Good (x y : R) (f : spec_float) :
  Rounds32 x f -> Rep32 y -> (x <= y)%R -> (y < bpow F32.emax)%R ->
  Good32 f /\ Rnd32 x (Fmag f).
Proof. f32 Rounds_Good. Qed.

Lemma mul32_rounds (a b : spec_float) :
  Good32 a -> Good32 b -> Rounds32 (Fmag a * Fmag b) (F32.mul a b).
Proof. f32 SFmul_rounds. Qed.

Lemma add32_rounds (a b : spec_float) :
  Good32 a -> Good32 b -> Rounds32 (Fmag a + Fmag b) (F32.add a b).
Proof. f32 SFadd_rounds. Qed.

Lemma sub32_rounds (a b : spec_float) :
  Good32 a -> Good32 b -> (Fmag b <= Fmag a)%R -> Rounds32 (Fmag a - Fmag b) (F32.sub a b).
Proof. f32 SFsub_rounds. Qed.

Lemma div32_rounds (a b : spec_float) :
  Good32 a -> Good32 b -> (0 < Fmag b)%R -> Rounds32 (Fmag a / Fmag b) (F32.div a b).
Proof. f32 SFdiv_rounds. Qed.

Lemma of_int32_rounds (z : Z) : 0 <= z -> Rounds32 (IZR z) (F32.of_int z).
Proof. f32 SFof_int_rounds. Qed.

Lemma Rnd32_le (x r y : R) : Rnd32 x r -> Rep32 y -> (x <= y)%R -> (r <= y)%R.
Proof. f32 Rnd_le. Qed.

Lemma Rnd32_ge (x r y : R) : Rnd32 x r -> Rep32 y -> (y <= x)%R -> (y <= r)%R.
Proof. f32 Rnd_ge. Qed.

Lemma Rnd32_exact (x r : R) : Rep32 x -> Rnd32 x r -> r = x.
Proof. f32 Rnd_exact. Qed.

Lemma Rnd32_mono (x1 r1 x2 r2 : R) :
  Rnd32 x1 r1 -> Rnd32 x2 r2 -> (x1 < x2)%R -> (r1 <= r2)%R.
Proof. f32 Rnd_mono. Qed.

Lemma leb32 (a b : spec_float) :
  Good32 a -> Good32 b -> (SFleb a b = true <-> (Fmag a <= Fmag b)%R).
Proof. f32 SFleb_Good. Qed.

Lemma ltb32 (a b : spec_float) :
  Good32 a -> Good32 b -> (SFltb a b = true <-> (Fmag a < Fmag b)%R).
Proof. f32 SFltb_Good. Qed.

Lemma Good32_floor (q : spec_float) :
  Good32 q -> exists k, 0 <= k /\ (IZR k <= Fmag q < IZR k + 1)%R.
Proof. f32 Good_floor_exists. Qed.

Lemma flit_exact (k : Z) : 0 <= k < 2 ^ 24 -> Good32 (flit k) /\ Fmag (flit k) = IZR k.
Proof. intros Hk. f32 SFof_int_exact. Qed.

Lemma to_int_floor32 (q : spec_float) (k : Z) :
  Good32 q -> (IZR k <= Fmag q < IZR k + 1)%R -> k < 2 ^ 24 ->
  F32.to_int (F32.floor q) = k.
Proof.
  intros Hq Hk Hlt. f32 SFto_int_floor. unfold Int.INT_MAX.
  assert (2 ^ 24 < 2 ^ 31) by (apply Z.pow_lt_mono_r; lia). lia.
Qed.

Lemma Rep32_IZR (k : Z) : 0 <= k < 2 ^ 24 -> Rep32 (IZR k) /\ (IZR k < bpow F32.emax)%R.
Proof.
  intros Hk. destruct (flit_exact k Hk) as [Hg Hv]. rewrite <- Hv.
  apply Good32_Rep, Hg.
Qed.

Lemma within_Good (hi x : spec_float) :
  valid_binary F32.prec F32.emax x = true -> is_finite hi = true ->
  within hi x -> Good32 x.
Proof.
  intros Hv Hhi [H0 H1]. apply (between_Good _ _ false x hi Hv Hhi H0 H1).
Qed.

Lemma Good32_within (hi x : spec_float) :
  Good32 hi -> Good32 x -> (Fmag x <= Fmag hi)%R -> within hi x.
Proof.
  intros Hhi Hx Hle. unfold within, F32.ge. split.
  - destruct x as [s|s| |s m e]; try (destruct Hx as [_ Hx]; discriminate); [reflexivity|].
    apply Good_finite in Hx as [-> _]. reflexivity.
  - apply leb32; assumption.
Qed.

Lemma within_le (hi x : spec_float) :
  Good32 hi -> Good32 x -> within hi x -> (Fmag x <= Fmag hi)%R.
Proof. intros Hhi Hx [_ H]. apply leb32; assumption. Qed.

Lemma one_minus_U01 (x : spec_float) : U01 x -> U01 (F32.sub (flit 1) x).
Proof.
  intros [Hx Hle]. destruct (flit_exact 1 ltac:(lia)) as [H1 Hv1].
  pose proof (Good32_nonneg x Hx) as Hnn.
  destruct (Rep32_IZR 1 ltac:(lia)) as [Hrep Hmax].
  destruct (Rounds32_Good (Fmag (flit 1) - Fmag x) 1 (F32.sub (flit 1) x))
    as [Hg Hr]; [|exact Hrep|rewrite Hv1; lra|exact Hmax|].
  - apply sub32_rounds; [exact H1|exact Hx|rewrite Hv1; exact Hle].
  - split; [exact Hg|]. apply (Rnd32_le _ _ _ Hr Hrep). rewrite Hv1. lra.
Qed.

Lemma mul_U01 (a b : spec_float) :
  Good32 a -> U01 b -> Good32 (F32.mul a b) /\ (Fmag (F32.mul a b) <= Fmag a)%R.
Proof.
  intros Ha [Hb Hle].
  pose proof (Good32_nonneg a Ha) as Hna. pose proof (Good32_nonneg b Hb) as Hnb.
  destruct (Good32_Rep a Ha) as [Hrep Hmax].
  destruct (Rounds32_Good (Fmag a * Fmag b) (Fmag a) (F32.mul a b))
    as [Hg Hr]; [|exact Hrep|nra|exact Hmax|].
  - apply mul32_rounds; assumption.
  - split; [exact Hg|]. apply (Rnd32_le _ _ _ Hr Hrep). nra.
Qed.

(** ** The intermediate values of [rgb_from_hsv] *)

Lemma rgb_from_hsv_unfold (h s v : spec_float) :
  rgb_from_hsv (mkVec3 h s v)
  = let hue := hsv_hue h in
    if F32.lt v FLT_EPSILON then mkVec3 (flit 0) (flit 0) (flit 0)
    else if F32.lt s FLT_EPSILON then mkVec3 v v v
    else match hsv_hi hue with
         | 0 => mkVec3 v (hsv_t hue s v) (hsv_p s v)
         | 1 => mkVec3 (hsv_q hue s v) v (hsv_p s v)
         | 2 => mkVec3 (hsv_p s v) v (hsv_t hue s v)
         | 3 => mkVec3 (hsv_p s v) (hsv_q hue s v) v
         | 4 => mkVec3 (hsv_t hue s v) (hsv_p s v) v
         | 5 => mkVec3 v (hsv_p s v) (hsv_q hue s v)
         | _ => mkVec3 (flit 0) (flit 0) (flit 0)
         end.
Proof. reflexivity. Qed.

(** Closed integer inequalities. *)
Ltac zle := vm_compute; (reflexivity || discriminate).

Lemma bpow_m21 : (bpow (-21) * 2097152 = 1)%R.
Proof.
  change (-21) with (Z.opp 21). rewrite bpow_opp, (bpow_IZR 21) by lia.
  change (2 ^ 21) with 2097152. field.
Qed.

Lemma bpow_m15 : (bpow (-15) * 32768 = 1)%R.
Proof.
  change (-15) with (Z.opp 15). rewrite bpow_opp, (bpow_IZR 15) by lia.
  change (2 ^ 15) with 32768. field.
Qed.

(** A non-negative hue, once normalized, is a good float below 360 by
    at least one unit in the last place. *)
Lemma hsv_hue_range (h : spec_float) :
  valid_binary F32.prec F32.emax h = true ->
  F32.ge h (flit 0) = true ->
  Good32 (hsv_hue h) /\ (Fmag (hsv_hue h) <= 11796479 * bpow (-15))%R.
Proof.
  intros Hv H0.
  destruct (flit_exact 360 ltac:(lia)) as [H360 Hv360].
  pose proof bpow_m15 as Hb. pose proof (bpow_gt_0 (-15)) as Hb0.
  unfold hsv_hue. destruct (F32.ge h (flit 360)) eqn:Hge.
  - destruct (flit_exact 0 ltac:(lia)) as [Hg0 Hv0]. split; [exact Hg0|]. rewrite Hv0. nra.
  - assert (Hg : Good32 h).
    { split; [exact Hv|].
      destruct h as [sg|[|]| |[|] m e]; try reflexivity; try discriminate. }
    split; [exact Hg|].
    assert (Hlt : (Fmag h < 360)%R).
    { destruct (Rlt_le_dec (Fmag h) 360) as [H|H]; [exact H|exfalso].
      rewrite <- Hv360 in H. apply (leb32 _ _ H360 Hg) in H.
      unfold F32.ge in Hge. congruence. }
    destruct (Good32_Rep h Hg) as [Hrep _].
    destruct (Rep_gap F32.prec F32.emax prec32_gt_0 11796479 (-15) (Fmag h))
      as [Hle|Hge']; [lia | zle | right; zle | exact Hrep | exact Hle |].
    exfalso. change (11796479 + 1) with 11796480 in Hge'. nra.
Qed.

Lemma floorZ_Good (q : spec_float) (k : Z) :
  Good32 q -> (IZR k <= Fmag q < IZR k + 1)%R -> floorZ q = k.
Proof.
  intros Hq Hk. destruct q as [s|s| |s m e]; try (destruct Hq as [_ Hq]; discriminate).
  - cbn [floorZ Fmag] in *. apply (IZR_floor_unique 0 k 0); lra.
  - apply Good_finite in Hq as [-> Hq]. cbn [floorZ Fmag] in *.
    pose proof (Zfloor_spec m e) as [_ Hfl]. apply (IZR_floor_unique _ _ _ Hfl Hk).
Qed.

(** The sector of a normalized hue is one of 0..5, it is the integer
    part of the rounded quotient, and the fraction [f] is in [0, 1]. *)
Lemma hsv_sector (hue : spec_float) :
  Good32 hue -> (Fmag hue <= 11796479 * bpow (-15))%R ->
  0 <= hsv_hi hue <= 5
  /\ floorZ (F32.div hue (flit 60)) = hsv_hi hue
  /\ U01 (hsv_f hue).
Proof.
  intros Hg Hle.
  destruct (flit_exact 60 ltac:(lia)) as [H60 Hv60].
  pose proof bpow_m15 as Hb15. pose proof bpow_m21 as Hb21.
  pose proof (Good32_nonneg hue Hg) as Hnn.
  assert (Hrep6 : Rep32 (12582911 * bpow (-21))).
  { exists 12582911, (-21). split; [reflexivity|]. split; [split|]; zle. }
  destruct (Rep32_IZR 6 ltac:(lia)) as [_ Hmax6].
  destruct (Rounds32_Good (Fmag hue / Fmag (flit 60)) (12582911 * bpow (-21))
              (F32.div hue (flit 60))) as [Hq Hr];
    [apply div32_rounds; [exact Hg|exact H60|rewrite Hv60; lra]
    | exact Hrep6 | rewrite Hv60; lra | lra |].
  set (q0 := F32.div hue (flit 60)) in *.
  assert (Hq6 : (Fmag q0 <= 12582911 * bpow (-21))%R).
  { apply (Rnd32_le _ _ _ Hr Hrep6). rewrite Hv60. lra. }
  destruct (Good32_floor q0 Hq) as (k & Hk0 & Hk).
  assert (Hk6 : k < 6) by (apply lt_IZR; lra).
  assert (Hto : F32.to_int (F32.floor q0) = k).
  { apply to_int_floor32; [exact Hq|exact Hk|]. assert (6 < 2 ^ 24) by zle. lia. }
  assert (Hhi : hsv_hi hue = k).
  { unfold hsv_hi. fold q0. rewrite Hto. apply Z.rem_small. lia. }
  rewrite Hhi. split; [lia|]. split; [apply floorZ_Good; assumption|].
  unfold hsv_f. fold q0. rewrite Hhi.
  assert (Hk24 : 0 <= k < 2 ^ 24) by (assert (6 < 2 ^ 24) by zle; lia).
  destruct (flit_exact k Hk24) as [Hgk Hvk]. change (F32.of_int k) with (flit k).
  destruct (Rep32_IZR 1 ltac:(lia)) as [Hrep1 Hmax1].
  destruct (Rounds32_Good (Fmag q0 - Fmag (flit k)) 1 (F32.sub q0 (flit k)))
    as [Hgf Hrf]; [|exact Hrep1|rewrite Hvk; lra|exact Hmax1|].
  - apply sub32_rounds; [exact Hq|exact Hgk|rewrite Hvk; lra].
  - split; [exact Hgf|]. apply (Rnd32_le _ _ _ Hrf Hrep1). rewrite Hvk. lra.
Qed.

Section UnitRange.
Variables h s v : spec_float.
Hypothesis h_valid : valid_binary F32.prec F32.emax h = true.
Hypothesis s_valid : valid_binary F32.prec F32.emax s = true.
Hypothesis v_valid : valid_binary F32.prec F32.emax v = true.
Hypothesis h_range : within (flit 360) h.
Hypothesis s_range : unit_interval s.
Hypothesis v_range : unit_interval v.

Lemma hsv_pqt_good :
  let hue := hsv_hue h in
  Good32 v /\ (Fmag v <= 1)%R
  /\ (Good32 (hsv_p s v) /\ (Fmag (hsv_p s v) <= Fmag v)%R)
  /\ (Good32 (hsv_q hue s v) /\ (Fmag (hsv_q hue s v) <= Fmag v)%R)
  /\ (Good32 (hsv_t hue s v) /\ (Fmag (hsv_t hue s v) <= Fmag v)%R)
  /\ 0 <= hsv_hi hue <= 5.
Proof.
  cbn zeta. destruct (flit_exact 1 ltac:(lia)) as [H1 Hv1].
  pose proof (within_Good (flit 1) s s_valid eq_refl s_range) as Hs.
  pose proof (within_Good (flit 1) v v_valid eq_refl v_range) as Hv.
  pose proof (within_le _ _ H1 Hs s_range) as Hs1. rewrite Hv1 in Hs1.
  pose proof (within_le _ _ H1 Hv v_range) as Hv1'. rewrite Hv1 in Hv1'.
  destruct (hsv_hue_range h h_valid (proj1 h_range)) as [Hhue Hhle].
  destruct (hsv_sector (hsv_hue h) Hhue Hhle) as (Hhi & _ & Hf).
  assert (HS : U01 s) by (split; assumption).
  split; [exact Hv|]. split; [exact Hv1'|].
  split; [|split; [|split; [|exact Hhi]]].
  - apply mul_U01; [exact Hv|]. apply one_minus_U01, HS.
  - apply mul_U01; [exact Hv|]. apply one_minus_U01.
    destruct (mul_U01 (hsv_f (hsv_hue h)) s (proj1 Hf) HS) as [Hg Hle].
    split; [exact Hg|]. destruct Hf as [_ Hf1]. lra.
  - apply mul_U01; [exact Hv|]. apply one_minus_U01.
    pose proof (one_minus_U01 _ Hf) as Hf'.
    destruct (mul_U01 _ s (proj1 Hf') HS) as [Hg Hle].
    split; [exact Hg|]. destruct Hf' as [_ Hf1]. lra.
Qed.

(** C10: for a hue in [0, 360] and a saturation and a value in [0, 1]
    (valid binary32 numbers), the intermediate values [p], [q] and [t]
    lie between zero and the value, and every channel of the result lies
    between zero and the value, so between zero and one; the code
    clamps nothing. *)
Theorem rgb_from_hsv_channels_in_unit_range :
  let hue := hsv_hue h in
  let rgb := rgb_from_hsv (mkVec3 h s v) in
  (within v (hsv_p s v) /\ within v (hsv_q hue s v) /\ within v (hsv_t hue s v))
  /\ (within v (vx rgb) /\ within v (vy rgb) /\ within v (vz rgb))
  /\ (unit_interval (vx rgb) /\ unit_interval (vy rgb) /\ unit_interval (vz rgb)).
Proof.
  cbn zeta. destruct hsv_pqt_good as (Hv & Hv1 & [Hp Hpl] & [Hq Hql] & [Ht Htl] & Hhi).
  destruct (flit_exact 1 ltac:(lia)) as [H1 Hf1].
  destruct (flit_exact 0 ltac:(lia)) as [H0 Hf0].
  pose proof (Good32_nonneg v Hv) as Hv0.
  assert (Hin : forall c, Good32 c -> (Fmag c <= Fmag v)%R -> within v c /\ unit_interval c).
  { intros c Hc Hle. split; apply Good32_within; try assumption. rewrite Hf1. lra. }
  assert (Hcv : within v v /\ unit_interval v) by (apply Hin; [exact Hv|lra]).
  assert (Hc0 : within v (flit 0) /\ unit_interval (flit 0))
    by (apply Hin; [exact H0|rewrite Hf0; exact Hv0]).
  pose proof (Hin _ Hp Hpl) as Hcp. pose proof (Hin _ Hq Hql) as Hcq.
  pose proof (Hin _ Ht Htl) as Hct.
  split; [tauto|].
  rewrite rgb_from_hsv_unfold. cbn zeta.
  destruct (F32.lt v FLT_EPSILON); [cbn [vx vy vz]; tauto|].
  destruct (F32.lt s FLT_EPSILON); [cbn [vx vy vz]; tauto|].
  assert (Hcases : hsv_hi (hsv_hue h) = 0 \/ hsv_hi (hsv_hue h) = 1 \/ hsv_hi (hsv_hue h) = 2
                   \/ hsv_hi (hsv_hue h) = 3 \/ hsv_hi (hsv_hue h) = 4
                   \/ hsv_hi (hsv_hue h) = 5) by lia.
  destruct Hcases as [E|[E|[E|[E|[E|E]]]]]; rewrite E; cbn [vx vy vz]; tauto.
Qed.

End UnitRange.

Lemma rgb_from_hsv_channels_in_unit_range_witness :
  let h := flit 30 in
  let s := F32.of_float d0_5 in
  let v := F32.of_float d0_8 in
  rgb_from_hsv (mkVec3 h s v)
  = mkVec3 (S754_finite false 13421773 (-24)) (S754_finite false 10066330 (-24))
           (S754_finite false 13421773 (-25))
  /\ unit_interval (vx (rgb_from_hsv (mkVec3 h s v)))
  /\ unit_interval (vy (rgb_from_hsv (mkVec3 h s v)))
  /\ unit_interval (vz (rgb_from_hsv (mkVec3 h s v))).
Proof.
  intros h s v. split; [reflexivity|].
  apply (rgb_from_hsv_channels_in_unit_range h s v); try reflexivity; split; reflexivity.
Defined.

(** ** The conversion against its reference definition *)

Lemma rgb_from_hsv_is_reference (h s v : spec_float) :
  valid_binary F32.prec F32.emax h = true -> F32.ge h (flit 0) = true ->
  rgb_from_hsv (mkVec3 h s v) = hsv_reference (mkVec3 h s v).
Proof.
  intros Hv H0. destruct (hsv_hue_range h Hv H0) as [Hhue Hhle].
  destruct (hsv_sector (hsv_hue h) Hhue Hhle) as (Hhi & Hfl & _).
  rewrite rgb_from_hsv_unfold. unfold hsv_reference. cbn [vx vy vz]. cbn zeta.
  fold (hsv_hue h).
  destruct (F32.lt v FLT_EPSILON); [reflexivity|].
  destruct (F32.lt s FLT_EPSILON); [reflexivity|].
  rewrite Hfl, (Z.mod_small (hsv_hi (hsv_hue h))) by lia.
  unfold hsv_t, hsv_q, hsv_p, hsv_f.
  assert (Hcases : hsv_hi (hsv_hue h) = 0 \/ hsv_hi (hsv_hue h) = 1 \/ hsv_hi (hsv_hue h) = 2
                   \/ hsv_hi (hsv_hue h) = 3 \/ hsv_hi (hsv_hue h) = 4
                   \/ hsv_hi (hsv_hue h) = 5) by lia.
  destruct Hcases as [E|[E|[E|[E|[E|E]]]]]; rewrite E; reflexivity.
Qed.

(** C2: the conversion is the reference definition on every valid
    non-negative hue; a hue of 360 or more is treated as hue 0; a value
    below epsilon gives black and otherwise a saturation below epsilon
    gives the gray of the value; pure red, green and blue come out of
    hues 0, 120 and 240. *)
Theorem rgb_from_hsv_matches_reference :
  (forall h s v,
     valid_binary F32.prec F32.emax h = true -> F32.ge h (flit 0) = true ->
     rgb_from_hsv (mkVec3 h s v) = hsv_reference (mkVec3 h s v))
  /\ (forall h s v,
        F32.ge h (flit 360) = true ->
        rgb_from_hsv (mkVec3 h s v) = rgb_from_hsv (mkVec3 (flit 0) s v))
  /\ (forall h s v,
        F32.lt v FLT_EPSILON = true ->
        rgb_from_hsv (mkVec3 h s v) = mkVec3 (flit 0) (flit 0) (flit 0))
  /\ (forall h s v,
        F32.lt v FLT_EPSILON = false -> F32.lt s FLT_EPSILON = true ->
        rgb_from_hsv (mkVec3 h s v) = mkVec3 v v v)
  /\ rgb_from_hsv (mkVec3 (flit 0) (flit 1) (flit 1)) = mkVec3 (flit 1) (flit 0) (flit 0)
  /\ rgb_from_hsv (mkVec3 (flit 120) (flit 1) (flit 1)) = mkVec3 (flit 0) (flit 1) (flit 0)
  /\ rgb_from_hsv (mkVec3 (flit 240) (flit 1) (flit 1)) = mkVec3 (flit 0) (flit 0) (flit 1)
  /\ (forall s v,
        rgb_from_hsv (mkVec3 (flit 360) s v) = rgb_from_hsv (mkVec3 (flit 0) s v)).
Proof.
  split; [exact rgb_from_hsv_is_reference|].
  assert (Hnorm : forall h s v, F32.ge h (flit 360) = true ->
            rgb_from_hsv (mkVec3 h s v) = rgb_from_hsv (mkVec3 (flit 0) s v)).
  { intros h s v Hge. rewrite !rgb_from_hsv_unfold.
    assert (Hh : hsv_hue h = flit 0) by (unfold hsv_hue; rewrite Hge; reflexivity).
    cbn zeta. rewrite Hh. reflexivity. }
  split; [exact Hnorm|]. split; [|split].
  - intros h s v Hlt. rewrite rgb_from_hsv_unfold. cbn zeta. rewrite Hlt. reflexivity.
  - intros h s v Hv Hs. rewrite rgb_from_hsv_unfold. cbn zeta. rewrite Hv, Hs. reflexivity.
  - split; [vm_compute; reflexivity|]. split; [vm_compute; reflexivity|].
    split; [vm_compute; reflexivity|].
    intros s v. apply Hnorm. reflexivity.
Qed.

Lemma rgb_from_hsv_matches_reference_witness :
  rgb_from_hsv (mkVec3 (flit 210) f0_5 f0_8) = hsv_reference (mkVec3 (flit 210) f0_5 f0_8)
  /\ rgb_from_hsv (mkVec3 (flit 210) f0_5 f0_8)
     = mkVec3 (S754_finite false 13421773 (-25)) (S754_finite false 10066330 (-24))
              (S754_finite false 13421773 (-24))
  /\ rgb_from_hsv (mkVec3 (flit 720) f0_5 f0_8) = rgb_from_hsv (mkVec3 (flit 0) f0_5 f0_8)
  /\ rgb_from_hsv (mkVec3 (flit 210) f0_5 (flit 0)) = mkVec3 (flit 0) (flit 0) (flit 0)
  /\ rgb_from_hsv (mkVec3 (flit 210) (flit 0) f0_8) = mkVec3 f0_8 f0_8 f0_8.
Proof.
  destruct rgb_from_hsv_matches_reference as (Href & Hnorm & Hblack & Hgray & _).
  split; [apply Href; reflexivity|]. split; [reflexivity|].
  split; [apply Hnorm; reflexivity|].
  split; [apply Hblack; reflexivity|apply Hgray; reflexivity].
Defined.

(** ** The rows of the gradient *)

Lemma bpow_m23 : (IZR (Zpos 8388608) * bpow (-23) = 1)%R.
Proof.
  change (-23) with (Z.opp 23). rewrite bpow_opp, (bpow_IZR 23) by lia.
  change (2 ^ 23) with 8388608. field.
Qed.

Lemma flit_1 : flit 1 = S754_finite false 8388608 (-23).
Proof. reflexivity. Qed.

Lemma mul_one (s : bool) (m : positive) (e : Z) :
  bounded F32.prec F32.emax m e = true ->
  F32.mul (flit 1) (S754_finite s m e) = S754_finite s m e.
Proof.
  intros Hb. rewrite flit_1. unfold F32.mul.
  rewrite (SFmul_unit F32.prec F32.emax prec32_gt_0 prec32_lt_emax false s 8388608 m (-23) e);
    [reflexivity | reflexivity | exact bpow_m23 | exact Hb].
Qed.

Lemma feq_refl_finite (x : spec_float) : is_finite x = true -> feq x x.
Proof.
  unfold feq, SFeqb. destruct x as [s|s| |s m e]; try discriminate; intros _.
  - reflexivity.
  - cbn [SFcompare]. rewrite Z.compare_refl, Pos.compare_cont_refl.
    destruct s; reflexivity.
Qed.

Lemma lerp_zero (a b : spec_float) :
  finite_valid a -> finite_valid b -> feq (lerp (S754_zero false) a b) a.
Proof.
  intros [Hva Hfa] [Hvb Hfb]. unfold lerp.
  change (F32.sub (flit 1) (S754_zero false)) with (flit 1).
  destruct a as [sa|sa| |sa ma ea]; try discriminate;
  destruct b as [sb|sb| |sb mb eb]; try discriminate;
    rewrite ?mul_one by exact Hva;
    try (destruct sa, sb; reflexivity);
    cbn [F32.mul F32.add SFmul SFadd xorb]; apply feq_refl_finite; reflexivity.
Qed.

Lemma lerp_one (a b : spec_float) :
  finite_valid a -> finite_valid b -> feq (lerp (flit 1) a b) b.
Proof.
  intros [Hva Hfa] [Hvb Hfb]. unfold lerp.
  change (F32.sub (flit 1) (flit 1)) with (S754_zero false).
  destruct a as [sa|sa| |sa ma ea]; try discriminate;
  destruct b as [sb|sb| |sb mb eb]; try discriminate;
    rewrite ?mul_one by exact Hvb;
    try (destruct sa, sb; reflexivity);
    cbn [F32.mul F32.add SFmul SFadd xorb]; apply feq_refl_finite; reflexivity.
Qed.

(** The conversion of a non-negative [int]. *)
Lemma of_int_good (a : Z) :
  0 <= a <= Int.INT_MAX -> Good32 (F32.of_int a) /\ Rnd32 (IZR a) (Fmag (F32.of_int a)).
Proof.
  intros [Ha0 Ha1].
  apply (Rounds32_Good (IZR a) (bpow 31)).
  - apply of_int32_rounds, Ha0.
  - exists 1, 31. rewrite Rmult_1_l. split; [reflexivity|]. split; [split|]; zle.
  - rewrite (bpow_IZR 31) by lia. apply IZR_le. unfold Int.INT_MAX in Ha1. lia.
  - apply bpow_lt. reflexivity.
Qed.

Lemma of_int_mono (a b : Z) :
  0 <= a <= b -> b <= Int.INT_MAX -> (Fmag (F32.of_int a) <= Fmag (F32.of_int b))%R.
Proof.
  intros [Ha Hab] Hb. destruct (Z.eq_dec a b) as [->|Hne]; [lra|].
  destruct (of_int_good a ltac:(lia)) as [_ Hra].
  destruct (of_int_good b ltac:(lia)) as [_ Hrb].
  apply (Rnd32_mono _ _ _ _ Hra Hrb). apply IZR_lt. lia.
Qed.

Lemma of_int_ge_1 (a : Z) :
  1 <= a <= Int.INT_MAX -> (1 <= Fmag (F32.of_int a))%R.
Proof.
  intros [Ha0 Ha1]. destruct (of_int_good a ltac:(lia)) as [_ Hr].
  destruct (Rep32_IZR 1 ltac:(lia)) as [Hrep _].
  apply (Rnd32_ge _ _ _ Hr Hrep). apply IZR_le. lia.
Qed.

Section GradientRows.
Variables (roi : ROI) (startcolor endcolor : Vec3).
(** The region is at least two rows high, and its bounds and height fit
    in an [int]. *)
Hypothesis ybegin_range : Int.in_range (ybegin roi).
Hypothesis yend_range : Int.in_range (yend roi).
Hypothesis height_range : 2 <= yend roi - ybegin roi <= Int.INT_MAX.
(** The channels of the two colors are finite numbers. *)
Hypothesis start_finite : finite_color startcolor.
Hypothesis end_finite : finite_color endcolor.

Lemma height_value : height roi = yend roi - ybegin roi.
Proof. unfold height, Int.sub. apply wrap_in_range. int_range. Qed.

Lemma row_offset (y : Z) :
  ybegin roi <= y < yend roi -> Int.sub y (ybegin roi) = y - ybegin roi.
Proof. intros Hy. unfold Int.sub. apply wrap_in_range. int_range. Qed.

Lemma blend_of_value (y : Z) :
  ybegin roi <= y < yend roi ->
  blend_of roi y
  = F32.div (F32.of_int (y - ybegin roi)) (F32.of_int (yend roi - ybegin roi - 1)).
Proof.
  intros Hy. unfold blend_of. rewrite height_value, (row_offset y Hy).
  unfold Int.sub. rewrite wrap_in_range by int_range. reflexivity.
Qed.

Lemma divisor_good :
  Good32 (F32.of_int (yend roi - ybegin roi - 1))
  /\ (1 <= Fmag (F32.of_int (yend roi - ybegin roi - 1)))%R.
Proof.
  split; [apply of_int_good; lia | apply of_int_ge_1; lia].
Qed.

(** The blend factor of a row is a good float between 0 and 1. *)
Lemma blend_good (y : Z) :
  ybegin roi <= y < yend roi ->
  Good32 (blend_of roi y)
  /\ Rnd32 (Fmag (F32.of_int (y - ybegin roi)) / Fmag (F32.of_int (yend roi - ybegin roi - 1)))
           (Fmag (blend_of roi y)).
Proof.
  intros Hy. rewrite (blend_of_value y Hy).
  destruct divisor_good as [Hd Hd1].
  destruct (of_int_good (y - ybegin roi) ltac:(lia)) as [Ha _].
  pose proof (of_int_mono (y - ybegin roi) (yend roi - ybegin roi - 1) ltac:(lia) ltac:(lia))
    as Hle.
  pose proof (Good32_nonneg _ Ha) as Ha0.
  destruct (Rep32_IZR 1 ltac:(lia)) as [Hrep Hmax].
  apply (Rounds32_Good _ 1); [apply div32_rounds; [exact Ha|exact Hd|lra] | exact Hrep | | exact Hmax].
  apply Rmult_le_reg_r with (Fmag (F32.of_int (yend roi - ybegin roi - 1))); [lra|].
  unfold Rdiv. rewrite Rmult_assoc, Rinv_l by lra. lra.
Qed.

Lemma blend_top : blend_of roi (ybegin roi) = S754_zero false.
Proof.
  rewrite blend_of_value by lia. rewrite Z.sub_diag.
  destruct divisor_good as [Hd Hd1].
  destruct (F32.of_int (yend roi - ybegin roi - 1)) as [s|s| |s m e];
    try (destruct Hd as [_ Hd]; discriminate).
  - cbn [Fmag] in Hd1. lra.
  - apply Good_finite in Hd as [-> _]. reflexivity.
Qed.

Lemma blend_bottom : blend_of roi (yend roi - 1) = flit 1.
Proof.
  destruct (blend_good (yend roi - 1) ltac:(lia)) as [Hg Hr].
  destruct divisor_good as [Hd Hd1].
  replace (yend roi - 1 - ybegin roi) with (yend roi - ybegin roi - 1) in Hr by ring.
  unfold Rdiv in Hr. rewrite Rinv_r in Hr by lra.
  destruct (Rep32_IZR 1 ltac:(lia)) as [Hrep _].
  apply (Rnd32_exact _ _ Hrep) in Hr.
  destruct (flit_exact 1 ltac:(lia)) as [H1 Hv1].
  apply (Good_same_magnitude F32.prec F32.emax prec32_gt_0); [exact Hg|exact H1| |]; lra.
Qed.

Lemma blend_monotone (y1 y2 : Z) :
  ybegin roi <= y1 <= y2 -> y2 < yend roi ->
  F32.ge (blend_of roi y2) (blend_of roi y1) = true.
Proof.
  intros Hy1 Hy2.
  destruct (blend_good y1 ltac:(lia)) as [Hg1 Hr1].
  destruct (blend_good y2 ltac:(lia)) as [Hg2 Hr2].
  unfold F32.ge. apply (leb32 _ _ Hg1 Hg2).
  destruct divisor_good as [Hd Hd1].
  destruct (of_int_good (y1 - ybegin roi) ltac:(lia)) as [Ha1 _].
  destruct (of_int_good (y2 - ybegin roi) ltac:(lia)) as [Ha2 _].
  pose proof (of_int_mono (y1 - ybegin roi) (y2 - ybegin roi) ltac:(lia) ltac:(lia)) as Hle.
  pose proof (Good32_nonneg _ Ha1) as Hn1.
  destruct (Rle_lt_or_eq_dec _ _ Hle) as [Hlt|Heq].
  - apply (Rnd32_mono _ _ _ _ Hr1 Hr2). unfold Rdiv.
    apply Rmult_lt_compat_r; [apply Rinv_0_lt_compat; lra|exact Hlt].
  - destruct (Rle_lt_or_eq_dec _ _ Hn1) as [Hpos|Hzero].
    + assert (Hsame : F32.of_int (y1 - ybegin roi) = F32.of_int (y2 - ybegin roi)).
      { apply (Good_same_magnitude F32.prec F32.emax prec32_gt_0); assumption. }
      rewrite !blend_of_value by lia. rewrite Hsame. lra.
    + rewrite <- Hzero in Hr1. unfold Rdiv in Hr1. rewrite Rmult_0_l in Hr1.
      apply (Rnd32_exact _ _ (Rep_0 F32.prec F32.emax prec32_gt_0)) in Hr1.
      rewrite Hr1. apply Good32_nonneg, Hg2.
Qed.

(** C6: in a region at least two rows high, the top row has the start
    color and the bottom row the end color, the blend factor does not
    decrease from a row to a lower one, every pixel of a row reads the
    same value, and that value has alpha 1.0. *)
Theorem gradient_rows :
  pixel_eq (gradient_pixel roi startcolor endcolor (ybegin roi)) (opaque startcolor)
  /\ pixel_eq (gradient_pixel roi startcolor endcolor (yend roi - 1)) (opaque endcolor)
  /\ (forall y1 y2, ybegin roi <= y1 <= y2 -> y2 < yend roi ->
        F32.ge (blend_of roi y2) (blend_of roi y1) = true)
  /\ (forall ib x y,
        ib_nchannels ib = 4%nat -> pixel_exists ib x y = true ->
        xbegin roi <= x < xend roi -> ybegin roi <= y < yend roi ->
        getpixel (draw_gradient ib roi startcolor endcolor) x y
        = gradient_pixel roi startcolor endcolor y
        /\ nth 3 (getpixel (draw_gradient ib roi startcolor endcolor) x y) S754_nan = flit 1).
Proof.
  destruct start_finite as (Hsx & Hsy & Hsz), end_finite as (Hex & Hey & Hez).
  split; [|split; [|split]].
  - unfold gradient_pixel, opaque, pixel_eq. rewrite blend_top.
    repeat constructor; try (apply lerp_zero; assumption).
  - unfold gradient_pixel, opaque, pixel_eq. rewrite blend_bottom.
    repeat constructor; try (apply lerp_one; assumption).
  - exact blend_monotone.
  - intros ib x y Hch Hex' Hx Hy. rewrite draw_gradient_paint.
    rewrite paint_inside; [split; reflexivity | exact Hx | exact Hy | exact Hex' |].
    rewrite Hch. reflexivity.
Qed.

End GradientRows.

Lemma gradient_rows_witness :
  let roi := mkROI 0 2 0 3 in
  let startcolor := rgb_from_hsv (start_hsv (flit 240)) in
  let endcolor := rgb_from_hsv (end_hsv (flit 240)) in
  let ib := draw_gradient (ImageBuf_of_spec 2 3 4) roi startcolor endcolor in
  pixel_eq (getpixel ib 1 0) (opaque startcolor)
  /\ pixel_eq (getpixel ib 1 2) (opaque endcolor)
  /\ getpixel ib 0 1 = getpixel ib 1 1
  /\ F32.ge (blend_of roi 1) (blend_of roi 0) = true
  /\ F32.ge (blend_of roi 2) (blend_of roi 1) = true.
Proof.
  intros roi startcolor endcolor ib.
  assert (Hfin : forall c, c = startcolor \/ c = endcolor -> finite_color c).
  { intros c [->| ->]; repeat split; reflexivity. }
  destruct (gradient_rows roi startcolor endcolor) as (Htop & Hbot & Hmono & Hpix);
    try (apply Hfin; auto); try closed_range.
  assert (Hat : forall x y, 0 <= x < 2 -> 0 <= y < 3 ->
            getpixel ib x y = gradient_pixel roi startcolor endcolor y).
  { intros x y Hx Hy. apply Hpix; [reflexivity| |exact Hx|exact Hy].
    unfold pixel_exists; cbn [ImageBuf_of_spec ib_width ib_height].
    repeat (apply andb_true_intro; split); try apply Z.leb_le; try apply Z.ltb_lt; lia. }
  rewrite !Hat by lia.
  split; [exact Htop|]. split; [exact Hbot|]. split; [reflexivity|].
  split; apply Hmono; cbn [ybegin yend roi]; lia.
Defined.

(** ** The argument checks of [main] *)

Lemma length_zero_empty (s : string) : (String.length s =? 0)%nat = true <-> s = "".
Proof. destruct s; simpl; split; congruence. Qed.


(** The four ways out of [main]. *)
Lemma main_cases `{E : OIIO} (argc : Z) (parse_error : option string) (tool : TitleTool) :
  let run := TitleTool.main argc parse_error tool in
  let run' := PlainTool.main argc parse_error tool in
  (parse_error <> None
   /\ early_exit run EXIT_FAILURE
   /\ early_exit run' EXIT_FAILURE)
  \/ (parse_error = None /\ help tool = true
      /\ early_exit run EXIT_SUCCESS
      /\ early_exit run' EXIT_SUCCESS)
  \/ (parse_error = None /\ help tool = false /\ (outputfile tool = "" \/ argc <= 1)
      /\ early_exit run EXIT_FAILURE
      /\ early_exit run' EXIT_FAILURE)
  \/ (parse_error = None /\ help tool = false /\ outputfile tool <> "" /\ 1 < argc
      /\ run = TitleTool.titletool_program tool (mkStreams [] [])
      /\ run' = PlainTool.titletool_program tool (mkStreams [] [])).
Proof.
  intros run run'. subst run run'. unfold TitleTool.main, PlainTool.main.
  destruct parse_error as [e|]; [left; repeat split; discriminate|right].
  destruct (help tool) eqn:Hh; [left; repeat split|right].
  destruct (String.length (outputfile tool) =? 0)%nat eqn:Ho.
  { apply length_zero_empty in Ho. left. repeat split. left. exact Ho. }
  assert (Hne : outputfile tool <> "").
  { intros Hx. apply length_zero_empty in Hx. congruence. }
  destruct (Z.leb_spec argc 1) as [Ha|Ha]; [left|right]; repeat split; auto.
Qed.

(** X1: the exit status is [EXIT_FAILURE] exactly when the parser
    failed, or when help was not asked for and the output file is
    missing or no argument was given; every other run, whatever the
    writer answers, ends with [EXIT_SUCCESS].  Both variants. *)
Theorem main_exit_status `{E : OIIO} (argc : Z) (parse_error : option string)
    (tool : TitleTool) :
  let failed := parse_error <> None
                \/ (help tool = false /\ (outputfile tool = "" \/ argc <= 1)) in
  (failed -> status (TitleTool.main argc parse_error tool) = EXIT_FAILURE
             /\ status (PlainTool.main argc parse_error tool) = EXIT_FAILURE)
  /\ (~ failed -> status (TitleTool.main argc parse_error tool) = EXIT_SUCCESS
                  /\ status (PlainTool.main argc parse_error tool) = EXIT_SUCCESS).
Proof.
  intros failed. subst failed.
  destruct (main_cases argc parse_error tool)
    as [(Hp & H1 & H2)|[(Hp & Hh & H1 & H2)|[(Hp & Hh & Ho & H1 & H2)|(Hp & Hh & Ho & Ha & H1 & H2)]]].
  - destruct H1 as [-> _], H2 as [-> _]. split; [split; reflexivity|].
    intros Hn. exfalso. apply Hn. now left.
  - destruct H1 as [-> _], H2 as [-> _]. split; [|split; reflexivity].
    intros [?|[? _]]; congruence.
  - destruct H1 as [-> _], H2 as [-> _]. split; [split; reflexivity|].
    intros Hn. exfalso. apply Hn. right. tauto.
  - rewrite H1, H2. destruct (program_status tool (mkStreams [] [])) as [-> ->].
    split; [|split; reflexivity].
    intros [?|[_ [?|?]]]; [congruence|contradiction|lia].
Qed.

Lemma main_exit_status_witness :
  status (TitleTool.main (E := Fixture.oiio) 3 None
            (Fixture.tool "Hello" "" "" "" 8 4)) = EXIT_FAILURE
  /\ status (PlainTool.main (E := Fixture.oiio) 3 None
               (Fixture.tool "Hello" "" "/nonexistent/title.png" "" 8 4)) = EXIT_SUCCESS.
Proof.
  pose proof (@main_exit_status Fixture.oiio 3 None (Fixture.tool "Hello" "" "" "" 8 4))
    as [Hfail _].
  pose proof (@main_exit_status Fixture.oiio 3 None
                (Fixture.tool "Hello" "" "/nonexistent/title.png" "" 8 4)) as [_ Hok].
  split.
  - refine (proj1 (Hfail _)). right. split; [reflexivity|]. left. reflexivity.
  - refine (proj2 (Hok _)). intros [H|[_ [H|H]]]; [congruence|discriminate|lia].
Defined.

(** X2: an image buffer is built exactly when the run gets past the
    argument checks: no parse error, no help flag, an output file and
    more than one argument.  A run that stops at a check allocates and
    draws nothing.  Both variants. *)
Theorem image_built_iff_checks_pass `{E : OIIO} (argc : Z) (parse_error : option string)
    (tool : TitleTool) :
  let passed := parse_error = None /\ help tool = false /\ outputfile tool <> ""
                /\ 1 < argc in
  (is_Some (canvas (TitleTool.main argc parse_error tool)) <-> passed)
  /\ (is_Some (canvas (PlainTool.main argc parse_error tool)) <-> passed).
Proof.
  intros passed. subst passed.
  destruct (main_cases argc parse_error tool)
    as [(Hp & H1 & H2)|[(Hp & Hh & H1 & H2)|[(Hp & Hh & Ho & H1 & H2)|(Hp & Hh & Ho & Ha & H1 & H2)]]].
  - destruct H1 as (_ & -> & _), H2 as (_ & -> & _).
    split; (split; [intros [? ?]; discriminate|tauto]).
  - destruct H1 as (_ & -> & _), H2 as (_ & -> & _).
    split; (split; [intros [? ?]; discriminate|intros (_ & ? & _); congruence]).
  - destruct H1 as (_ & -> & _), H2 as (_ & -> & _).
    split; (split; [intros [? ?]; discriminate|intros (_ & _ & ? & ?); destruct Ho; [contradiction|lia]]).
  - rewrite H1, H2. destruct (program_canvas tool (mkStreams [] [])) as [-> ->].
    split; (split; [tauto|eauto]).
Qed.

Lemma image_built_iff_checks_pass_witness :
  is_Some (canvas (TitleTool.main (E := Fixture.oiio) 3 None
                     (Fixture.tool "Hello" "" "title.png" "" 8 4)))
  /\ ~ is_Some (canvas (PlainTool.main (E := Fixture.oiio) 1 None
                          (Fixture.tool "Hello" "" "title.png" "" 8 4))).
Proof.
  pose proof (@image_built_iff_checks_pass Fixture.oiio 3 None
                (Fixture.tool "Hello" "" "title.png" "" 8 4)) as [[_ Hbuilt] _].
  pose proof (@image_built_iff_checks_pass Fixture.oiio 1 None
                (Fixture.tool "Hello" "" "title.png" "" 8 4)) as [_ [Hnone _]].
  split.
  - refine (Hbuilt _). repeat split; try discriminate; lia.
  - intros Hc. destruct (Hnone Hc) as (_ & _ & _ & Hargc). lia.
Defined.

Lemma program_written `{E : OIIO} (tool : TitleTool) (io : Streams) :
  (let run := TitleTool.titletool_program tool io in
   exists ib, canvas run = Some ib
     /\ match write ib (outputfile tool) with
        | None => written run = Some (outputfile tool, ib) /\ cerr (streams run) = cerr io
        | Some e => written run = None
                    /\ cerr (streams run) = cerr io ++ ["error: could not write output file" +:+ e]
        end)
  /\ (let run := PlainTool.titletool_program tool io in
      exists ib, canvas run = Some ib
        /\ match write ib (outputfile tool) with
           | None => written run = Some (outputfile tool, ib) /\ cerr (streams run) = cerr io
           | Some e => written run = None
                       /\ cerr (streams run) = cerr io ++ ["error: could not write output file" +:+ e]
           end).
Proof.
  unfold TitleTool.titletool_program, PlainTool.titletool_program. split.
  - set (io0 := print_info (print_info io _ _) _ _).
    assert (Hc : cerr (fst (TitleTool.draw_background tool
                  (mkROI 0 (ix (size tool)) 0 (iy (size tool))) io0
                  (ImageBuf_of_spec (ix (size tool)) (iy (size tool)) 4))) = cerr io).
    { unfold TitleTool.draw_background.
      destruct (0 <? String.length (gradient tool))%nat; [|reflexivity].
      destruct (StdMap.find (gradient tool) hues); reflexivity. }
    destruct (TitleTool.draw_background _ _ _ _) as [io' ib].
    destruct (TitleTool.measure_and_center _ _ _ _ _) as [ty sy].
    cbn [fst] in Hc.
    match goal with |- context [write ?b ?f] => exists b; destruct (write b f) eqn:Hw end;
      cbn [canvas written streams]; rewrite ?Hw; cbn [print_error cerr]; rewrite ?Hc; auto.
  - destruct (PlainTool.measure_and_center _ _ _ _ _) as [ty sy].
    match goal with |- context [write ?b ?f] => exists b; destruct (write b f) eqn:Hw end;
      cbn [canvas written streams]; rewrite ?Hw; cbn [print_error cerr]; auto.
Qed.

(** X3: [main] hands an image to the writer only after every argument
    check has passed: a run that leaves a written file had no parse
    error and no help flag, more than one argument, and a non-empty
    output path that is the path written to; the image written is the
    canvas of the run, the writer accepted it, nothing went to the error
    stream and the status is [EXIT_SUCCESS].  Both variants. *)
Theorem written_file_passed_checks `{E : OIIO} (argc : Z) (parse_error : option string)
    (tool : TitleTool) (file : string) (ib : ImageBuf) :
  written (TitleTool.main argc parse_error tool) = Some (file, ib)
  \/ written (PlainTool.main argc parse_error tool) = Some (file, ib) ->
  parse_error = None /\ help tool = false /\ 1 < argc
  /\ file = outputfile tool /\ file <> ""
  /\ write ib file = None
  /\ (written (TitleTool.main argc parse_error tool) = Some (file, ib) ->
      canvas (TitleTool.main argc parse_error tool) = Some ib
      /\ cerr (streams (TitleTool.main argc parse_error tool)) = []
      /\ status (TitleTool.main argc parse_error tool) = EXIT_SUCCESS)
  /\ (written (PlainTool.main argc parse_error tool) = Some (file, ib) ->
      canvas (PlainTool.main argc parse_error tool) = Some ib
      /\ cerr (streams (PlainTool.main argc parse_error tool)) = []
      /\ status (PlainTool.main argc parse_error tool) = EXIT_SUCCESS).
Proof.
  intros Hw.
  destruct (main_cases argc parse_error tool)
    as [(Hp & H1 & H2)|[(Hp & Hh & H1 & H2)|[(Hp & Hh & Ho & H1 & H2)|(Hp & Hh & Ho & Ha & H1 & H2)]]];
    try (destruct H1 as (_ & _ & H1), H2 as (_ & _ & H2), Hw; congruence).
  rewrite H1, H2 in *. clear H1 H2.
  destruct (program_status tool (mkStreams [] [])) as [Hs1 Hs2].
  destruct (program_written tool (mkStreams [] [])) as [(ib1 & Hc1 & Hw1) (ib2 & Hc2 & Hw2)].
  cbv zeta in *.
  assert (Hfile : file = outputfile tool /\ write ib file = None).
  { destruct Hw as [Hw|Hw].
    - destruct (write ib1 (outputfile tool)) eqn:Hwr; destruct Hw1 as [Hw1 _]; [congruence|].
      rewrite Hw1 in Hw. inversion Hw; subst. auto.
    - destruct (write ib2 (outputfile tool)) eqn:Hwr; destruct Hw2 as [Hw2 _]; [congruence|].
      rewrite Hw2 in Hw. inversion Hw; subst. auto. }
  destruct Hfile as [-> Hwr].
  repeat split; auto.
  - destruct (write ib1 (outputfile tool)) eqn:Hwr1; destruct Hw1 as [Hw1 Hce]; [congruence|].
    rewrite Hw1 in H. inversion H; subst. exact Hc1.
  - destruct (write ib1 (outputfile tool)) eqn:Hwr1; destruct Hw1 as [Hw1 Hce]; [congruence|].
    exact Hce.
  - destruct (write ib2 (outputfile tool)) eqn:Hwr1; destruct Hw2 as [Hw2 Hce]; [congruence|].
    rewrite Hw2 in H. inversion H; subst. exact Hc2.
  - destruct (write ib2 (outputfile tool)) eqn:Hwr1; destruct Hw2 as [Hw2 Hce]; [congruence|].
    exact Hce.
Qed.

Lemma written_file_passed_checks_witness :
  let tool := Fixture.tool "Hello, world!" "An image" "title.png" "blue" 6 4 in
  let run := TitleTool.main (E := Fixture.oiio) 9 None tool in
  written run = Some ("title.png", composed (E := Fixture.oiio) tool)
  /\ canvas run = Some (composed (E := Fixture.oiio) tool)
  /\ cerr (streams run) = [] /\ status run = EXIT_SUCCESS.
Proof.
  intros tool run.
  assert (Hw : written run = Some ("title.png", composed (E := Fixture.oiio) tool))
    by (vm_compute; reflexivity).
  split; [exact Hw|].
  apply (@written_file_passed_checks Fixture.oiio 9 None tool "title.png" _ (or_introl Hw)).
  exact Hw.
Defined.

(** ** The centred block *)

Section Centred.
Variables ht hs spacing centerY : Z.
Hypothesis ht_nonneg : 0 <= ht.
Hypothesis hs_nonneg : 0 <= hs.
Hypothesis spacing_nonneg : 0 <= spacing.
Hypothesis total_range : Int.in_range (ht + spacing + hs).
Hypothesis titley_range : Int.in_range (centerY - (ht + spacing + hs) / 2).
Hypothesis subtitley_range :
  Int.in_range (centerY - (ht + spacing + hs) / 2 + ht + spacing).

(** X4: the block of title, spacing and subtitle is centred on
    [centerY]: the title starts at or above the subtitle, exactly one
    title height and one spacing separate their top edges, and the
    distance from the top of the title to the center differs from the
    distance from the center to the bottom of the subtitle by at most
    one pixel, the extra pixel lying below. *)
Theorem center_text_centred :
  let titley := fst (center_text ht hs spacing centerY) in
  let subtitley := snd (center_text ht hs spacing centerY) in
  subtitley - titley = ht + spacing
  /\ titley <= centerY <= subtitley + hs
  /\ 0 <= (subtitley + hs - centerY) - (centerY - titley) <= 1.
Proof.
  unfold Int.in_range, Int.INT_MIN, Int.INT_MAX in *.
  assert (0 <= (ht + spacing + hs) / 2 <= ht + spacing + hs).
  { split; [apply Z.div_pos; lia|]. apply Z.div_le_upper_bound; lia. }
  unfold center_text, Int.add, Int.sub, Int.div. cbn [fst snd].
  rewrite (wrap_in_range (ht + spacing)) by int_range.
  rewrite (wrap_in_range (ht + spacing + hs)) by int_range.
  rewrite quot_2_floor by lia.
  rewrite (wrap_in_range ((ht + spacing + hs) / 2)) by int_range.
  rewrite (wrap_in_range (centerY - _)) by int_range.
  rewrite (wrap_in_range (centerY - _ + ht)) by int_range.
  rewrite (wrap_in_range (centerY - _ + ht + spacing)) by int_range.
  pose proof (Z.div_mod (ht + spacing + hs) 2 ltac:(lia)).
  pose proof (Z.mod_pos_bound (ht + spacing + hs) 2 ltac:(lia)).
  lia.
Qed.

End Centred.

Lemma center_text_centred_witness :
  let titley := fst (center_text 100 51 20 500) in
  let subtitley := snd (center_text 100 51 20 500) in
  subtitley - titley = 100 + 20
  /\ titley <= 500 <= subtitley + 51
  /\ 0 <= (subtitley + 51 - 500) - (500 - titley) <= 1.
Proof.
  apply (center_text_centred 100 51 20 500); try lia; closed_range.
Defined.

(** ** What painting leaves alone *)

Lemma paint_dims (ib : ImageBuf) (roi : ROI) (g : Z -> pixel) :
  ib_width (paint ib roi g) = ib_width ib
  /\ ib_height (paint ib roi g) = ib_height ib
  /\ ib_nchannels (paint ib roi g) = ib_nchannels ib.
Proof.
  unfold paint. generalize (seqZ (ybegin roi) (yend roi - ybegin roi)) as ys.
  generalize (seqZ (xbegin roi) (xend roi - xbegin roi)) as xs. intros xs ys.
  revert ib. induction ys as [|y ys IH]; intros ib; simpl; [auto|].
  destruct (IH (foldl (fun ib x => setpixel ib x y (g y)) ib xs)) as (-> & -> & ->).
  clear IH. revert ib. induction xs as [|x xs IH]; intros ib; simpl; [auto|].
  destruct (IH (setpixel ib x y (g y))) as (-> & -> & ->). apply setpixel_dims.
Qed.

(** [setpixel] stores nothing at a coordinate outside the image. *)
Lemma setpixel_outside (ib : ImageBuf) (x y : Z) (p : pixel) :
  pixel_exists ib x y = false -> setpixel ib x y p = ib.
Proof. intros H. unfold setpixel. rewrite H. reflexivity. Qed.

Lemma row_outside (xs : list Z) (y : Z) (p : pixel) (ib : ImageBuf) :
  (forall x, x ∈ xs -> pixel_exists ib x y = false) ->
  foldl (fun ib x => setpixel ib x y p) ib xs = ib.
Proof.
  induction xs as [|x xs IH]; intros Hout; simpl; [reflexivity|].
  rewrite setpixel_outside by (apply Hout; left).
  apply IH. intros x' Hin. apply Hout. now right.
Qed.

Lemma paint_outside_image (ib : ImageBuf) (roi : ROI) (g : Z -> pixel) :
  (forall x y, xbegin roi <= x < xend roi -> ybegin roi <= y < yend roi ->
     pixel_exists ib x y = false) ->
  paint ib roi g = ib.
Proof.
  intros Hout. unfold paint.
  assert (Hys : forall y, y ∈ seqZ (ybegin roi) (yend roi - ybegin roi) ->
                  ybegin roi <= y < yend roi) by (intros y Hy; apply elem_of_seqZ in Hy; lia).
  revert Hys. generalize (seqZ (ybegin roi) (yend roi - ybegin roi)) as ys.
  induction ys as [|y ys IH]; intros Hys; simpl; [reflexivity|].
  rewrite row_outside.
  - apply IH. intros y' Hin. apply Hys. now right.
  - intros x Hx. apply elem_of_seqZ in Hx. apply Hout; [lia|]. apply Hys. left.
Qed.

(** X5: [draw_gradient] touches the region and nothing else: the
    buffer keeps its dimensions and channel count, every pixel outside
    the region reads as before, and a region that lies wholly outside
    the image leaves the buffer as it was (no pixel is created beyond
    the image bounds). *)
Theorem draw_gradient_frame (ib : ImageBuf) (roi : ROI) (startcolor endcolor : Vec3) :
  let ib' := draw_gradient ib roi startcolor endcolor in
  (ib_width ib' = ib_width ib /\ ib_height ib' = ib_height ib
   /\ ib_nchannels ib' = ib_nchannels ib)
  /\ (forall x y,
        ~ (xbegin roi <= x < xend roi /\ ybegin roi <= y < yend roi) ->
        getpixel ib' x y = getpixel ib x y)
  /\ ((forall x y, xbegin roi <= x < xend roi -> ybegin roi <= y < yend roi ->
         pixel_exists ib x y = false) ->
      ib' = ib).
Proof.
  intros ib'. subst ib'. rewrite draw_gradient_paint.
  split; [apply paint_dims|]. split.
  - intros x y Hout. apply paint_outside. exact Hout.
  - apply paint_outside_image.
Qed.

Lemma draw_gradient_frame_witness :
  let ib := fill (ImageBuf_of_spec 4 4 4) (opaque Fixture.white) (mkROI 0 4 0 4) in
  let roi := mkROI 1 3 1 3 in
  getpixel (draw_gradient ib roi Fixture.black Fixture.white) 0 2 = getpixel ib 0 2
  /\ draw_gradient ib (mkROI 4 9 0 4) Fixture.black Fixture.white = ib.
Proof.
  intros ib roi. split.
  - apply (draw_gradient_frame ib roi Fixture.black Fixture.white). cbn. lia.
  - apply (draw_gradient_frame ib (mkROI 4 9 0 4) Fixture.black Fixture.white).
    intros x y Hx Hy. cbn in Hx, Hy. unfold pixel_exists.
    destruct (paint_dims (ImageBuf_of_spec 4 4 4) (mkROI 0 4 0 4)
                (fun _ => opaque Fixture.white)) as (Hw & Hh & _).
    unfold ib. rewrite fill_paint, Hw, Hh. cbn [ImageBuf_of_spec ib_width ib_height].
    destruct (Z.ltb_spec x 4); [lia|]. rewrite andb_false_r. reflexivity.
Defined.

(** ** The hue table as a map *)

Lemma compare_refl (k : string) : String.compare k k = Eq.
Proof.
  induction k as [|a k IH]; simpl; [reflexivity|].
  unfold Ascii.compare. rewrite N.compare_refl. exact IH.
Qed.

Lemma compare_eqb (k k' : string) :
  String.eqb k k' = match String.compare k k' with Eq => true | _ => false end.
Proof.
  destruct (String.eqb_spec k k') as [->|Hne]; [rewrite compare_refl; reflexivity|].
  destruct (String.compare k k') eqn:Hc; [|reflexivity..].
  apply String.compare_eq_iff in Hc. contradiction.
Qed.

(** X6: assignment and lookup on the table's map.  After [m[k] = v] the
    lookup of [k] finds [v], and the lookup of any other key is what it
    was before; this holds for every map, sorted or not. *)
Theorem find_after_set (k k' : string) (v : spec_float) (m : StdMap.t) :
  StdMap.find k (StdMap.set k v m) = Some v
  /\ (k' <> k -> StdMap.find k' (StdMap.set k v m) = StdMap.find k' m).
Proof.
  split.
  - induction m as [|[k1 v1] m IH]; simpl.
    + rewrite String.eqb_refl. reflexivity.
    + destruct (String.compare k k1) eqn:Hc; simpl.
      * rewrite String.eqb_refl. reflexivity.
      * rewrite String.eqb_refl. reflexivity.
      * rewrite compare_eqb, Hc. exact IH.
  - intros Hne. induction m as [|[k1 v1] m IH]; simpl.
    + destruct (String.eqb_spec k' k); [contradiction|reflexivity].
    + destruct (String.compare k k1) eqn:Hc; simpl.
      * apply String.compare_eq_iff in Hc. subst k1.
        destruct (String.eqb_spec k' k); [contradiction|reflexivity].
      * destruct (String.eqb_spec k' k); [contradiction|reflexivity].
      * rewrite IH. reflexivity.
Qed.

Lemma find_after_set_witness :
  StdMap.find "teal" (StdMap.set "red" (flit 0) hues) = StdMap.find "teal" hues.
Proof. apply (find_after_set "red" "teal" (flit 0) hues). discriminate. Defined.

Lemma set_head (k : string) (v : spec_float) (m : StdMap.t) (a : string) :
  String.compare a k = Lt -> HdRel (fun a b => String.compare a b = Lt) a (map fst m) ->
  HdRel (fun a b => String.compare a b = Lt) a (map fst (StdMap.set k v m)).
Proof.
  intros Hak Hm. destruct m as [|[k1 v1] m]; simpl; [constructor; exact Hak|].
  destruct (String.compare k k1); simpl; constructor; try exact Hak.
  inversion Hm; assumption.
Qed.

(** X7: assignment keeps the keys strictly increasing, so that the loop
    over the map visits them in alphabetical order and each key once. *)
Theorem set_keys_sorted (k : string) (v : spec_float) (m : StdMap.t) :
  keys_sorted m -> keys_sorted (StdMap.set k v m).
Proof.
  unfold keys_sorted. induction m as [|[k1 v1] m IH]; intros Hs; simpl.
  - repeat constructor.
  - inversion Hs as [|? ? Hs' Hhd]; subst.
    destruct (String.compare k k1) eqn:Hc; simpl.
    + apply String.compare_eq_iff in Hc. subst k1. constructor; assumption.
    + constructor; [exact Hs|]. constructor. exact Hc.
    + constructor; [apply IH; exact Hs'|].
      apply set_head; [|exact Hhd].
      rewrite String.compare_antisym, Hc. reflexivity.
Qed.

Lemma set_keys_sorted_witness : keys_sorted hues.
Proof.
  unfold hues. repeat apply set_keys_sorted. constructor.
Defined.

(** ** The list of options *)

Lemma append_cons (x : ascii) (a b : string) : String x a +:+ b = String x (a +:+ b).
Proof. reflexivity. Qed.

Lemma append_nil_r (a : string) : a +:+ "" = a.
Proof. induction a as [|x a IH]; [reflexivity|]. rewrite append_cons, IH. reflexivity. Qed.

Lemma append_assoc (a b c : string) : (a +:+ b) +:+ c = a +:+ (b +:+ c).
Proof.
  induction a as [|x a IH]; [reflexivity|]. rewrite !append_cons, IH. reflexivity.
Qed.

Lemma append_nonempty (a b : string) : b <> "" -> a +:+ b <> "".
Proof. destruct a; [auto|discriminate]. Qed.

(** Once the line is non-empty, every further key comes with its
    separator. *)
Lemma join_step (acc : string) (m : StdMap.t) :
  acc <> "" -> Forall (fun k => k <> "") (map fst m) ->
  foldl (fun options pair =>
           (if (0 <? String.length options)%nat then options +:+ ", " else options)
           +:+ pair.1) acc m
  = acc +:+ String.concat "" (map (fun k => ", " +:+ k) (map fst m)).
Proof.
  revert acc. induction m as [|[k v] m IH]; intros acc Hacc Hk.
  - cbn [foldl map String.concat]. rewrite append_nil_r. reflexivity.
  - inversion Hk as [|? ? Hk1 Hk']; subst.
    cbn [foldl map fst]. rewrite nonempty_length by exact Hacc.
    rewrite IH; [|apply append_nonempty; exact Hk1|exact Hk'].
    rewrite !append_assoc. f_equal. f_equal.
    destruct m as [|[k2 v2] m]; cbn [map String.concat fst].
    + rewrite append_nil_r. reflexivity.
    + reflexivity.
Qed.

Lemma concat_cons (sep k : string) (ks : list string) :
  String.concat sep (k :: ks)
  = k +:+ String.concat "" (map (fun k => sep +:+ k) ks).
Proof.
  revert k. induction ks as [|k1 ks IH]; intros k.
  - cbn [map String.concat]. rewrite append_nil_r. reflexivity.
  - change (String.concat sep (k :: k1 :: ks)) with (k +:+ sep +:+ String.concat sep (k1 :: ks)).
    rewrite IH. f_equal.
    destruct ks as [|k2 ks]; cbn [map String.concat].
    + rewrite !append_nil_r. reflexivity.
    + rewrite !append_assoc. reflexivity.
Qed.

(** X8: the loop that builds the [available options] line.  When no
    key is empty, the line is the keys in the order of the map, joined
    by a comma and a space. *)
Theorem join_options_concat (m : StdMap.t) :
  Forall (fun k => k <> "") (map fst m) ->
  join_options m = String.concat ", " (map fst m).
Proof.
  unfold join_options. destruct m as [|[k v] m]; intros Hk; [reflexivity|].
  inversion Hk as [|? ? Hk1 Hk']; subst.
  cbn [foldl map fst String.length Nat.ltb Nat.leb]. 
  change ("" +:+ k) with k.
  rewrite join_step by assumption. rewrite concat_cons. reflexivity.
Qed.

Lemma join_options_concat_witness :
  join_options hues
  = String.concat ", " ["azure"; "blue"; "cyan"; "green"; "magenta"; "orange"; "red";
                        "rose"; "violet"; "yellow"].
Proof.
  apply (join_options_concat hues). repeat constructor; discriminate.
Defined.

(** ** Parsing the size *)

Lemma is_nat_pretty_char (d : N) :
  (d < 10)%N -> Ascii.is_nat (pretty_N_char d) = Some (N.to_nat d).
Proof.
  intros Hd.
  assert (Hc : (d = 0 \/ d = 1 \/ d = 2 \/ d = 3 \/ d = 4 \/ d = 5 \/ d = 6 \/ d = 7
                \/ d = 8 \/ d = 9)%N) by lia.
  repeat destruct Hc as [->|Hc]; try subst d; reflexivity.
Qed.

(** Reading back the digits that [pretty] wrote. *)
Lemma digits_pretty_go (x : N) (s : string) :
  digits 0 (pretty_N_go x s) = digits (Z.of_N x) s.
Proof.
  revert s. induction (N.lt_wf_0 x) as [x _ IH]; intros s.
  destruct (N.eq_dec x 0%N) as [->|Hx]; [rewrite pretty_N_go_0; reflexivity|].
  rewrite pretty_N_go_step by lia.
  rewrite IH by (apply N.div_lt; lia).
  cbn [digits]. rewrite is_nat_pretty_char by (apply N.mod_lt; lia).
  f_equal. rewrite (N.div_mod x 10) at 3 by lia. lia.
Qed.

Lemma pretty_go_head (x : N) (s : string) :
  (0 < x)%N -> exists c rest, pretty_N_go x s = String c rest
                              /\ is_Some (Ascii.is_nat c).
Proof.
  revert s. induction (N.lt_wf_0 x) as [x _ IH]; intros s Hx.
  rewrite pretty_N_go_step by lia.
  destruct (N.eq_dec (x `div` 10)%N 0%N) as [Hz|Hz].
  - rewrite Hz, pretty_N_go_0. eexists _, _. split; [reflexivity|].
    rewrite is_nat_pretty_char by (apply N.mod_lt; lia). eauto.
  - apply IH; [apply N.div_lt; lia|apply N.neq_0_lt_0; exact Hz].
Qed.

Lemma pretty_go_append (x : N) (u t : string) :
  pretty_N_go x u +:+ t = pretty_N_go x (u +:+ t).
Proof.
  revert u. induction (N.lt_wf_0 x) as [x _ IH]; intros u.
  destruct (N.eq_dec x 0%N) as [->|Hx]; [rewrite !pretty_N_go_0; reflexivity|].
  rewrite (pretty_N_go_step x u), (pretty_N_go_step x (u +:+ t)) by lia.
  rewrite IH by (apply N.div_lt; lia). reflexivity.
Qed.

(** The text of a natural number, whatever follows it, starts with a
    digit and reads back as the number. *)
Lemma pretty_N_read (x : N) (s : string) :
  starts_with_digit (pretty x +:+ s) = true
  /\ digits 0 (pretty x +:+ s) = digits (Z.of_N x) s.
Proof.
  unfold pretty, pretty_N. destruct (decide (x = 0%N)) as [->|Hx].
  - split; reflexivity.
  - rewrite pretty_go_append. change ("" +:+ s) with s. split.
    + destruct (pretty_go_head x s) as (c & rest & -> & Hc); [lia|].
      cbn [starts_with_digit]. apply bool_decide_eq_true. exact Hc.
    + apply digits_pretty_go.
Qed.

Lemma digits_stop (acc : Z) (s : string) :
  starts_with_digit s = false -> digits acc s = (acc, s).
Proof.
  destruct s as [|c s]; [reflexivity|]. cbn [starts_with_digit digits].
  intros H. apply bool_decide_eq_false in H.
  destruct (Ascii.is_nat c); [exfalso; apply H; eauto|reflexivity].
Qed.

Lemma digit_not_space (c : ascii) (s : string) :
  is_Some (Ascii.is_nat c) -> skipws (String c s) = String c s.
Proof.
  intros [d Hd]. cbn [skipws].
  destruct (Ascii.is_space c) eqn:Hs; [|reflexivity].
  exfalso. revert Hd Hs.
  destruct c as [[] [] [] [] [] [] [] []]; cbn; discriminate.
Qed.

Lemma digit_not_sign (c : ascii) :
  is_Some (Ascii.is_nat c) -> c <> "-"%char /\ c <> "+"%char.
Proof. intros [d Hd]. split; intros ->; discriminate. Qed.

Lemma starts_with_digit_head (s : string) :
  starts_with_digit s = true ->
  exists c rest, s = String c rest /\ is_Some (Ascii.is_nat c).
Proof.
  destruct s as [|c s]; [discriminate|]. cbn [starts_with_digit].
  intros H. apply bool_decide_eq_true in H. eauto.
Qed.

Lemma skipws_all_space (ws s : string) :
  all_space ws = true -> skipws (ws +:+ s) = skipws s.
Proof.
  induction ws as [|c ws IH]; [reflexivity|]. cbn [all_space]. intros H.
  apply andb_true_iff in H as [Hc Hws]. rewrite append_cons. cbn [skipws].
  rewrite Hc. apply IH, Hws.
Qed.

Lemma skipws_digit (s : string) : starts_with_digit s = true -> skipws s = s.
Proof.
  intros H. destruct (starts_with_digit_head s H) as (c & rest & -> & Hc).
  apply digit_not_space, Hc.
Qed.

(** Extracting an [int] from a good stream that holds white space, then
    the text of a number, then something that is not a digit. *)
Lemma extract_pretty (ws : string) (z old : Z) (s : string) :
  all_space ws = true -> starts_with_digit s = false ->
  extract_int (iss_of (ws +:+ pretty z +:+ s)) old
  = if z <? Int.INT_MIN then (mkIss s (bool_decide (s = "")) true, Int.INT_MIN)
    else if Int.INT_MAX <? z then (mkIss s (bool_decide (s = "")) true, Int.INT_MAX)
    else (mkIss s (bool_decide (s = "")) false, z).
Proof.
  intros Hws Hs. unfold extract_int, sentry, iss_of, good.
  cbn [eofbit failbit negb andb iss_buf]. rewrite skipws_all_space by exact Hws.
  destruct z as [|p|p].
  - change (pretty 0 +:+ s) with (String "0" s). cbn [skipws Ascii.is_space].
    cbn [iss_buf]. cbn [digits Ascii.is_nat starts_with_digit]. rewrite digits_stop by exact Hs.
    reflexivity.
  - change (pretty (Z.pos p)) with (pretty (N.pos p)).
    destruct (pretty_N_read (N.pos p) s) as [Hd Hr].
    rewrite skipws_digit by exact Hd.
    destruct (starts_with_digit_head _ Hd) as (c & rest & Heq & Hc).
    rewrite Heq. cbn [iss_buf].
    destruct (digit_not_sign c Hc) as [Hm Hp].
    assert (Hsign : (match String c rest with
                     | String "-" s0 => (true, s0)
                     | String "+" s0 => (false, s0)
                     | s0 => (false, s0)
                     end) = (false, String c rest)).
    { clear -Hm Hp. destruct c as [[] [] [] [] [] [] [] []]; try reflexivity; congruence. }
    rewrite Hsign, <- Heq, Hr, Hd, digits_stop by exact Hs. reflexivity.
  - change (pretty (Z.neg p)) with ("-" +:+ pretty (N.pos p)).
    change (("-" +:+ pretty (N.pos p)) +:+ s) with (String "-" (pretty (N.pos p) +:+ s)).
    cbn [skipws Ascii.is_space iss_buf].
    destruct (pretty_N_read (N.pos p) s) as [Hd Hr].
    rewrite Hr, Hd, digits_stop by exact Hs. reflexivity.
Qed.

Lemma extract_in_range (ws : string) (z old : Z) (s : string) :
  all_space ws = true -> starts_with_digit s = false -> Int.in_range z ->
  extract_int (iss_of (ws +:+ pretty z +:+ s)) old
  = (mkIss s (bool_decide (s = "")) false, z).
Proof.
  intros Hws Hs Hz. rewrite extract_pretty by assumption.
  unfold Int.in_range in Hz.
  destruct (Z.ltb_spec z Int.INT_MIN); [lia|].
  destruct (Z.ltb_spec Int.INT_MAX z); [lia|]. reflexivity.
Qed.

Lemma extract_pretty_bare (z old : Z) (s : string) :
  starts_with_digit s = false ->
  extract_int (iss_of (pretty z +:+ s)) old
  = if z <? Int.INT_MIN then (mkIss s (bool_decide (s = "")) true, Int.INT_MIN)
    else if Int.INT_MAX <? z then (mkIss s (bool_decide (s = "")) true, Int.INT_MAX)
    else (mkIss s (bool_decide (s = "")) false, z).
Proof. apply (extract_pretty "" z old s). reflexivity. Qed.

Lemma extract_in_range_bare (z old : Z) (s : string) :
  starts_with_digit s = false -> Int.in_range z ->
  extract_int (iss_of (pretty z +:+ s)) old = (mkIss s (bool_decide (s = "")) false, z).
Proof. apply (extract_in_range "" z old s). reflexivity. Qed.

(** On a stream that has failed, the operations do nothing. *)
Lemma ignore_failed (iss : istringstream) : failbit iss = true -> ignore iss = iss.
Proof.
  destruct iss as [b e f]. cbn [failbit]. intros ->.
  unfold ignore, sentry, good. cbn [eofbit failbit]. rewrite andb_false_r. reflexivity.
Qed.

Lemma extract_failed (iss : istringstream) (old : Z) :
  failbit iss = true -> extract_int iss old = (iss, old).
Proof.
  destruct iss as [b e f]. cbn [failbit]. intros ->.
  unfold extract_int, sentry, good. cbn [eofbit failbit]. rewrite andb_false_r. reflexivity.
Qed.

(** X9: [set_size] reads back a size written as two decimal [int]
    values with one character between them.  The character need not be
    a comma (anything but a digit separates), white space before either
    number is skipped, what follows the second number is ignored, and
    zero or negative numbers are taken as they are; the callback
    returns 0 and prints nothing. *)
Theorem set_size_parses (tool : TitleTool) (io : Streams) (w h : Z) (c : ascii)
    (ws1 ws2 junk : string) :
  Int.in_range w -> Int.in_range h ->
  all_space ws1 = true -> all_space ws2 = true ->
  Ascii.is_nat c = None -> starts_with_digit junk = false ->
  set_size tool io (ws1 +:+ pretty w +:+ String c (ws2 +:+ pretty h +:+ junk))
  = (with_size tool w h, io, 0).
Proof.
  intros Hw Hh Hws1 Hws2 Hc Hj. unfold set_size.
  rewrite extract_in_range;
    [|exact Hws1|cbn [starts_with_digit]; rewrite Hc; reflexivity|exact Hw].
  rewrite bool_decide_eq_false_2 by discriminate.
  change (ignore (mkIss (String c (ws2 +:+ pretty h +:+ junk)) false false))
    with (iss_of (ws2 +:+ pretty h +:+ junk)).
  rewrite extract_in_range by assumption. reflexivity.
Qed.

Lemma set_size_parses_witness :
  let tool := Fixture.tool "Hello" "" "title.png" "" 1024 1024 in
  set_size tool (mkStreams [] []) "1920,1080" = (with_size tool 1920 1080, mkStreams [] [], 0)
  /\ set_size tool (mkStreams [] []) "1024, 768" = (with_size tool 1024 768, mkStreams [] [], 0)
  /\ set_size tool (mkStreams [] []) "640x-480px"
     = (with_size tool 640 (-480), mkStreams [] [], 0).
Proof.
  intros tool. split; [|split].
  - apply (set_size_parses tool (mkStreams [] []) 1920 1080 "," "" "" "");
      [closed_range | closed_range | reflexivity..].
  - apply (set_size_parses tool (mkStreams [] []) 1024 768 "," "" " " "");
      [closed_range | closed_range | reflexivity..].
  - apply (set_size_parses tool (mkStreams [] []) 640 (-480) "x" "" "" "px");
      [closed_range | closed_range | reflexivity..].
Defined.

(** X10: a size with only one number is rejected, but not without
    effect.  The callback prints the error line and returns 1, and the
    number it did read has already replaced the width, the height
    keeping its former value.  This is so with and without a separator
    after the number. *)
Theorem set_size_missing_height (tool : TitleTool) (io : Streams) (w : Z) (sep : string) :
  Int.in_range w ->
  sep = "" \/ (exists c, sep = String c "" /\ Ascii.is_nat c = None) ->
  set_size tool io (pretty w +:+ sep)
  = (with_size tool w (iy (size tool)),
     print_error io "could not parse size from string: " (pretty w +:+ sep), 1).
Proof.
  intros Hw [->|(c & -> & Hc)]; unfold set_size.
  - rewrite extract_in_range_bare by (reflexivity || exact Hw). reflexivity.
  - rewrite extract_in_range_bare;
      [|cbn [starts_with_digit]; rewrite Hc; reflexivity|exact Hw].
    reflexivity.
Qed.

Lemma set_size_missing_height_witness :
  let tool := Fixture.tool "Hello" "" "title.png" "" 1024 768 in
  set_size tool (mkStreams [] []) "1920"
  = (with_size tool 1920 768,
     mkStreams [] ["error: could not parse size from string: 1920"], 1).
Proof.
  intros tool.
  apply (set_size_missing_height tool (mkStreams [] []) 1920 ""); [closed_range|].
  left. reflexivity.
Defined.

(** X11: a width that does not fit an [int] is rejected: the callback
    prints the error line and returns 1, the width is left at the
    nearest limit of [int], and the rest of the argument is not read,
    so that the height keeps its former value. *)
Theorem set_size_overflow (tool : TitleTool) (io : Streams) (w : Z) (rest : string) :
  ~ Int.in_range w -> starts_with_digit rest = false ->
  set_size tool io (pretty w +:+ rest)
  = (with_size tool (if w <? 0 then Int.INT_MIN else Int.INT_MAX) (iy (size tool)),
     print_error io "could not parse size from string: " (pretty w +:+ rest), 1).
Proof.
  intros Hw Hr. unfold set_size. rewrite extract_pretty_bare by exact Hr.
  unfold Int.in_range in Hw.
  assert (Hmin : Int.INT_MIN < 0 < Int.INT_MAX) by (vm_compute; split; reflexivity).
  destruct (Z.ltb_spec w Int.INT_MIN).
  - destruct (Z.ltb_spec w 0); [|lia].
    rewrite ignore_failed, extract_failed by reflexivity. reflexivity.
  - destruct (Z.ltb_spec Int.INT_MAX w); [|lia].
    destruct (Z.ltb_spec w 0); [lia|].
    rewrite ignore_failed, extract_failed by reflexivity. reflexivity.
Qed.

Lemma set_size_overflow_witness :
  let tool := Fixture.tool "Hello" "" "title.png" "" 1024 768 in
  set_size tool (mkStreams [] []) "4294967296,600"
  = (with_size tool 2147483647 768,
     mkStreams [] ["error: could not parse size from string: 4294967296,600"], 1).
Proof.
  intros tool.
  apply (set_size_overflow tool (mkStreams [] []) 4294967296 ",600"); [|reflexivity].
  vm_compute. intros [_ H]. apply H. reflexivity.
Defined.

(** ** The sizes derived from the image height *)

Lemma bpow_neg (k : Z) : 0 <= k -> (bpow (- k) * IZR (2 ^ k) = 1)%R.
Proof.
  intros Hk. rewrite bpow_opp, (bpow_IZR k) by exact Hk.
  apply Rinv_l. apply not_0_IZR. pose proof (Z.pow_pos_nonneg 2 k). lia.
Qed.

Lemma Rep64_scaled (j e : Z) : 0 <= j < 2 ^ 53 -> -1074 <= e -> Rep64 (IZR j * bpow e).
Proof. intros Hj He. exists j, e. split; [reflexivity|]. split; [exact Hj|exact He]. Qed.

(** The product of a height by a ratio slightly above [n/d], truncated. *)
Lemma scaled_exact (n d h : Z) (c : spec_float) :
  Good64 c -> 0 < n < d -> d <= 100 ->
  (IZR n / IZR d <= Fmag c <= IZR n / IZR d + bpow (-55))%R ->
  0 <= h <= Int.INT_MAX ->
  scaled h c = n * h / d.
Proof.
  intros Hc Hn Hd Hcv Hh. unfold scaled, F64.to_int, F64.mul, F64.of_int.
  change F64.prec with 53. change F64.emax with 1024.
  assert (Hmax : Int.INT_MAX = 2147483647) by reflexivity. rewrite Hmax in Hh.
  destruct (SFof_int_exact 53 1024 ltac:(lia) ltac:(lia) h) as [Hg Hv].
  { change (2 ^ 53) with 9007199254740992. lia. }
  pose proof (SFmul_rounds 53 1024 ltac:(lia) ltac:(lia) _ _ Hg Hc) as Hr.
  rewrite Hv in Hr.
  set (k := n * h / d).
  assert (Hk : d * k <= n * h < d * (k + 1)).
  { unfold k. pose proof (Z.mul_div_le (n * h) d ltac:(lia)).
    pose proof (Z.mul_succ_div_gt (n * h) d ltac:(lia)). lia. }
  assert (Hk0 : 0 <= k <= h).
  { split; [apply Z.div_pos; nia|]. apply Z.div_le_upper_bound; nia. }
  clearbody k.
  assert (HdR : (1 <= IZR d <= 100)%R) by (split; apply IZR_le; lia).
  assert (HhR : (0 <= IZR h <= 2147483647)%R) by (split; apply IZR_le; lia).
  assert (Hlo : (IZR d * IZR k <= IZR n * IZR h)%R).
  { rewrite <- !mult_IZR. apply IZR_le. lia. }
  assert (Hhi : (IZR n * IZR h + 1 <= IZR d * (IZR k + 1))%R).
  { rewrite <- (plus_IZR k 1), <- !mult_IZR, <- plus_IZR. apply IZR_le. lia. }
  pose proof (bpow_neg 55 ltac:(lia)) as H55. change (2 ^ 55) with 36028797018963968 in H55.
  pose proof (bpow_neg 20 ltac:(lia)) as H20. change (2 ^ 20) with 1048576 in H20.
  change (- (55)) with (-55) in H55. change (- (20)) with (-20) in H20.
  pose proof (bpow_gt_0 (-55)) as Hp55. pose proof (bpow_gt_0 (-20)) as Hp20.
  assert (Hb20 : bpow (-20) = (/ 1048576)%R) by lra.
  assert (Hq : (IZR n / IZR d * IZR d = IZR n)%R) by (field; lra).
  set (q := (IZR n / IZR d)%R) in *.
  assert (Hq0 : (0 <= q)%R).
  { assert (0 < IZR n)%R by (apply IZR_lt; lia). unfold q. apply Rlt_le, Rdiv_lt_0_compat; lra. }
  (* the product lies between k and k + 1 - 2^-20 *)
  assert (HXlo : (IZR k <= IZR h * Fmag c)%R).
  { assert (IZR k <= IZR h * q)%R; [|nra].
    apply (Rmult_le_reg_l (IZR d)); [lra|]. nra. }
  assert (HXhi : (IZR h * Fmag c <= IZR ((k + 1) * 1048576 - 1) * bpow (-20))%R).
  { rewrite minus_IZR, mult_IZR, plus_IZR.
    assert (IZR h * q <= IZR k + 1 - / IZR d)%R.
    { apply (Rmult_le_reg_l (IZR d)); [lra|].
      replace (IZR d * (IZR k + 1 - / IZR d))%R with (IZR d * (IZR k + 1) - 1)%R by (field; lra).
      nra. }
    assert (/ 100 <= / IZR d)%R by (apply Rinv_le_contravar; lra).
    assert (IZR h * bpow (-55) <= 2147483647 * bpow (-55))%R
      by (apply Rmult_le_compat_r; lra).
    assert (IZR h * Fmag c <= IZR h * (q + bpow (-55)))%R
      by (apply Rmult_le_compat_l; lra).
    rewrite Hb20. lra. }
  destruct (Rounds_Good 53 1024 _ _ _ Hr
              (Rep64_scaled ((k + 1) * 1048576 - 1) (-20)
                 ltac:(change (2 ^ 53) with 9007199254740992; lia) ltac:(lia)) HXhi)
    as [Hgr Hrnd].
  { apply Rle_lt_trans with (IZR (k + 1)).
    - rewrite minus_IZR, mult_IZR, plus_IZR, Hb20. lra.
    - apply Rle_lt_trans with (bpow 31).
      + rewrite (bpow_IZR 31) by lia. apply IZR_le. change (2 ^ 31) with 2147483648. lia.
      + apply bpow_lt. reflexivity. }
  assert (Hrep_k : Rep64 (IZR k)).
  { replace (IZR k) with (IZR k * bpow 0)%R by (rewrite bpow_0; ring).
    apply Rep64_scaled; [change (2 ^ 53) with 9007199254740992; lia|lia]. }
  pose proof (Rnd_ge 53 1024 _ _ _ Hrnd Hrep_k HXlo) as Hge.
  pose proof (Rnd_le 53 1024 _ _ _ Hrnd
                (Rep64_scaled ((k + 1) * 1048576 - 1) (-20)
                   ltac:(change (2 ^ 53) with 9007199254740992; lia) ltac:(lia)) HXhi) as Hle.
  rewrite minus_IZR, mult_IZR, plus_IZR, Hb20 in Hle.
  destruct (SFmul 53 1024 (SFof_int 53 1024 h) c) as [sz|si| |s m e] eqn:Hprod;
    try (destruct Hgr as [_ Hnn]; discriminate Hnn).
  - (* the product is a zero *)
    cbn [Fmag] in Hge. cbn [SFto_int].
    assert (IZR k <= IZR 0)%R by exact Hge. apply le_IZR in H. lia.
  - destruct (Good_finite 53 1024 _ _ _ Hgr) as [-> Hb].
    cbn [Fmag] in Hge, Hle. cbn [SFto_int cond_Zopp].
    destruct (Zfloor_spec m e) as [Hf0 Hfl]. unfold Zfloor in Hf0, Hfl. cbn [cond_Zopp] in Hf0, Hfl.
    assert (Heq : Z.shiftl (Z.pos m) e = k).
    { apply (IZR_floor_unique _ _ (IZR (Z.pos m) * bpow e)); [exact Hfl|]. nra. }
    rewrite Heq.
    destruct (Z.leb_spec Int.INT_MIN k), (Z.leb_spec k Int.INT_MAX); cbn [andb];
      try reflexivity; unfold Int.INT_MIN, Int.INT_MAX in *;
      change (2 ^ 31) with 2147483648 in *; lia.
Qed.

Lemma double_literals :
  (Good64 d0_2 /\ (2 / 10 <= Fmag d0_2 <= 2 / 10 + bpow (-55))%R)
  /\ (Good64 d0_1 /\ (1 / 10 <= Fmag d0_1 <= 1 / 10 + bpow (-55))%R)
  /\ (Good64 d0_08 /\ (8 / 100 <= Fmag d0_08 <= 8 / 100 + bpow (-55))%R)
  /\ (Good64 d0_04 /\ (4 / 100 <= Fmag d0_04 <= 4 / 100 + bpow (-55))%R)
  /\ (Good64 d0_02 /\ (2 / 100 <= Fmag d0_02 <= 2 / 100 + bpow (-55))%R).
Proof.
  pose proof (bpow_neg 55 ltac:(lia)) as H55. change (2 ^ 55) with 36028797018963968 in H55.
  pose proof (bpow_neg 56 ltac:(lia)) as H56. change (2 ^ 56) with 72057594037927936 in H56.
  pose proof (bpow_neg 57 ltac:(lia)) as H57. change (2 ^ 57) with 144115188075855872 in H57.
  pose proof (bpow_neg 58 ltac:(lia)) as H58. change (2 ^ 58) with 288230376151711744 in H58.
  change (- (55)) with (-55) in *. change (- (56)) with (-56) in *.
  change (- (57)) with (-57) in *. change (- (58)) with (-58) in *.
  repeat split; try reflexivity.
  all: match goal with
       | |- context [Fmag ?d] => let v := eval vm_compute in d in change d with v
       end; cbn [Fmag]; lra.
Qed.

(** X12: the three sizes that [main] derives from the image height in
    [double] arithmetic are exact integer quotients: for every height
    from 0 to [INT_MAX] the product with the literal, truncated, is the
    floor of the height times the decimal fraction, although no literal
    is exactly representable.  The gradient variant uses a fifth, a
    tenth and two twenty-fifths of the height; the plain variant two
    twenty-fifths, a twenty-fifth and a fiftieth. *)
Theorem scaled_sizes (h : Z) :
  0 <= h <= Int.INT_MAX ->
  scaled h d0_2 = h / 5 /\ scaled h d0_1 = h / 10 /\ scaled h d0_08 = 2 * h / 25
  /\ scaled h d0_04 = h / 25 /\ scaled h d0_02 = h / 50.
Proof.
  intros Hh.
  destruct double_literals as ((G2 & B2) & (G1 & B1) & (G08 & B08) & (G04 & B04) & (G02 & B02)).
  rewrite (scaled_exact 1 5 h d0_2), (scaled_exact 1 10 h d0_1),
    (scaled_exact 2 25 h d0_08), (scaled_exact 1 25 h d0_04), (scaled_exact 1 50 h d0_02);
    try assumption; try lia; try lra.
  rewrite !Z.mul_1_l. repeat split; reflexivity.
Qed.

Lemma scaled_sizes_witness :
  scaled 1024 d0_2 = 204 /\ scaled 1024 d0_1 = 102 /\ scaled 1024 d0_08 = 81
  /\ scaled 1024 d0_04 = 40 /\ scaled 1024 d0_02 = 20.
Proof. apply (scaled_sizes 1024). closed_range. Defined.

(** ** The largest and the smallest channel *)

Lemma Good32_same (a b : spec_float) :
  Good32 a -> Good32 b -> Fmag a = Fmag b -> (0 < Fmag a)%R -> a = b.
Proof. f32 Good_same_magnitude. Qed.

Lemma one_minus_rnd (x : spec_float) :
  U01 x -> Good32 (F32.sub (flit 1) x) /\ Rnd32 (1 - Fmag x) (Fmag (F32.sub (flit 1) x)).
Proof.
  intros [Hx Hle]. destruct (flit_exact 1 ltac:(lia)) as [H1 Hv1].
  pose proof (Good32_nonneg x Hx) as Hnn.
  destruct (Rep32_IZR 1 ltac:(lia)) as [Hrep Hmax].
  rewrite <- Hv1 at 1.
  apply (Rounds32_Good _ 1); [|exact Hrep|rewrite Hv1; lra|exact Hmax].
  apply sub32_rounds; [exact H1|exact Hx|rewrite Hv1; exact Hle].
Qed.

Lemma mul_rnd (a b : spec_float) :
  Good32 a -> U01 b ->
  Good32 (F32.mul a b) /\ Rnd32 (Fmag a * Fmag b) (Fmag (F32.mul a b)).
Proof.
  intros Ha [Hb Hle].
  pose proof (Good32_nonneg a Ha) as Hna. pose proof (Good32_nonneg b Hb) as Hnb.
  destruct (Good32_Rep a Ha) as [Hrep Hmax].
  apply (Rounds32_Good _ (Fmag a)); [|exact Hrep|nra|exact Hmax].
  apply mul32_rounds; assumption.
Qed.

Lemma Rnd32_0 (r : R) : Rnd32 0 r -> r = 0%R.
Proof. apply Rnd32_exact. apply (Rep_0 F32.prec F32.emax prec32_gt_0). Qed.

(** [1 - x] does not grow with [x]. *)
Lemma one_minus_antitone (a b : spec_float) :
  U01 a -> U01 b -> (Fmag a <= Fmag b)%R ->
  (Fmag (F32.sub (flit 1) b) <= Fmag (F32.sub (flit 1) a))%R.
Proof.
  intros Ha Hb Hle.
  destruct (one_minus_rnd a Ha) as [_ Hra]. destruct (one_minus_rnd b Hb) as [_ Hrb].
  destruct (Rle_lt_or_eq_dec _ _ Hle) as [Hlt|Heq].
  - apply (Rnd32_mono _ _ _ _ Hrb Hra). lra.
  - pose proof (Good32_nonneg a (proj1 Ha)) as Hna.
    destruct (Rle_lt_or_eq_dec _ _ Hna) as [Hpos|Hz].
    + rewrite (Good32_same a b (proj1 Ha) (proj1 Hb) Heq Hpos). lra.
    + destruct (Rep32_IZR 1 ltac:(lia)) as [Hrep _].
      rewrite <- Heq, <- Hz, Rminus_0_r in Hrb. rewrite <- Hz, Rminus_0_r in Hra.
      rewrite (Rnd32_exact _ _ Hrep Hra), (Rnd32_exact _ _ Hrep Hrb). lra.
Qed.

(** [v * x] does not shrink when [x] grows. *)
Lemma mul_monotone (v a b : spec_float) :
  Good32 v -> U01 a -> U01 b -> (Fmag a <= Fmag b)%R ->
  (Fmag (F32.mul v a) <= Fmag (F32.mul v b))%R.
Proof.
  intros Hv Ha Hb Hle.
  destruct (mul_rnd v a Hv Ha) as [_ Hra]. destruct (mul_rnd v b Hv Hb) as [_ Hrb].
  pose proof (Good32_nonneg v Hv) as Hnv.
  pose proof (Good32_nonneg a (proj1 Ha)) as Hna.
  destruct (Rle_lt_or_eq_dec _ _ Hnv) as [Hvpos|Hvz].
  - destruct (Rle_lt_or_eq_dec _ _ Hle) as [Hlt|Heq].
    + apply (Rnd32_mono _ _ _ _ Hra Hrb). nra.
    + destruct (Rle_lt_or_eq_dec _ _ Hna) as [Hpos|Hz].
      * rewrite (Good32_same a b (proj1 Ha) (proj1 Hb) Heq Hpos). lra.
      * rewrite <- Heq, <- Hz, Rmult_0_r in Hrb. rewrite <- Hz, Rmult_0_r in Hra.
        rewrite (Rnd32_0 _ Hra), (Rnd32_0 _ Hrb). lra.
  - rewrite <- Hvz, Rmult_0_l in Hra, Hrb.
    rewrite (Rnd32_0 _ Hra), (Rnd32_0 _ Hrb). lra.
Qed.

(** A product with a factor in [0, 1] is not above the other factor. *)
Lemma mul_U01_r (a b : spec_float) :
  U01 a -> U01 b -> U01 (F32.mul a b) /\ (Fmag (F32.mul a b) <= Fmag b)%R.
Proof.
  intros [Ha Hla] [Hb Hlb].
  pose proof (Good32_nonneg a Ha) as Hna. pose proof (Good32_nonneg b Hb) as Hnb.
  destruct (Good32_Rep b Hb) as [Hrep Hmax].
  destruct (Rounds32_Good (Fmag a * Fmag b) (Fmag b) (F32.mul a b))
    as [Hg Hr]; [|exact Hrep|nra|exact Hmax|].
  - apply mul32_rounds; assumption.
  - assert (Fmag (F32.mul a b) <= Fmag b)%R by (apply (Rnd32_le _ _ _ Hr Hrep); nra).
    split; [split; [exact Hg|lra]|assumption].
Qed.

Section Extremes.
Variables h s v : spec_float.
Hypothesis h_valid : valid_binary F32.prec F32.emax h = true.
Hypothesis s_valid : valid_binary F32.prec F32.emax s = true.
Hypothesis v_valid : valid_binary F32.prec F32.emax v = true.
Hypothesis h_range : within (flit 360) h.
Hypothesis s_range : unit_interval s.
Hypothesis v_range : unit_interval v.

(** [p] is the least of the three intermediate values. *)
Lemma hsv_p_least :
  let hue := hsv_hue h in
  (Fmag (hsv_p s v) <= Fmag (hsv_q hue s v))%R
  /\ (Fmag (hsv_p s v) <= Fmag (hsv_t hue s v))%R.
Proof.
  cbn zeta. destruct (flit_exact 1 ltac:(lia)) as [H1 Hv1].
  pose proof (within_Good (flit 1) s s_valid eq_refl s_range) as Hs.
  pose proof (within_Good (flit 1) v v_valid eq_refl v_range) as Hv.
  pose proof (within_le _ _ H1 Hs s_range) as Hs1. rewrite Hv1 in Hs1.
  destruct (hsv_hue_range h h_valid (proj1 h_range)) as [Hhue Hhle].
  destruct (hsv_sector (hsv_hue h) Hhue Hhle) as (_ & _ & Hf).
  assert (HS : U01 s) by (split; assumption).
  unfold hsv_p, hsv_q, hsv_t. split.
  - destruct (mul_U01_r _ s Hf HS) as [Hfs Hle].
    apply mul_monotone; [exact Hv|apply one_minus_U01, HS|apply one_minus_U01, Hfs|].
    apply one_minus_antitone; assumption.
  - pose proof (one_minus_U01 _ Hf) as Hf'.
    destruct (mul_U01_r _ s Hf' HS) as [Hfs Hle].
    apply mul_monotone; [exact Hv|apply one_minus_U01, HS|apply one_minus_U01, Hfs|].
    apply one_minus_antitone; assumption.
Qed.

(** X13: for a hue in [0, 360] and a saturation and a value in [0, 1],
    when the value is not below epsilon, the largest channel of the
    result is the value itself: one channel is the value and none is
    above it.  When the saturation is not below epsilon either, the
    smallest channel is [p], the value times one minus the saturation:
    one channel is [p] and none is below it.  Both hold in binary32
    arithmetic, with the roundings of the code. *)
Theorem rgb_from_hsv_extremes :
  let rgb := rgb_from_hsv (mkVec3 h s v) in
  F32.lt v FLT_EPSILON = false ->
  ((vx rgb = v \/ vy rgb = v \/ vz rgb = v)
   /\ F32.ge v (vx rgb) = true /\ F32.ge v (vy rgb) = true /\ F32.ge v (vz rgb) = true)
  /\ (F32.lt s FLT_EPSILON = false ->
      (vx rgb = hsv_p s v \/ vy rgb = hsv_p s v \/ vz rgb = hsv_p s v)
      /\ F32.ge (vx rgb) (hsv_p s v) = true /\ F32.ge (vy rgb) (hsv_p s v) = true
      /\ F32.ge (vz rgb) (hsv_p s v) = true).
Proof.
  cbn zeta. intros Hblack.
  destruct (hsv_pqt_good h s v h_valid s_valid v_valid h_range s_range v_range)
    as (Hv & Hv1 & [Hp Hpl] & [Hq Hql] & [Ht Htl] & Hhi).
  destruct hsv_p_least as [Hpq Hpt].
  assert (Hge : forall a b, Good32 a -> Good32 b -> (Fmag b <= Fmag a)%R -> F32.ge a b = true).
  { intros a b Ha Hb Hle. unfold F32.ge. apply leb32; assumption. }
  pose proof (Hge v v Hv Hv (Rle_refl _)) as Hvv.
  pose proof (Hge _ _ Hv Hp Hpl) as Hvp. pose proof (Hge _ _ Hv Hq Hql) as Hvq.
  pose proof (Hge _ _ Hv Ht Htl) as Hvt.
  pose proof (Hge _ _ Hp Hp (Rle_refl _)) as Hpp.
  pose proof (Hge _ _ Hq Hp Hpq) as Hqp. pose proof (Hge _ _ Ht Hp Hpt) as Htp.
  rewrite rgb_from_hsv_unfold. cbn zeta. rewrite Hblack.
  destruct (F32.lt s FLT_EPSILON) eqn:Hgray.
  { cbn [vx vy vz]. split; [tauto|discriminate]. }
  assert (Hcases : hsv_hi (hsv_hue h) = 0 \/ hsv_hi (hsv_hue h) = 1 \/ hsv_hi (hsv_hue h) = 2
                   \/ hsv_hi (hsv_hue h) = 3 \/ hsv_hi (hsv_hue h) = 4
                   \/ hsv_hi (hsv_hue h) = 5) by lia.
  destruct Hcases as [E|[E|[E|[E|[E|E]]]]]; rewrite E; cbn [vx vy vz]; tauto.
Qed.

End Extremes.

Lemma rgb_from_hsv_extremes_witness :
  let h := flit 30 in
  let s := F32.of_float d0_5 in
  let v := F32.of_float d0_8 in
  let rgb := rgb_from_hsv (mkVec3 h s v) in
  ((vx rgb = v \/ vy rgb = v \/ vz rgb = v)
   /\ F32.ge v (vx rgb) = true /\ F32.ge v (vy rgb) = true /\ F32.ge v (vz rgb) = true)
  /\ ((vx rgb = hsv_p s v \/ vy rgb = hsv_p s v \/ vz rgb = hsv_p s v)
      /\ F32.ge (vx rgb) (hsv_p s v) = true /\ F32.ge (vy rgb) (hsv_p s v) = true
      /\ F32.ge (vz rgb) (hsv_p s v) = true).
Proof.
  intros h s v rgb.
  destruct (rgb_from_hsv_extremes h s v) as [Hmax Hmin];
    try reflexivity; try (split; reflexivity).
  split; [exact Hmax|]. apply Hmin. reflexivity.
Defined.

(** ** Colors of the gradient *)

Lemma bpow_m24 : bpow (-24) = (/ 16777216)%R.
Proof.
  pose proof (bpow_neg 24 ltac:(lia)) as H. change (2 ^ 24) with 16777216 in H.
  change (- (24)) with (-24) in H. lra.
Qed.

Lemma bpow_m25 : bpow (-25) = (/ 33554432)%R.
Proof.
  pose proof (bpow_neg 25 ltac:(lia)) as H. change (2 ^ 25) with 33554432 in H.
  change (- (25)) with (-25) in H. lra.
Qed.

(** Between 0 and 1 a rounding moves a number by at most 2^-25. *)
Lemma Rnd32_near_unit (x r : R) :
  Rnd32 x r -> (0 <= x <= 1)%R -> (Rabs (r - x) <= / 33554432)%R.
Proof.
  intros [_ Hnear] Hx.
  set (j := up (x * 16777216 - / 2)).
  destruct (archimed (x * 16777216 - / 2)) as [Hup1 Hup2]. fold j in Hup1, Hup2.
  assert (Hj : 0 <= j <= 16777216).
  { split.
    - assert (-1 < j); [|lia]. apply lt_IZR. lra.
    - assert (j < 16777217); [|lia]. apply lt_IZR. lra. }
  assert (Hrep : Rep32 (IZR j * bpow (-24))).
  { destruct (Z.eq_dec j 16777216) as [->|Hne].
    - rewrite bpow_m24. replace (16777216 * / 16777216)%R with 1%R by field.
      apply (Rep32_IZR 1). split; [lia|reflexivity].
    - exists j, (-24). split; [reflexivity|]. split; [|discriminate].
      change (2 ^ F32.prec) with 16777216. lia. }
  eapply Rle_trans; [apply (Hnear _ Hrep)|].
  rewrite bpow_m24. apply Rabs_le. lra.
Qed.

(** A blend of two values in [0, 1] by a factor in [0, 1] is in [0, 1]:
    the three roundings do not carry it past 1. *)
Lemma lerp_U01 (blend a b : spec_float) :
  U01 blend -> U01 a -> U01 b -> U01 (lerp blend a b).
Proof.
  intros Hbl Ha Hb. unfold lerp.
  pose proof (Good32_nonneg _ (proj1 Hbl)) as Hbl0.
  destruct (one_minus_U01 blend Hbl) as [Hc Hc1].
  pose proof (Good32_nonneg _ Hc) as Hc0.
  assert (Hcr : Rnd32 (1 - Fmag blend) (Fmag (F32.sub (flit 1) blend))).
  { destruct (flit_exact 1 ltac:(lia)) as [H1 Hv1].
    destruct (Rep32_IZR 1 ltac:(lia)) as [Hrep Hmax].
    rewrite <- Hv1 at 1.
    apply (Rounds32_Good _ 1); [|exact Hrep|rewrite Hv1; lra|exact Hmax].
    apply sub32_rounds; [exact H1|exact (proj1 Hbl)|rewrite Hv1; exact (proj2 Hbl)]. }
  pose proof (Rnd32_near_unit _ _ Hcr ltac:(destruct Hbl; lra)) as Herr.
  pose proof (Rle_abs (Fmag (F32.sub (flit 1) blend) - (1 - Fmag blend))) as Herr'.
  destruct (mul_U01 _ a Hc Ha) as [Hu Hule].
  destruct (mul_U01 _ b (proj1 Hbl) Hb) as [Hw Hwle].
  pose proof (Good32_nonneg _ Hu) as Hu0. pose proof (Good32_nonneg _ Hw) as Hw0.
  set (u := F32.mul (F32.sub (flit 1) blend) a) in *.
  set (w := F32.mul blend b) in *.
  destruct (Rep32_IZR 2 ltac:(split; [lia|reflexivity])) as [Hrep2 Hmax2].
  destruct (Rep32_IZR 1 ltac:(split; [lia|reflexivity])) as [Hrep1 _].
  destruct (Rounds32_Good (Fmag u + Fmag w) 2 (F32.add u w)) as [Hg Hr];
    [apply add32_rounds; assumption | exact Hrep2 | lra | exact Hmax2 |].
  split; [exact Hg|].
  destruct (Rle_lt_dec (Fmag u + Fmag w) 1) as [Hle|Hgt].
  - apply (Rnd32_le _ _ _ Hr Hrep1 Hle).
  - destruct Hr as [Hrrep Hnear]. pose proof (Hnear 1%R Hrep1) as Hn.
    rewrite (Rabs_left1 (1 - _)) in Hn by lra.
    pose proof (Rle_abs (Fmag (F32.add u w) - (Fmag u + Fmag w))) as Habs.
    destruct (Rep_gap F32.prec F32.emax prec32_gt_0 8388608 (-23) _
                ltac:(lia) ltac:(discriminate) ltac:(right; discriminate) Hrrep)
      as [Hlow|Hhigh].
    + pose proof bpow_m23. lra.
    + exfalso. change (8388608 + 1) with 8388609 in Hhigh. pose proof bpow_m23. lra.
Qed.

Lemma unit_interval_U01 (x : spec_float) :
  valid_binary F32.prec F32.emax x = true -> unit_interval x -> U01 x.
Proof.
  intros Hv Hu. destruct (flit_exact 1 ltac:(lia)) as [H1 Hv1].
  pose proof (within_Good (flit 1) x Hv eq_refl Hu) as Hg.
  split; [exact Hg|]. rewrite <- Hv1. apply within_le; assumption.
Qed.

Lemma U01_unit_interval (x : spec_float) : U01 x -> unit_interval x.
Proof.
  intros [Hg Hle]. destruct (flit_exact 1 ltac:(lia)) as [H1 Hv1].
  apply Good32_within; [exact H1|exact Hg|rewrite Hv1; exact Hle].
Qed.

Lemma U01_valid (x : spec_float) : U01 x -> valid_binary F32.prec F32.emax x = true.
Proof. intros [[Hv _] _]. exact Hv. Qed.

(** The blend factor of a row is in [0, 1]. *)
Lemma blend_U01 (roi : ROI) (y : Z) :
  2 <= yend roi - ybegin roi <= Int.INT_MAX -> ybegin roi <= y < yend roi ->
  U01 (blend_of roi y).
Proof.
  intros Hh Hy. destruct (blend_good roi Hh y Hy) as [Hg Hr].
  destruct (divisor_good roi Hh) as [Hd Hd1].
  destruct (of_int_good (y - ybegin roi) ltac:(lia)) as [Ha _].
  pose proof (Good32_nonneg _ Ha) as Ha0.
  pose proof (of_int_mono (y - ybegin roi) (yend roi - ybegin roi - 1) ltac:(lia) ltac:(lia))
    as Hle.
  split; [exact Hg|].
  destruct (Rep32_IZR 1 ltac:(split; [lia|reflexivity])) as [Hrep1 _].
  apply (Rnd32_le _ _ _ Hr Hrep1).
  apply (Rmult_le_reg_r (Fmag (F32.of_int (yend roi - ybegin roi - 1)))); [lra|].
  unfold Rdiv. rewrite Rmult_assoc, Rinv_l by lra. lra.
Qed.

Lemma Forall_three {A : Type} (P : A -> Prop) (a b c : A) :
  Forall P [a; b; c] -> P a /\ P b /\ P c.
Proof.
  intros H. inversion H as [|? ? Ha H1]; subst. inversion H1 as [|? ? Hb H2]; subst.
  inversion H2 as [|? ? Hc _]; subst. auto.
Qed.

(** The three blends of a row, for colors in [0, 1]. *)
Lemma gradient_channels_U01 (roi : ROI) (startcolor endcolor : Vec3) (y : Z) :
  2 <= yend roi - ybegin roi <= Int.INT_MAX -> ybegin roi <= y < yend roi ->
  Forall U01 [vx startcolor; vy startcolor; vz startcolor;
              vx endcolor; vy endcolor; vz endcolor] ->
  Forall U01 [lerp (blend_of roi y) (vx startcolor) (vx endcolor);
              lerp (blend_of roi y) (vy startcolor) (vy endcolor);
              lerp (blend_of roi y) (vz startcolor) (vz endcolor)].
Proof.
  intros Hh Hy Hc. pose proof (blend_U01 roi y Hh Hy) as Hb.
  inversion Hc as [|? ? S1 Hc1]; subst. inversion Hc1 as [|? ? S2 Hc2]; subst.
  inversion Hc2 as [|? ? S3 Hc3]; subst. inversion Hc3 as [|? ? E1 Hc4]; subst.
  inversion Hc4 as [|? ? E2 Hc5]; subst. inversion Hc5 as [|? ? E3 _]; subst.
  repeat (constructor; [apply lerp_U01; assumption|]). constructor.
Qed.

Lemma U01_checked (c : spec_float) :
  U01 c -> valid_binary F32.prec F32.emax c = true /\ unit_interval c.
Proof. intros H. split; [apply U01_valid|apply U01_unit_interval]; exact H. Qed.

(** X14: a gradient between two colors whose channels are in [0, 1]
    stays in [0, 1]: in a region of two rows or more, every row gets a
    pixel whose three color channels are valid binary32 numbers between
    0 and 1, the three roundings of each blend notwithstanding, and
    whose alpha is 1. *)
Theorem gradient_pixel_in_unit_range (roi : ROI) (startcolor endcolor : Vec3) (y : Z) :
  2 <= yend roi - ybegin roi <= Int.INT_MAX -> ybegin roi <= y < yend roi ->
  Forall (fun c => valid_binary F32.prec F32.emax c = true /\ unit_interval c)
         [vx startcolor; vy startcolor; vz startcolor;
          vx endcolor; vy endcolor; vz endcolor] ->
  exists r g b,
    gradient_pixel roi startcolor endcolor y = [r; g; b; flit 1]
    /\ Forall (fun c => valid_binary F32.prec F32.emax c = true /\ unit_interval c) [r; g; b].
Proof.
  intros Hh Hy Hc.
  assert (HU : Forall U01 [vx startcolor; vy startcolor; vz startcolor;
                           vx endcolor; vy endcolor; vz endcolor]).
  { eapply Forall_impl; [exact Hc|]. intros c [Hv Hu]. apply unit_interval_U01; assumption. }
  pose proof (gradient_channels_U01 roi startcolor endcolor y Hh Hy HU) as Hl.
  unfold gradient_pixel. eexists _, _, _. split; [reflexivity|].
  eapply Forall_impl; [exact Hl|]. intros c. apply U01_checked.
Qed.

Lemma gradient_pixel_in_unit_range_witness :
  exists r g b,
    gradient_pixel (mkROI 0 2 0 3) Fixture.black Fixture.white 1 = [r; g; b; flit 1]
    /\ Forall (fun c => valid_binary F32.prec F32.emax c = true /\ unit_interval c) [r; g; b].
Proof.
  apply (gradient_pixel_in_unit_range (mkROI 0 2 0 3) Fixture.black Fixture.white 1).
  - cbn. split; [lia|]. discriminate.
  - cbn. lia.
  - repeat constructor.
Defined.

(** The conversion of a hue in [0, 360] with saturation and value in
    [0, 1] has its channels in [0, 1]. *)
Lemma rgb_from_hsv_U01 (h s v : spec_float) :
  valid_binary F32.prec F32.emax h = true -> valid_binary F32.prec F32.emax s = true ->
  valid_binary F32.prec F32.emax v = true ->
  within (flit 360) h -> unit_interval s -> unit_interval v ->
  U01 (vx (rgb_from_hsv (mkVec3 h s v))) /\ U01 (vy (rgb_from_hsv (mkVec3 h s v)))
  /\ U01 (vz (rgb_from_hsv (mkVec3 h s v))).
Proof.
  intros Hhv Hsv Hvv Hh Hs Hv.
  destruct (hsv_pqt_good h s v Hhv Hsv Hvv Hh Hs Hv)
    as (Hg & Hv1 & [Hp Hpl] & [Hq Hql] & [Ht Htl] & Hhi).
  destruct (flit_exact 0 ltac:(lia)) as [H0 Hf0].
  assert (U0 : U01 (flit 0)) by (split; [exact H0|rewrite Hf0; lra]).
  assert (Uv : U01 v) by (split; assumption).
  assert (Up : U01 (hsv_p s v)) by (split; [exact Hp|lra]).
  assert (Uq : U01 (hsv_q (hsv_hue h) s v)) by (split; [exact Hq|lra]).
  assert (Ut : U01 (hsv_t (hsv_hue h) s v)) by (split; [exact Ht|lra]).
  rewrite rgb_from_hsv_unfold. cbn zeta.
  destruct (F32.lt v FLT_EPSILON); [cbn [vx vy vz]; tauto|].
  destruct (F32.lt s FLT_EPSILON); [cbn [vx vy vz]; tauto|].
  assert (Hcases : hsv_hi (hsv_hue h) = 0 \/ hsv_hi (hsv_hue h) = 1 \/ hsv_hi (hsv_hue h) = 2
                   \/ hsv_hi (hsv_hue h) = 3 \/ hsv_hi (hsv_hue h) = 4
                   \/ hsv_hi (hsv_hue h) = 5) by lia.
  destruct Hcases as [E|[E|[E|[E|[E|E]]]]]; rewrite E; cbn [vx vy vz]; tauto.
Qed.

(** Every hue of the table is a whole number of degrees from 30 to 360. *)
Lemma hues_range (name : string) (hue : spec_float) :
  StdMap.find name hues = Some hue ->
  valid_binary F32.prec F32.emax hue = true /\ within (flit 360) hue.
Proof.
  rewrite hues_find_table. unfold hue_lookup.
  destruct (List.find _ hue_table) as [[k z]|] eqn:Hf; [|discriminate].
  apply List.find_some in Hf as [Hin _]. cbn. intros [= <-].
  cbn in Hin. repeat destruct Hin as [Hin|Hin]; try contradiction;
    injection Hin as _ <-; repeat split; reflexivity.
Qed.

(** X15: whatever name of the table is asked for, the gradient
    background consists of valid colors: on a canvas of two rows or
    more, every pixel holds three color channels between 0 and 1 and
    the alpha 1. *)
Theorem gradient_background_in_unit_range (tool : TitleTool) (io : Streams) (w h : Z)
    (hue : spec_float) (x y : Z) :
  StdMap.find (gradient tool) hues = Some hue ->
  2 <= h <= Int.INT_MAX -> 0 <= x < w -> 0 <= y < h ->
  exists r g b,
    getpixel (snd (TitleTool.draw_background tool (mkROI 0 w 0 h) io (ImageBuf_of_spec w h 4)))
             x y = [r; g; b; flit 1]
    /\ unit_interval r /\ unit_interval g /\ unit_interval b.
Proof.
  intros Hfind Hh Hx Hy. rewrite (background_found tool io w h hue Hfind). cbn [snd].
  rewrite draw_gradient_paint, paint_inside; [|exact Hx|exact Hy| |reflexivity].
  2:{ unfold pixel_exists; simpl.
      repeat (apply andb_true_intro; split); try apply Z.leb_le; try apply Z.ltb_lt; lia. }
  destruct (hues_range _ _ Hfind) as [Hv Hr].
  destruct (rgb_from_hsv_U01 hue (F32.of_float d1_0) (F32.of_float d0_5) Hv eq_refl eq_refl Hr)
    as (Sx & Sy & Sz); [split; reflexivity..|].
  destruct (rgb_from_hsv_U01 hue (F32.of_float d0_5) (F32.of_float d0_8) Hv eq_refl eq_refl Hr)
    as (Ex & Ey & Ez); [split; reflexivity..|].
  pose proof (gradient_channels_U01 (mkROI 0 w 0 h)
                (rgb_from_hsv (start_hsv hue)) (rgb_from_hsv (end_hsv hue)) y
                ltac:(cbn; lia) ltac:(cbn; lia)) as Hl.
  unfold gradient_pixel. eexists _, _, _. split; [reflexivity|].
  assert (Hl' : Forall U01 [lerp (blend_of (mkROI 0 w 0 h) y)
                              (vx (rgb_from_hsv (start_hsv hue)))
                              (vx (rgb_from_hsv (end_hsv hue)));
                            lerp (blend_of (mkROI 0 w 0 h) y)
                              (vy (rgb_from_hsv (start_hsv hue)))
                              (vy (rgb_from_hsv (end_hsv hue)));
                            lerp (blend_of (mkROI 0 w 0 h) y)
                              (vz (rgb_from_hsv (start_hsv hue)))
                              (vz (rgb_from_hsv (end_hsv hue)))]).
  { apply Hl. unfold start_hsv, end_hsv. do 6 (constructor; [assumption|]). constructor. }
  destruct (Forall_three _ _ _ _ Hl') as (R1 & R2 & R3).
  repeat split; apply U01_unit_interval; assumption.
Qed.

Lemma gradient_background_in_unit_range_witness :
  let tool := Fixture.tool "Hello, world!" "An image" "title.png" "rose" 3 4 in
  exists r g b,
    getpixel (snd (TitleTool.draw_background tool (mkROI 0 3 0 4) (mkStreams [] [])
                     (ImageBuf_of_spec 3 4 4))) 2 1 = [r; g; b; flit 1]
    /\ unit_interval r /\ unit_interval g /\ unit_interval b.
Proof.
  intros tool.
  apply (gradient_background_in_unit_range tool (mkStreams [] []) 3 4 (flit 330) 2 1);
    [reflexivity | split; [lia|discriminate] | lia | lia].
Defined.

(** ** Negative hues *)

(** The sign of a quotient only marks the result. *)
Lemma binary_round_aux_sign (prec emax : Z) (s : bool) (m e : Z) (l : location) :
  binary_round_aux prec emax s m e l
  = match binary_round_aux prec emax false m e l with
    | S754_zero _ => S754_zero s
    | S754_infinity _ => S754_infinity s
    | S754_finite _ m' e' => S754_finite s m' e'
    | S754_nan => S754_nan
    end.
Proof.
  unfold binary_round_aux. destruct (shr_fexp prec emax m e l) as [mrs e1].
  destruct (shr_fexp prec emax _ e1 loc_Exact) as [mrs' e2].
  destruct (shr_m mrs'); [reflexivity| |reflexivity].
  destruct (e2 <=? emax - prec); reflexivity.
Qed.

Lemma div_negative (m m' mq : positive) (e e' eq : Z) :
  F32.div (S754_finite false m e) (S754_finite false m' e') = S754_finite false mq eq ->
  F32.div (S754_finite true m e) (S754_finite false m' e') = S754_finite true mq eq.
Proof.
  unfold F32.div, SFdiv. destruct (SFdiv_core_binary _ _ _ _ _ _) as [[mz ez] lz].
  cbn [xorb]. intros H. rewrite binary_round_aux_sign, H. reflexivity.
Qed.

(** The integer part of a negative finite number. *)
Lemma Zfloor_negative (m : positive) (e : Z) :
  (IZR (Zfloor true m e) <= - (IZR (Zpos m) * bpow e) < IZR (Zfloor true m e) + 1)%R.
Proof.
  unfold Zfloor. cbn [cond_Zopp]. destruct (Z_le_gt_dec 0 e) as [He|He].
  - rewrite Z.shiftl_mul_pow2 by lia. rewrite mult_IZR, <- bpow_IZR by lia.
    change (- Z.pos m) with (Z.neg m). change (Z.neg m) with (- Z.pos m). rewrite opp_IZR. lra.
  - rewrite Z.shiftl_div_pow2 by lia.
    assert (Hp : 0 < 2 ^ (- e)) by (apply Z.pow_pos_nonneg; lia).
    pose proof (Z.div_mod (- Zpos m) (2 ^ (- e)) ltac:(lia)) as Hdm.
    pose proof (Z.mod_pos_bound (- Zpos m) (2 ^ (- e)) Hp) as Hr.
    set (k := - Zpos m / 2 ^ (- e)) in *. set (r := - Zpos m mod 2 ^ (- e)) in *.
    assert (Hbe : bpow e = (/ IZR (2 ^ (- e)))%R).
    { rewrite <- bpow_IZR, <- bpow_opp by lia. f_equal. ring. }
    rewrite Hbe.
    assert (HP : (0 < IZR (2 ^ (- e)))%R) by (apply IZR_lt, Hp).
    assert (Hm : (- IZR (Zpos m) = IZR (2 ^ (- e)) * IZR k + IZR r)%R).
    { rewrite <- opp_IZR, <- mult_IZR, <- plus_IZR. f_equal. exact Hdm. }
    assert (Hr0 : (0 <= IZR r)%R) by (apply IZR_le; lia).
    assert (Hr1 : (IZR r < IZR (2 ^ (- e)))%R) by (apply IZR_lt; lia).
    assert (Hi : (0 < / IZR (2 ^ (- e)))%R) by (apply Rinv_0_lt_compat, HP).
    assert (HPi : (IZR (2 ^ (- e)) * / IZR (2 ^ (- e)) = 1)%R) by (apply Rinv_r; lra).
    replace (- (IZR (Zpos m) * / IZR (2 ^ (- e))))%R
      with ((- IZR (Zpos m)) * / IZR (2 ^ (- e)))%R by ring.
    rewrite Hm.
    replace ((IZR (2 ^ (- e)) * IZR k + IZR r) * / IZR (2 ^ (- e)))%R
      with (IZR k + IZR r * / IZR (2 ^ (- e)))%R by (field; lra).
    assert (0 <= IZR r * / IZR (2 ^ (- e)) < 1)%R by (split; nra). lra.
Qed.

(** Comparing two negative numbers is comparing their magnitudes the
    other way round. *)
Lemma SFleb_negative (m1 m2 : positive) (e1 e2 : Z) :
  SFleb (S754_finite true m1 e1) (S754_finite true m2 e2)
  = SFleb (S754_finite false m2 e2) (S754_finite false m1 e1).
Proof.
  unfold SFleb, SFcompare. rewrite (Z.compare_antisym e1 e2).
  destruct (e1 ?= e2); cbn [CompOpp]; try reflexivity.
  change (Pcompare m1 m2 Eq) with (Pos.compare m1 m2).
  change (Pcompare m2 m1 Eq) with (Pos.compare m2 m1).
  rewrite (Pos.compare_antisym m1 m2). destruct (Pos.compare m1 m2); reflexivity.
Qed.

(** A valid float between -300 and -1 is a negative finite number whose
    magnitude is between 1 and 300. *)
Lemma negative_hue_shape (h : spec_float) :
  valid_binary F32.prec F32.emax h = true ->
  F32.ge h (flit (-300)) = true -> F32.ge (flit (-1)) h = true ->
  exists m e, h = S754_finite true m e
              /\ Good32 (S754_finite false m e)
              /\ (1 <= IZR (Zpos m) * bpow e <= 300)%R.
Proof.
  intros Hv Hlo Hhi. unfold F32.ge in *.
  assert (E300 : flit (-300) = S754_finite true 9830400 (-15)) by reflexivity.
  assert (E1 : flit (-1) = S754_finite true 8388608 (-23)) by reflexivity.
  rewrite E300 in Hlo. rewrite E1 in Hhi.
  destruct h as [sz|si| |sg m e]; try discriminate.
  - destruct si; discriminate.
  - destruct sg; [|discriminate]. exists m, e. split; [reflexivity|].
    assert (Hg : Good32 (S754_finite false m e)) by (split; [exact Hv|reflexivity]).
    split; [exact Hg|].
    rewrite SFleb_negative in Hlo, Hhi.
    assert (G300 : Good32 (S754_finite false 9830400 (-15))) by (split; reflexivity).
    assert (G1 : Good32 (S754_finite false 8388608 (-23))) by (split; reflexivity).
    apply (leb32 _ _ Hg G300) in Hlo. apply (leb32 _ _ G1 Hg) in Hhi.
    cbn [Fmag] in Hlo, Hhi. pose proof bpow_m15. pose proof bpow_m23. lra.
Qed.

(** X16: a hue between -300 and -1 degrees is not wrapped into
    [0, 360): the quotient by 60 has a negative integer part, the
    remainder by 6 keeps its sign, no case of the switch applies, and
    the result is black, whatever the saturation and the value (both
    not below epsilon) are. *)
Theorem rgb_from_hsv_negative_hue (h s v : spec_float) :
  valid_binary F32.prec F32.emax h = true ->
  F32.ge h (flit (-300)) = true -> F32.ge (flit (-1)) h = true ->
  F32.lt v FLT_EPSILON = false -> F32.lt s FLT_EPSILON = false ->
  -5 <= hsv_hi h <= -1
  /\ rgb_from_hsv (mkVec3 h s v) = mkVec3 (flit 0) (flit 0) (flit 0).
Proof.
  intros Hv Hlo Hhi Hblack Hgray.
  destruct (negative_hue_shape h Hv Hlo Hhi) as (m & e & -> & Hg & Hm).
  destruct (flit_exact 60 ltac:(lia)) as [H60 Hv60].
  assert (E60 : flit 60 = S754_finite false 15728640 (-18)) by reflexivity.
  (* the quotient of the magnitude *)
  set (qp := F32.div (S754_finite false m e) (flit 60)).
  destruct (Rep32_IZR 5 ltac:(split; [lia|reflexivity])) as [Hrep5 Hmax5].
  destruct (Rounds32_Good (Fmag (S754_finite false m e) / Fmag (flit 60)) 5 qp)
    as [Hgq Hrq];
    [apply div32_rounds; [exact Hg|exact H60|rewrite Hv60; lra]
    | exact Hrep5 | rewrite Hv60; cbn [Fmag]; lra | exact Hmax5 |].
  rewrite Hv60 in Hrq. cbn [Fmag] in Hrq.
  assert (Hq5 : (Fmag qp <= 5)%R) by (apply (Rnd32_le _ _ _ Hrq Hrep5); lra).
  assert (Hrep64 : Rep32 (1 * bpow (-6))).
  { exists 1, (-6). split; [reflexivity|]. split; [split|]; zle. }
  assert (Hb6 : (bpow (-6) * 64 = 1)%R).
  { change (-6) with (Z.opp 6). rewrite bpow_opp, (bpow_IZR 6) by lia.
    change (2 ^ 6) with 64. field. }
  assert (Hq0 : (1 * bpow (-6) <= Fmag qp)%R) by (apply (Rnd32_ge _ _ _ Hrq Hrep64); lra).
  destruct qp as [sz|si| |sq mq eq] eqn:Hqp;
    try (destruct Hgq as [_ Hnn]; discriminate Hnn).
  { exfalso. cbn [Fmag] in Hq0. lra. }
  destruct (Good_finite F32.prec F32.emax _ _ _ Hgq) as [-> Hbq]. cbn [Fmag] in Hq5, Hq0.
  unfold qp in Hqp. rewrite E60 in Hqp.
  pose proof (div_negative _ _ _ _ _ _ Hqp) as Hq. rewrite <- E60 in Hq.
  (* its integer part *)
  pose proof (Zfloor_negative mq eq) as Hfl.
  set (k := Zfloor true mq eq) in *.
  assert (Hk : -5 <= k <= -1).
  { split.
    - assert (-6 < k); [|lia]. apply lt_IZR. lra.
    - assert (k < 0); [|lia]. apply lt_IZR. lra. }
  assert (Hhue : hsv_hue (S754_finite true m e) = S754_finite true m e) by reflexivity.
  assert (Hhi' : hsv_hi (S754_finite true m e) = k).
  { unfold hsv_hi. rewrite Hq. unfold F32.floor, SFfloor. fold k.
    assert (Hc : k = -5 \/ k = -4 \/ k = -3 \/ k = -2 \/ k = -1) by lia.
    clearbody k. destruct Hc as [->|[->|[->|[->| ->]]]]; reflexivity. }
  split; [rewrite Hhi'; exact Hk|].
  rewrite rgb_from_hsv_unfold. cbn zeta. rewrite Hblack, Hgray, Hhue, Hhi'.
  assert (Hc : k = -5 \/ k = -4 \/ k = -3 \/ k = -2 \/ k = -1) by lia.
  clearbody k. destruct Hc as [->|[->|[->|[->| ->]]]]; reflexivity.
Qed.

Lemma rgb_from_hsv_negative_hue_witness :
  rgb_from_hsv (mkVec3 (flit (-30)) f0_5 f0_8) = mkVec3 (flit 0) (flit 0) (flit 0)
  /\ rgb_from_hsv (mkVec3 (flit 330) f0_5 f0_8)
     <> rgb_from_hsv (mkVec3 (flit (-30)) f0_5 f0_8).
Proof.
  pose proof (rgb_from_hsv_negative_hue (flit (-30)) f0_5 f0_8
                eq_refl eq_refl eq_refl eq_refl eq_refl) as [_ H].
  split; [exact H|]. rewrite H. discriminate.
Defined.

(** ** The accuracy of the blend factor *)

(** X17: in a region of 2 to 2^24 rows the blend factor of a row is the
    binary32 number nearest to the exact fraction
    (y - ybegin) / (height - 1): the two conversions to [float] are
    exact, the division rounds once, and the factor is a non-negative
    number within 2^-25 of the fraction. *)
Theorem blend_accuracy (roi : ROI) (y : Z) :
  2 <= yend roi - ybegin roi <= 2 ^ 24 -> ybegin roi <= y < yend roi ->
  let exact := (IZR (y - ybegin roi) / IZR (yend roi - ybegin roi - 1))%R in
  Good32 (blend_of roi y)
  /\ Rnd32 exact (Fmag (blend_of roi y))
  /\ (Rabs (Fmag (blend_of roi y) - exact) <= / 33554432)%R.
Proof.
  intros Hh Hy exact. subst exact.
  assert (H24 : 2 ^ 24 = 16777216) by reflexivity. rewrite H24 in Hh.
  assert (Hmax : Int.INT_MAX = 2147483647) by reflexivity.
  destruct (blend_good roi ltac:(lia) y Hy) as [Hg Hr].
  destruct (flit_exact (y - ybegin roi) ltac:(lia)) as [_ Ha].
  destruct (flit_exact (yend roi - ybegin roi - 1) ltac:(lia)) as [_ Hd].
  unfold flit in Ha, Hd. rewrite Ha, Hd in Hr.
  split; [exact Hg|]. split; [exact Hr|].
  apply Rnd32_near_unit; [exact Hr|].
  assert (H0 : (0 <= IZR (y - ybegin roi))%R) by (apply IZR_le; lia).
  assert (H1 : (1 <= IZR (yend roi - ybegin roi - 1))%R) by (apply IZR_le; lia).
  assert (H2 : (IZR (y - ybegin roi) <= IZR (yend roi - ybegin roi - 1))%R)
    by (apply IZR_le; lia).
  split.
  - apply Rmult_le_pos; [exact H0|]. apply Rlt_le, Rinv_0_lt_compat. lra.
  - apply (Rmult_le_reg_r (IZR (yend roi - ybegin roi - 1))); [lra|].
    unfold Rdiv. rewrite Rmult_assoc, Rinv_l by lra. lra.
Qed.

Lemma blend_accuracy_witness :
  (Rabs (Fmag (blend_of (mkROI 0 4 0 4) 1) - IZR (1 - 0) / IZR (4 - 0 - 1)) <= / 33554432)%R.
Proof.
  apply (blend_accuracy (mkROI 0 4 0 4) 1); cbn; [split; [lia|discriminate]|lia].
Defined.

(** ** The background of the canvas *)





